(** * Reindeer maze (Advent of Code 2024, day 16): [day16.py], its two
    searches, its parser, its two parts and its rendering, embedded as
    Rocq functions and verified.

    Python integers are [Z]; dictionaries are [gmap]; sets are [gset];
    a [str] is the list of its code points; [queue.PriorityQueue] is an
    interface with the usual contract (the entry retrieved by [get] is a
    least one, ties broken in any way); [str.strip] and [str.splitlines]
    are a function passed to [parse]. *)

From stdpp Require Import gmap list sorting.
From Stdlib Require Strings.String Strings.Ascii.

Open Scope Z_scope.

(** * The program *)

(** ** Constants *)

Definition COST_FORWARD : Z := 1.
Definition COST_ROTATE : Z := 1000.

(** ** Rotations and headings *)

Module Rotation.
Record t : Type := mk { c0r0 : Z; c1r0 : Z; c0r1 : Z; c1r1 : Z }.
End Rotation.

(** [RotateLeft()] and [RotateRight()] with their default field values. *)
Definition RotateLeft : Rotation.t :=
  {| Rotation.c0r0 := 0; Rotation.c1r0 := -1; Rotation.c0r1 := 1; Rotation.c1r1 := 0 |}.

Definition RotateRight : Rotation.t :=
  {| Rotation.c0r0 := 0; Rotation.c1r0 := 1; Rotation.c0r1 := -1; Rotation.c1r1 := 0 |}.

Module Direction.
Record t : Type := mk { x : Z; y : Z }.

(** [Direction.__mul__]: both components read [c1r0]; [c0r1] is never
    read. *)
Definition mul (self : t) (rotation : Rotation.t) : t :=
  {| x := x self * Rotation.c0r0 rotation + y self * Rotation.c1r0 rotation;
     y := x self * Rotation.c1r0 rotation + y self * Rotation.c1r1 rotation |}.

Definition to_pair (d : t) : Z * Z := (x d, y d).
Definition of_pair (p : Z * Z) : t := mk p.1 p.2.
End Direction.

Module Point.
Record t : Type := mk { x : Z; y : Z }.

(** [Point.__add__] *)
Definition add (self : t) (direction : Direction.t) : t :=
  {| x := x self + Direction.x direction; y := y self + Direction.y direction |}.

Definition to_pair (p : t) : Z * Z := (x p, y p).
Definition of_pair (p : Z * Z) : t := mk p.1 p.2.
End Point.

#[global] Instance Direction_eq_dec : EqDecision Direction.t.
Proof. solve_decision. Defined.

#[global] Instance Point_eq_dec : EqDecision Point.t.
Proof. solve_decision. Defined.

#[global] Program Instance Direction_countable : Countable Direction.t :=
  inj_countable' Direction.to_pair Direction.of_pair _.
Next Obligation. by intros []. Qed.

#[global] Program Instance Point_countable : Countable Point.t :=
  inj_countable' Point.to_pair Point.of_pair _.
Next Obligation. by intros []. Qed.

Definition DIRECTION_START : Direction.t := Direction.mk 1 0.

(** The four cardinal unit headings. *)
Definition East : Direction.t := Direction.mk 1 0.
Definition West : Direction.t := Direction.mk (-1) 0.
Definition South : Direction.t := Direction.mk 0 1.
Definition North : Direction.t := Direction.mk 0 (-1).

Definition cardinals : list Direction.t := [East; South; West; North].

Definition cardinal (d : Direction.t) : Prop := d ∈ cardinals.

(** The heading pointing the other way. *)
Definition opposite (d : Direction.t) : Direction.t :=
  Direction.mk (- Direction.x d) (- Direction.y d).

(** The true quarter turns, reading the matrix row by row
    ([c0r0 c1r0 / c0r1 c1r1]), for comparison with [Direction.mul]. *)
Definition quarter_turn (d : Direction.t) (r : Rotation.t) : Direction.t :=
  Direction.mk
    (Direction.x d * Rotation.c0r0 r + Direction.y d * Rotation.c1r0 r)
    (Direction.x d * Rotation.c0r1 r + Direction.y d * Rotation.c1r1 r).

(** ** The maze *)

Inductive Tile : Type := Wall | Space.

Module Maze.
Record t : Type := mk {
  start : Point.t;
  end_ : Point.t;
  tiles : gmap Point.t Tile;
  width : Z;
  height : Z
}.
End Maze.

(** [isinstance(maze.tiles.get(point, Space()), Wall)] *)
Definition is_wall (maze : Maze.t) (point : Point.t) : bool :=
  match default Space (Maze.tiles maze !! point) with
  | Wall => true
  | Space => false
  end.

(** [distance_to_end]: the Manhattan distance to the end cell. *)
Definition distance_to_end (maze : Maze.t) (point : Point.t) : Z :=
  Z.abs (Point.x (Maze.end_ maze) - Point.x point)
  + Z.abs (Point.y (Maze.end_ maze) - Point.y point).

(** ** Search nodes *)

(** [Trail = dict[Point, bool]]; the code stores the integer 1. *)
Abbreviation Trail := (gmap Point.t Z).

(** [cytoolz.dicttoolz.merge]: later dictionaries take precedence. *)
Definition merge (d1 d2 : Trail) : Trail := d2 ∪ d1.

Module NodeAStar.
Record t : Type := mk {
  direction : Direction.t;
  point : Point.t;
  g : Z;
  h : Z;
  trail : Trail
}.
Definition f (self : t) : Z := g self + h self.
Definition lt (self other : t) : bool := f self <? f other.
End NodeAStar.

Module NodeDjikstra.
Record t : Type := mk {
  cost : Z;
  direction : Direction.t;
  point : Point.t
}.
(** [@dataclass(order=True)] with [compare=False] on the other fields:
    nodes are ordered by [cost] alone. *)
Definition lt (self other : t) : bool := cost self <? cost other.
End NodeDjikstra.

(** ** [queue.PriorityQueue]

    The library class is not part of the repository; the searches use
    [put], [get] and [empty] only.  Its contract: [get] removes an entry
    that no remaining entry is less than. Which of several least entries
    comes out is left to the implementation. *)

Record PriorityQueue (A : Type) (lt : A → A → bool) : Type := {
  pq_carrier : Type;
  pq_new : pq_carrier;
  pq_put : pq_carrier → A → pq_carrier;
  (** [None] when [empty()] holds, else the entry and the queue left *)
  pq_get : pq_carrier → option (A * pq_carrier);
  (** the entries held, as a multiset *)
  pq_items : pq_carrier → list A;
  pq_items_new : pq_items pq_new = [];
  pq_items_put : ∀ q a, pq_items (pq_put q a) ≡ₚ a :: pq_items q;
  pq_get_None : ∀ q, pq_get q = None ↔ pq_items q = [];
  pq_get_Some : ∀ q a q', pq_get q = Some (a, q') →
    pq_items q ≡ₚ a :: pq_items q' ∧ Forall (λ b, lt b a = false) (pq_items q')
}.

Arguments pq_carrier {A lt} _.
Arguments pq_new {A lt} _.
Arguments pq_put {A lt} _ _ _.
Arguments pq_get {A lt} _ _.
Arguments pq_items {A lt} _ _.
Arguments pq_items_new {A lt} _.
Arguments pq_items_put {A lt} _ _ _.
Arguments pq_get_None {A lt} _ _.
Arguments pq_get_Some {A lt} _ _ _ _ _.

(** A reference implementation: an unsorted list, [get] takes out the
    first least entry. *)
Section list_queue.
Context {A : Type} (key : A → Z).

Fixpoint extract_min (l : list A) : option (A * list A) :=
  match l with
  | [] => None
  | a :: l' =>
      match extract_min l' with
      | None => Some (a, [])
      | Some (b, r) => if key b <? key a then Some (b, a :: r) else Some (a, l')
      end
  end.
End list_queue.

(** ** Outcomes of a loop *)

Inductive exn : Type := RouteNotFound | KeyError.

(** One pass through the body of a [while] loop. *)
Inductive step_result (S R : Type) : Type :=
| Next (s : S)          (* fall through, or [continue] *)
| Return (r : R)        (* [return r] *)
| Raise (e : exn).      (* an exception leaves the function *)
Arguments Next {S R} _.
Arguments Return {S R} _.
Arguments Raise {S R} _.

Inductive result (R : Type) : Type :=
| Returned (r : R)
| Raised (e : exn)
| OutOfFuel.
Arguments Returned {R} _.
Arguments Raised {R} _.
Arguments OutOfFuel {R}.

(** [k] passes of the loop body without leaving the loop. *)
Fixpoint iterate {S R : Type} (step : S → step_result S R) (k : nat) (s : S) : option S :=
  match k with
  | O => Some s
  | Datatypes.S k' =>
      match step s with
      | Next s' => iterate step k' s'
      | _ => None
      end
  end.

(** The loop, cut off after [fuel] passes. *)
Fixpoint run {S R : Type} (step : S → step_result S R) (fuel : nat) (s : S) : result R :=
  match fuel with
  | O => OutOfFuel
  | Datatypes.S fuel' =>
      match step s with
      | Next s' => run step fuel' s'
      | Return r => Returned r
      | Raise e => Raised e
      end
  end.

(** ** [find_astar] *)

Abbreviation State := (Direction.t * Point.t)%type.

Section astar.
Context (Q : PriorityQueue NodeAStar.t NodeAStar.lt).

Record astar_state : Type := mk_astar_state {
  astar_open : pq_carrier Q;
  astar_closed : gmap State bool
}.

(** The three nodes put on [open] when [current] is expanded. *)
Definition astar_forward (maze : Maze.t) (current : NodeAStar.t) : NodeAStar.t :=
  NodeAStar.mk
    (NodeAStar.direction current)
    (Point.add (NodeAStar.point current) (NodeAStar.direction current))
    (NodeAStar.g current + COST_FORWARD)
    (distance_to_end maze (Point.add (NodeAStar.point current) (NodeAStar.direction current)))
    (merge (NodeAStar.trail current)
           {[ Point.add (NodeAStar.point current) (NodeAStar.direction current) := 1 ]}).

Definition astar_rotate (current : NodeAStar.t) (rotation : Rotation.t) : NodeAStar.t :=
  NodeAStar.mk
    (Direction.mul (NodeAStar.direction current) rotation)
    (NodeAStar.point current)
    (NodeAStar.g current + COST_ROTATE)
    (NodeAStar.h current)
    (NodeAStar.trail current).

Definition astar_successors (maze : Maze.t) (current : NodeAStar.t) : list NodeAStar.t :=
  if negb (is_wall maze (NodeAStar.point current))
  then [astar_forward maze current; astar_rotate current RotateLeft;
        astar_rotate current RotateRight]
  else [].

(** The body of [while not open.empty()]. *)
Definition astar_step (maze : Maze.t) (st : astar_state) : step_result astar_state (Z * Trail) :=
  match pq_get Q (astar_open st) with
  | None => Raise RouteNotFound
  | Some (current, open) =>
      if decide (NodeAStar.point current = Maze.end_ maze)
      then Return (NodeAStar.g current, NodeAStar.trail current)
      else if default false
                (astar_closed st !! (NodeAStar.direction current, NodeAStar.point current))
      then Next (mk_astar_state open (astar_closed st))
      else
        Next (mk_astar_state
                (foldl (pq_put Q) open (astar_successors maze current))
                (<[(NodeAStar.direction current, NodeAStar.point current) := true]>
                   (astar_closed st)))
  end.

Definition astar_init (maze : Maze.t) (reindeer : Point.t) (direction_default : Direction.t)
  : astar_state :=
  mk_astar_state
    (pq_put Q (pq_new Q)
       (NodeAStar.mk direction_default reindeer 0 (distance_to_end maze reindeer)
          {[ reindeer := 1 ]}))
    ∅.

Definition find_astar (fuel : nat) (maze : Maze.t) (reindeer : Point.t)
    (direction_default : Direction.t) : result (Z * Trail) :=
  run (astar_step maze) fuel (astar_init maze reindeer direction_default).
End astar.

(** ** [find_djikstra] *)

Section djikstra.
Context (Q : PriorityQueue NodeDjikstra.t NodeDjikstra.lt).

Record djikstra_state : Type := mk_djikstra_state {
  djikstra_open : pq_carrier Q;
  djikstra_closed : gmap State bool;
  djikstra_trails : gmap (Point.t * Z) (gset Point.t)
}.

Definition djikstra_successors (maze : Maze.t) (current : NodeDjikstra.t)
  : list NodeDjikstra.t :=
  if negb (is_wall maze (NodeDjikstra.point current))
  then [ NodeDjikstra.mk (NodeDjikstra.cost current + COST_FORWARD)
           (NodeDjikstra.direction current)
           (Point.add (NodeDjikstra.point current) (NodeDjikstra.direction current));
         NodeDjikstra.mk (NodeDjikstra.cost current + COST_ROTATE)
           (Direction.mul (NodeDjikstra.direction current) RotateLeft)
           (NodeDjikstra.point current);
         NodeDjikstra.mk (NodeDjikstra.cost current + COST_ROTATE)
           (Direction.mul (NodeDjikstra.direction current) RotateRight)
           (NodeDjikstra.point current) ]
  else [].

(** One pass of [for node in nodes]; [None] stands for the [KeyError]
    of [trails[(current.point, current.cost)]]. *)
Definition djikstra_visit (current : NodeDjikstra.t)
    (acc : option (gmap (Point.t * Z) (gset Point.t) * pq_carrier Q))
    (node : NodeDjikstra.t)
  : option (gmap (Point.t * Z) (gset Point.t) * pq_carrier Q) :=
  match acc with
  | None => None
  | Some (trails, open) =>
      match trails !! (NodeDjikstra.point current, NodeDjikstra.cost current) with
      | None => None
      | Some here =>
          Some (<[(NodeDjikstra.point node, NodeDjikstra.cost node) :=
                    default ∅ (trails !! (NodeDjikstra.point node, NodeDjikstra.cost node))
                    ∪ here ∪ {[ NodeDjikstra.point node ]}]> trails,
                pq_put Q open node)
      end
  end.

(** The body of [while not open.empty()]. *)
Definition djikstra_step (maze : Maze.t) (st : djikstra_state)
  : step_result djikstra_state (Z * gset Point.t) :=
  match pq_get Q (djikstra_open st) with
  | None => Raise RouteNotFound
  | Some (current, open) =>
      if decide (NodeDjikstra.point current = Maze.end_ maze)
      then
        match djikstra_trails st !! (NodeDjikstra.point current, NodeDjikstra.cost current) with
        | Some cells => Return (NodeDjikstra.cost current, cells)
        | None => Raise KeyError
        end
      else if default false
                (djikstra_closed st !! (NodeDjikstra.direction current, NodeDjikstra.point current))
      then Next (mk_djikstra_state open (djikstra_closed st) (djikstra_trails st))
      else
        let closed :=
          <[(NodeDjikstra.direction current, NodeDjikstra.point current) := true]>
            (djikstra_closed st) in
        match foldl (djikstra_visit current) (Some (djikstra_trails st, open))
                (djikstra_successors maze current) with
        | Some (trails, open') => Next (mk_djikstra_state open' closed trails)
        | None => Raise KeyError
        end
  end.

Definition djikstra_init (reindeer : Point.t) (direction_default : Direction.t)
  : djikstra_state :=
  mk_djikstra_state
    (pq_put Q (pq_new Q) (NodeDjikstra.mk 0 direction_default reindeer))
    ∅
    {[ (reindeer, 0) := {[ reindeer ]} ]}.

Definition find_djikstra (fuel : nat) (maze : Maze.t) (reindeer : Point.t)
    (direction_default : Direction.t) : result (Z * gset Point.t) :=
  run (djikstra_step maze) fuel (djikstra_init reindeer direction_default).
End djikstra.

(** ** Two queues that meet the contract

    Both keep the entries in a list and take out a least one; they differ
    in which of several least entries comes out: [list_queue] gives the
    one put first, [stack_queue] the one put last. *)

Program Definition list_queue {A : Type} (key : A → Z)
  : PriorityQueue A (λ a b, key a <? key b) :=
  {| pq_carrier := list A;
     pq_new := [];
     pq_put := λ q a, q ++ [a];
     pq_get := extract_min key;
     pq_items := λ q, q;
     pq_items_new := eq_refl;
     pq_items_put := λ q a, Permutation_sym (Permutation_cons_append q a);
     pq_get_None := _;
     pq_get_Some := _ |}.
Next Obligation.
  intros A key [|a l]; simpl; [done|].
  split; [|done].
  destruct (extract_min key l) as [[b r]|]; [|done].
  by destruct (key b <? key a).
Qed.
Next Obligation.
  intros A key l. induction l as [|c l IH]; intros a r; simpl; [done|].
  destruct (extract_min key l) as [[b r']|] eqn:E.
  - destruct (IH b r' eq_refl) as [Hp Hf].
    destruct (key b <? key c) eqn:Hlt; intros [= <- <-].
    + split.
      * rewrite Hp. apply Permutation_swap.
      * constructor; [lia|]. done.
    + split; [done|]. rewrite Hp. constructor; [done|].
      eapply Forall_impl; [exact Hf|]. simpl. intros; lia.
  - destruct l as [|c' l]; [by intros [= <- <-]|].
    simpl in E. destruct (extract_min key l) as [[b r']|]; [|done].
    by destruct (key b <? key c').
Qed.

Definition stack_queue {A : Type} (key : A → Z)
  : PriorityQueue A (λ a b, key a <? key b) :=
  {| pq_carrier := list A;
     pq_new := [];
     pq_put := λ q a, a :: q;
     pq_get := extract_min key;
     pq_items := λ q, q;
     pq_items_new := eq_refl;
     pq_items_put := λ q a, Permutation_refl (a :: q);
     pq_get_None := pq_get_None (list_queue key);
     pq_get_Some := pq_get_Some (list_queue key) |}.

Definition astar_queue : PriorityQueue NodeAStar.t NodeAStar.lt := list_queue NodeAStar.f.
Definition djikstra_queue : PriorityQueue NodeDjikstra.t NodeDjikstra.lt :=
  list_queue NodeDjikstra.cost.
Definition astar_stack : PriorityQueue NodeAStar.t NodeAStar.lt := stack_queue NodeAStar.f.
Definition djikstra_stack : PriorityQueue NodeDjikstra.t NodeDjikstra.lt :=
  stack_queue NodeDjikstra.cost.

(** ** Strings

    A Python [str] is the list of its code points; [codes] writes one
    from a literal. *)

Abbreviation str := (list N).

Section literals.
Import Stdlib.Strings.String.

Definition codes (s : string) : str :=
  Ascii.N_of_ascii <$> list_ascii_of_string s.

(** The literals of [visualize_tile] and [visualize]. *)
Definition green_open : str := codes "[green]".
Definition green_close : str := codes "[/green]".
Definition red_open : str := codes "[red]".
Definition red_close : str := codes "[/red]".
Definition yellow_open : str := codes "[yellow]".
Definition yellow_close : str := codes "[/yellow]".
Definition blue_open : str := codes "[blue]".
Definition blue_close : str := codes "[/blue]".
Definition white_open : str := codes "[white]".
Definition white_close : str := codes "[/white]".
End literals.

(** The line feed of ["\n".join]. *)
Definition newline : N := 10%N.

(** [sep.join(parts)] *)
Fixpoint join (sep : str) (parts : list str) : str :=
  match parts with
  | [] => []
  | [part] => part
  | part :: rest => part ++ sep ++ join sep rest
  end.

(** ** [Symbol] *)

Module Symbol.
Inductive t : Type := Start | End | Wall | Space | Step.

(** The one character of each member's value: S, E, #, ., @. *)
Definition value (symbol : t) : N :=
  match symbol with
  | Start => 83%N
  | End => 69%N
  | Wall => 35%N
  | Space => 46%N
  | Step => 64%N
  end.
End Symbol.

(** ** [search] and [parse] *)

(** [enumerate(l)] *)
Definition enumerate {A : Type} (l : list A) : list (Z * A) :=
  imap (λ i a, (Z.of_nat i, a)) l.

(** The points the generator of [search] yields, in order. *)
Definition search (input : list str) (symbol : Symbol.t) : list Point.t :=
  yrow ← enumerate input;
  xitem ← enumerate yrow.2;
  if decide (xitem.2 = Symbol.value symbol) then [Point.mk xitem.1 yrow.1] else [].

Inductive parse_exn : Type := StopIteration | IndexError.

(** [{point: Wall() for point in points}] *)
Definition wall_tiles (points : list Point.t) : gmap Point.t Tile :=
  foldl (λ tiles point, <[point := Wall]> tiles) ∅ points.

Section parse.
(** [input.strip().splitlines()], two methods of the library's [str]. *)
Context (strip_splitlines : str → list str).

(** [parse]: [next] raises [StopIteration] on a generator that yields
    nothing, [maze[0]] raises [IndexError] on an empty tuple. *)
Definition parse (input : str) : parse_exn + (Maze.t * Point.t) :=
  let maze := strip_splitlines input in
  match head (search maze Symbol.Start) with
  | None => inl StopIteration
  | Some start =>
      match head (search maze Symbol.End) with
      | None => inl StopIteration
      | Some end_ =>
          let tiles := wall_tiles (search maze Symbol.Wall) in
          match maze !! 0%nat with
          | None => inl IndexError
          | Some row =>
              inr (Maze.mk start end_ tiles (Z.of_nat (length row)) (Z.of_nat (length maze)),
                   start)
          end
      end
  end.

(** ** [part1] and [part2] *)

Inductive outcome (R : Type) : Type :=
| Value (r : R)
| ParseRaised (e : parse_exn)
| SearchRaised (e : exn)
| NoFuel.

Definition part1 (Q : PriorityQueue NodeAStar.t NodeAStar.lt) (fuel : nat) (input : str)
  : outcome Z :=
  match parse input with
  | inl e => ParseRaised _ e
  | inr (maze, reindeer) =>
      match find_astar Q fuel maze reindeer DIRECTION_START with
      | Returned r => Value _ r.1
      | Raised e => SearchRaised _ e
      | OutOfFuel => NoFuel _
      end
  end.

Definition part2 (Q : PriorityQueue NodeDjikstra.t NodeDjikstra.lt) (fuel : nat) (input : str)
  : outcome Z :=
  match parse input with
  | inl e => ParseRaised _ e
  | inr (maze, reindeer) =>
      match find_djikstra Q fuel maze reindeer DIRECTION_START with
      | Returned r => Value _ (Z.of_nat (size r.2))
      | Raised e => SearchRaised _ e
      | OutOfFuel => NoFuel _
      end
  end.
End parse.

Arguments Value {R} _.
Arguments ParseRaised {R} _.
Arguments SearchRaised {R} _.
Arguments NoFuel {R}.

(** ** [visualize] *)

Definition visualize_tile (maze : Maze.t) (point : Point.t) (trail : Trail) : str :=
  if decide (point = Maze.start maze)
  then green_open ++ [Symbol.value Symbol.Start] ++ green_close
  else if decide (point = Maze.end_ maze)
  then red_open ++ [Symbol.value Symbol.End] ++ red_close
  else if decide (is_Some (trail !! point))
  then yellow_open ++ [Symbol.value Symbol.Step] ++ yellow_close
  else
    match default Space (Maze.tiles maze !! point) with
    | Wall => blue_open ++ [Symbol.value Symbol.Wall] ++ blue_close
    | Space => white_open ++ [Symbol.value Symbol.Space] ++ white_close
    end.

(** [range(n)] *)
Definition range (n : Z) : list Z := seqZ 0 n.

Definition visualize (maze : Maze.t) (trail : Trail) : str :=
  join [newline]
    ((λ y, mjoin ((λ x, visualize_tile maze (Point.mk x y) trail)
                    <$> range (Maze.width maze)))
       <$> range (Maze.height maze)).

(** * Vocabulary of the specification *)

(** ** Rotations *)

(** The same rotation applied four times. *)
Definition rotate4 (d : Direction.t) (r : Rotation.t) : Direction.t :=
  Direction.mul (Direction.mul (Direction.mul (Direction.mul d r) r) r) r.

(** ** The graph the searches walk

    A search state is a (heading, cell) pair.  From a state whose cell is
    not a wall three moves leave: one cell forward, and the two rotations
    in place. *)

(** [closed.get(s, False)] is true. *)
Definition is_closed (closed : gmap State bool) (s : State) : Prop :=
  default false (closed !! s) = true.

#[global] Instance is_closed_decision closed s : Decision (is_closed closed s).
Proof. unfold is_closed. apply _. Defined.

Definition djikstra_node_state (n : NodeDjikstra.t) : State :=
  (NodeDjikstra.direction n, NodeDjikstra.point n).

Definition astar_node_state (n : NodeAStar.t) : State :=
  (NodeAStar.direction n, NodeAStar.point n).

(** The states one move away from [s]. *)
Definition moves (s : State) : list State :=
  [(s.1, Point.add s.2 s.1);
   (Direction.mul s.1 RotateLeft, s.2);
   (Direction.mul s.1 RotateRight, s.2)].

Section graph.
Context (maze : Maze.t).

Inductive edge : State → Z → State → Prop :=
| edge_forward d p :
    is_wall maze p = false → edge (d, p) COST_FORWARD (d, Point.add p d)
| edge_left d p :
    is_wall maze p = false → edge (d, p) COST_ROTATE (Direction.mul d RotateLeft, p)
| edge_right d p :
    is_wall maze p = false → edge (d, p) COST_ROTATE (Direction.mul d RotateRight, p).

Context (reindeer : Point.t) (direction_default : Direction.t).

(** [reach s c]: some walk from the start state to [s] costs [c]. *)
Inductive reach : State → Z → Prop :=
| reach_start : reach (direction_default, reindeer) 0
| reach_edge s c w t : reach s c → edge s w t → reach t (c + w).

(** [c] is the cost of a cheapest walk to [s]. *)
Definition least_cost (s : State) (c : Z) : Prop :=
  reach s c ∧ ∀ c', reach s c' → c ≤ c'.

(** [c] is the cost of a cheapest walk to the end cell, under any heading. *)
Definition best_cost (c : Z) : Prop :=
  (∃ d, reach (d, Maze.end_ maze) c)
  ∧ ∀ d c', reach (d, Maze.end_ maze) c' → c ≤ c'.

(** [trails] of [find_djikstra] is keyed by (cell, cost), without the
    heading.  The entry of a key gathers the cell itself and, for every
    state expanded at its least cost with a move that lands on the key,
    the whole entry of the state's own key. *)
Inductive merged_trail : Point.t * Z → Point.t → Prop :=
| merged_start : merged_trail (reindeer, 0) reindeer
| merged_here s c w t :
    least_cost s c → edge s w t → merged_trail (t.2, c + w) t.2
| merged_before s c w t cell :
    least_cost s c → edge s w t →
    merged_trail (s.2, c) cell → merged_trail (t.2, c + w) cell.
End graph.

(** [trails'] holds every entry of [trails], each with at least the
    cells it had. *)
Definition trails_grow (trails trails' : gmap (Point.t * Z) (gset Point.t)) : Prop :=
  ∀ key cells, trails !! key = Some cells →
    ∃ cells', trails' !! key = Some cells' ∧ cells ⊆ cells'.

(** ** Finite regions *)

(** How many states of [region] are not closed yet. *)
Definition unclosed (closed : gmap State bool) (region : list State) : nat :=
  length (filter (λ s, ¬ is_closed closed s) region).

(** The cells within [r] of [center] in each coordinate, and the states
    over them with a cardinal heading. *)
Definition box (center : Point.t) (r : Z) : list Point.t :=
  x ← seqZ (Point.x center - r) (2 * r + 1);
  y ← seqZ (Point.y center - r) (2 * r + 1);
  [Point.mk x y].

Definition states_within (center : Point.t) (r : Z) : list State :=
  d ← cardinals; p ← box center r; [(d, p)].

(** ** Loop invariants of [find_djikstra] *)

Section djikstra_invariants.
Context (Q : PriorityQueue NodeDjikstra.t NodeDjikstra.lt).
Context (maze : Maze.t) (reindeer : Point.t) (direction_default : Direction.t).

Local Abbreviation reach := (reach maze reindeer direction_default).
Local Abbreviation least_cost := (least_cost maze reindeer direction_default).
Local Abbreviation merged_trail := (merged_trail maze reindeer direction_default).
Local Abbreviation items st := (pq_items Q (djikstra_open Q st)).
Local Abbreviation closed st := (djikstra_closed Q st).
Local Abbreviation trails st := (djikstra_trails Q st).

(** What holds of [open] and [closed] before every pass of the loop. *)
Record djikstra_inv (st : djikstra_state Q) : Prop := {
  inv_open_reach : ∀ n, n ∈ items st →
    reach (djikstra_node_state n) (NodeDjikstra.cost n);
  inv_closed_end : ∀ s, is_closed (closed st) s → s.2 ≠ Maze.end_ maze;
  inv_closed_least : ∀ s, is_closed (closed st) s →
    ∃ c, least_cost s c ∧
      ∀ w t, edge maze s w t →
        is_closed (closed st) t
        ∨ ∃ n, n ∈ items st ∧ djikstra_node_state n = t ∧ NodeDjikstra.cost n ≤ c + w;
  inv_start :
    is_closed (closed st) (direction_default, reindeer)
    ∨ ∃ n, n ∈ items st ∧ djikstra_node_state n = (direction_default, reindeer)
           ∧ NodeDjikstra.cost n = 0
}.

(** What holds of [trails] before every pass of the loop: no lookup can
    raise [KeyError], and every entry has the start and its own cell. *)
Record trails_inv (st : djikstra_state Q) : Prop := {
  tinv_key : ∀ n, n ∈ items st →
    is_Some (trails st !! (NodeDjikstra.point n, NodeDjikstra.cost n));
  tinv_mem : ∀ key cells, trails st !! key = Some cells →
    reindeer ∈ cells ∧ key.1 ∈ cells
}.

(** How [trails] relates to the merged trails before every pass of the
    loop. *)
Record cells_inv (st : djikstra_state Q) : Prop := {
  cinv_start : ∃ cells, trails st !! (reindeer, 0) = Some cells ∧ reindeer ∈ cells;
  cinv_sound : ∀ key cells cell,
    trails st !! key = Some cells → cell ∈ cells → merged_trail key cell;
  cinv_closed : ∀ s c w t,
    is_closed (closed st) s → least_cost s c → edge maze s w t →
    ∃ cells, trails st !! (t.2, c + w) = Some cells
             ∧ t.2 ∈ cells
             ∧ ∀ cell, merged_trail (s.2, c) cell → cell ∈ cells
}.

Definition djikstra_invs (st : djikstra_state Q) : Prop :=
  djikstra_inv st ∧ trails_inv st.

Definition djikstra_all_inv (st : djikstra_state Q) : Prop :=
  djikstra_inv st ∧ trails_inv st ∧ cells_inv st.

(** [open] is empty after some passes of the loop, none of which
    returned. *)
Definition djikstra_exhausted : Prop :=
  ∃ k st,
    iterate (djikstra_step Q maze) k (djikstra_init Q reindeer direction_default) = Some st
    ∧ pq_get Q (djikstra_open Q st) = None.

(** What every pass of the loop lowers when the states popped stay in
    [region]. *)
Definition djikstra_measure (region : list State) (st : djikstra_state Q) : nat :=
  (3 * unclosed (closed st) region + length (items st))%nat.
End djikstra_invariants.

Arguments inv_open_reach {Q maze reindeer direction_default st} _.
Arguments inv_closed_end {Q maze reindeer direction_default st} _.
Arguments inv_closed_least {Q maze reindeer direction_default st} _.
Arguments inv_start {Q maze reindeer direction_default st} _.
Arguments tinv_key {Q reindeer st} _.
Arguments tinv_mem {Q reindeer st} _.
Arguments cinv_start {Q maze reindeer direction_default st} _.
Arguments cinv_sound {Q maze reindeer direction_default st} _.
Arguments cinv_closed {Q maze reindeer direction_default st} _.

(** ** Loop invariant of [find_astar] *)

Section astar_invariants.
Context (Q : PriorityQueue NodeAStar.t NodeAStar.lt).
Context (maze : Maze.t) (reindeer : Point.t) (direction_default : Direction.t).

Local Abbreviation reach := (reach maze reindeer direction_default).
Local Abbreviation least_cost := (least_cost maze reindeer direction_default).
Local Abbreviation items st := (pq_items Q (astar_open Q st)).
Local Abbreviation closed st := (astar_closed Q st).

(** What holds of [open] and [closed] before every pass of the loop. *)
Record astar_inv (st : astar_state Q) : Prop := {
  ainv_open_reach : ∀ n, n ∈ items st →
    reach (astar_node_state n) (NodeAStar.g n);
  ainv_open_h : ∀ n, n ∈ items st →
    NodeAStar.h n = distance_to_end maze (NodeAStar.point n);
  ainv_closed_end : ∀ s, is_closed (closed st) s → s.2 ≠ Maze.end_ maze;
  ainv_closed_least : ∀ s, is_closed (closed st) s →
    ∃ c, least_cost s c ∧
      ∀ w t, edge maze s w t →
        is_closed (closed st) t
        ∨ ∃ n, n ∈ items st ∧ astar_node_state n = t ∧ NodeAStar.g n ≤ c + w;
  ainv_start :
    is_closed (closed st) (direction_default, reindeer)
    ∨ ∃ n, n ∈ items st ∧ astar_node_state n = (direction_default, reindeer)
           ∧ NodeAStar.g n = 0
}.

(** [open] is empty after some passes of the loop, none of which
    returned. *)
Definition astar_exhausted : Prop :=
  ∃ k st,
    iterate (astar_step Q maze) k (astar_init Q maze reindeer direction_default) = Some st
    ∧ pq_get Q (astar_open Q st) = None.

Definition astar_measure (region : list State) (st : astar_state Q) : nat :=
  (3 * unclosed (closed st) region + length (items st))%nat.
End astar_invariants.

Arguments ainv_open_reach {Q maze reindeer direction_default st} _.
Arguments ainv_open_h {Q maze reindeer direction_default st} _.
Arguments ainv_closed_end {Q maze reindeer direction_default st} _.
Arguments ainv_closed_least {Q maze reindeer direction_default st} _.
Arguments ainv_start {Q maze reindeer direction_default st} _.

(** ** Straight corridors *)

(** The cell [k] steps from [p] along [d]. *)
Definition shift (p : Point.t) (d : Direction.t) (k : Z) : Point.t :=
  Point.mk (Point.x p + k * Direction.x d) (Point.y p + k * Direction.y d).

(** The cells from [start] to the cell [n] steps along [d], inclusive. *)
Definition corridor_cells (start : Point.t) (d : Direction.t) (n : Z) : gset Point.t :=
  list_to_set (shift start d <$> seqZ 0 (n + 1)).

(** The end lies [n] cells straight ahead of the start and no cell on the
    way is a wall. *)
Definition corridor (maze : Maze.t) (start : Point.t) (d : Direction.t) (n : Z) : Prop :=
  cardinal d ∧ 0 ≤ n
  ∧ Maze.end_ maze = shift start d n
  ∧ ∀ i, 0 ≤ i < n → is_wall maze (shift start d i) = false.

(** ** Concrete mazes *)

Definition walls (cells : list (Z * Z)) : gmap Point.t Tile :=
  list_to_map ((λ c, (Point.mk c.1 c.2, Wall)) <$> cells).

Definition cells_of (cells : list (Z * Z)) : gset Point.t :=
  list_to_set ((λ c, Point.mk c.1 c.2) <$> cells).

(** The 3x3 grid without walls, start on the middle row at the left, end
    at the right. *)
Definition corridor3 : Maze.t :=
  Maze.mk (Point.mk 0 1) (Point.mk 2 1) ∅ 3 3.

(** A wall straight ahead of the start: the reindeer stands on (0,0)
    facing east, (1,0) is a wall, the end is at (0,2). *)
Definition wall_ahead : Maze.t :=
  Maze.mk (Point.mk 0 0) (Point.mk 0 2) (walls [(1, 0)]) 3 3.

(** The end cell is itself a wall, next to the start. *)
Definition wall_end : Maze.t :=
  Maze.mk (Point.mk 0 0) (Point.mk 1 0) (walls [(1, 0)]) 2 1.

(** The start (1,1) is walled in; the end lies outside. *)
Definition walled_in : Maze.t :=
  Maze.mk (Point.mk 1 1) (Point.mk 3 1)
    (walls [(0, 0); (1, 0); (2, 0);
            (0, 1);         (2, 1);
            (0, 2); (1, 2); (2, 2)])
    4 3.

(** The start cell of [walled_in] and the four walls around it, under
    each heading. *)
Definition walled_in_region : list State :=
  d ← cardinals;
  p ← [Point.mk 1 1; Point.mk 1 0; Point.mk 0 1; Point.mk 2 1; Point.mk 1 2];
  [(d, p)].

(** Two routes of equal cost round a block:
<<
    #####
    #.E.#
    #.#.#
    #.S.#
    #####
>>
    the reindeer starts on S facing north. *)
Definition fork : Maze.t :=
  Maze.mk (Point.mk 2 3) (Point.mk 2 1)
    (walls [(0,0); (1,0); (2,0); (3,0); (4,0);
            (0,1); (4,1);
            (0,2); (2,2); (4,2);
            (0,3); (4,3);
            (0,4); (1,4); (2,4); (3,4); (4,4)])
    5 5.

(** The cells of the two routes. *)
Definition fork_cells : gset Point.t :=
  cells_of [(2,3); (1,3); (1,2); (1,1); (2,1); (3,3); (3,2); (3,1)].

(** ** The cells of a walk *)

Section walk.
Context (maze : Maze.t) (reindeer : Point.t) (direction_default : Direction.t).

(** [walk s c cells]: some walk from the start state to [s] costs [c]
    and passes over the cells [cells], both ends included. *)
Inductive walk : State → Z → gset Point.t → Prop :=
| walk_start : walk (direction_default, reindeer) 0 {[ reindeer ]}
| walk_edge s c cells w t :
    walk s c cells → edge maze s w t → walk t (c + w) ({[ t.2 ]} ∪ cells).

(** Every node on [open] carries the cells of a walk to its state, of
    the node's cost [g], each marked 1. *)
Definition astar_trail_inv (Q : PriorityQueue NodeAStar.t NodeAStar.lt)
    (st : astar_state Q) : Prop :=
  ∀ n, n ∈ pq_items Q (astar_open Q st) →
    walk (astar_node_state n) (NodeAStar.g n) (dom (NodeAStar.trail n))
    ∧ ∀ p v, NodeAStar.trail n !! p = Some v → v = 1.
End walk.

(** The end cell is shut in by four walls while the start has the open
    plane around it: rows [S..], [.#.], [#E#], [.#.]. *)
Definition end_enclosed : Maze.t :=
  Maze.mk (Point.mk 0 0) (Point.mk 1 2) (walls [(1, 1); (0, 2); (2, 2); (1, 3)]) 3 4.

(** ** The text of a maze *)

(** The character in column [x] of row [y]. *)
Definition char_at (input : list str) (p : Point.t) : option N :=
  if decide (0 ≤ Point.x p ∧ 0 ≤ Point.y p)
  then row ← input !! Z.to_nat (Point.y p); row !! Z.to_nat (Point.x p)
  else None.

(** Reading order: row after row, each row from the left. *)
Definition before (p q : Point.t) : Prop :=
  Point.y p < Point.y q ∨ (Point.y p = Point.y q ∧ Point.x p < Point.x q).

(** [p] is where the character [c] comes first in reading order. *)
Definition first_at (input : list str) (c : N) (p : Point.t) : Prop :=
  char_at input p = Some c
  ∧ ∀ q, char_at input q = Some c → q = p ∨ before p q.

(** ** Concrete texts

    [lines] is a function to run [parse] with: it drops the spaces and
    line feeds at both ends of the text and cuts the rest at its line
    feeds.  The library's [strip] and [splitlines] know more white space
    and more line boundaries; no theorem depends on the function that
    is passed to [parse]. *)

Definition blank (c : N) : bool := (c =? 32)%N || (c =? newline)%N.

Fixpoint trim_left (s : str) : str :=
  match s with
  | [] => []
  | c :: s' => if blank c then trim_left s' else s
  end.

Definition trim (s : str) : str := reverse (trim_left (reverse (trim_left s))).

Fixpoint cut (line s : str) : list str :=
  match s with
  | [] => match line with [] => [] | _ => [line] end
  | c :: s' => if (c =? newline)%N then line :: cut [] s' else cut (line ++ [c]) s'
  end.

Definition lines (input : str) : list str := cut [] (trim input).

Section texts.
Import Stdlib.Strings.String.

(** The maze [fork] as a text, each row ended by a line feed. *)
Definition fork_text : str :=
  codes "#####" ++ [newline] ++
  codes "#.E.#" ++ [newline] ++
  codes "#.#.#" ++ [newline] ++
  codes "#.S.#" ++ [newline] ++
  codes "#####" ++ [newline].

(** A text without an end. *)
Definition no_end_text : str :=
  codes "###" ++ [newline] ++
  codes "#S#" ++ [newline] ++
  codes "###" ++ [newline].
End texts.

(** ** What a rendering shows *)

(** The text left when the tags, from a [[] to the next []], are taken
    out. *)
Fixpoint untag (inside : bool) (s : str) : str :=
  match s with
  | [] => []
  | c :: s' =>
      if inside then untag (negb (c =? 93)%N) s'
      else if (c =? 91)%N then untag true s'
      else c :: untag false s'
  end.

Definition plain (s : str) : str := untag false s.

(** The character a cell is to show: the start, the end, a step of the
    trail, a wall or open space, the earlier taking precedence. *)
Definition shown (maze : Maze.t) (trail : Trail) (p : Point.t) : N :=
  if decide (p = Maze.start maze) then Symbol.value Symbol.Start
  else if decide (p = Maze.end_ maze) then Symbol.value Symbol.End
  else if decide (p ∈ dom trail) then Symbol.value Symbol.Step
  else if is_wall maze p then Symbol.value Symbol.Wall
  else Symbol.value Symbol.Space.

(** Rows of one length, made of [S], [E], [#] and [.], with one [S] and
    one [E]. *)
Definition well_formed (input : list str) : Prop :=
  Forall (λ row, length row = length (default [] (head input))) input
  ∧ Forall (Forall (λ c, c ∈ [Symbol.value Symbol.Start; Symbol.value Symbol.End;
                              Symbol.value Symbol.Wall; Symbol.value Symbol.Space])) input
  ∧ length (search input Symbol.Start) = 1%nat
  ∧ length (search input Symbol.End) = 1%nat.

(** The rows of characters a rendering is to show. *)
Definition shown_rows (maze : Maze.t) (trail : Trail) : list str :=
  (λ y, (λ x, shown maze trail (Point.mk x y)) <$> range (Maze.width maze))
    <$> range (Maze.height maze).

(** ** The grid *)

(** The cell lies within the [width] columns and the [height] rows. *)
Definition in_grid (maze : Maze.t) (p : Point.t) : Prop :=
  0 ≤ Point.x p < Maze.width maze ∧ 0 ≤ Point.y p < Maze.height maze.

(** Every cell on the rim of the grid is a wall. *)
Definition walled_around (maze : Maze.t) : Prop :=
  ∀ p, in_grid maze p →
    Point.x p = 0 ∨ Point.x p = Maze.width maze - 1
    ∨ Point.y p = 0 ∨ Point.y p = Maze.height maze - 1 →
    is_wall maze p = true.

(** * Theorems *)

(** ** Headings *)

Lemma cardinal_cases d :
  cardinal d → d = East ∨ d = South ∨ d = West ∨ d = North.
Proof.
  unfold cardinal, cardinals. rewrite !elem_of_cons, elem_of_nil. tauto.
Qed.

Lemma cardinal_East : cardinal East.
Proof. unfold cardinal, cardinals. set_solver. Qed.

(** ** Rotations *)

(** What [Direction.mul] computes on any vector. *)
Lemma mul_RotateLeft d :
  Direction.mul d RotateLeft = Direction.mk (- Direction.y d) (- Direction.x d).
Proof. destruct d as [a b]. unfold Direction.mul; simpl. f_equal; lia. Qed.

Lemma mul_RotateRight d :
  Direction.mul d RotateRight = Direction.mk (Direction.y d) (Direction.x d).
Proof. destruct d as [a b]. unfold Direction.mul; simpl. f_equal; lia. Qed.

(** Each operator undoes itself: it is a reflection, not a quarter turn. *)
Lemma mul_involutive d r :
  r = RotateLeft ∨ r = RotateRight → Direction.mul (Direction.mul d r) r = d.
Proof.
  intros [-> | ->]; destruct d as [a b]; unfold Direction.mul; simpl; f_equal; lia.
Qed.

Lemma mul_cardinal d r :
  r = RotateLeft ∨ r = RotateRight → cardinal d → cardinal (Direction.mul d r).
Proof.
  intros Hr Hd. apply cardinal_cases in Hd.
  unfold cardinal, cardinals.
  destruct Hr as [-> | ->]; destruct Hd as [-> | [-> | [-> | ->]]];
    vm_compute Direction.mul; set_solver.
Qed.

(** With the matrix read row by row the round trip would hold. *)
Lemma quarter_turn_round_trip d :
  quarter_turn (quarter_turn d RotateLeft) RotateRight = d
  ∧ quarter_turn (quarter_turn d RotateRight) RotateLeft = d.
Proof. destruct d as [a b]. unfold quarter_turn; simpl. split; f_equal; lia. Qed.

(** C1 (fails on the code): on each of the four cardinal headings, left
    then right, and right then left, give the opposite heading, which is
    never the heading started from. *)
Theorem rotate_left_right_is_opposite :
  Forall (λ d,
    Direction.mul (Direction.mul d RotateLeft) RotateRight = opposite d
    ∧ Direction.mul (Direction.mul d RotateRight) RotateLeft = opposite d
    ∧ opposite d ≠ d) cardinals.
Proof. repeat constructor; by vm_compute. Qed.

(** C1, the failing input: facing east, left then right faces west. *)
Example rotate_left_right_East :
  Direction.mul (Direction.mul East RotateLeft) RotateRight = West
  ∧ Direction.mul (Direction.mul East RotateLeft) RotateRight ≠ East.
Proof. split; by vm_compute. Qed.

(** C8: each rotation operator maps the four cardinal headings to
    cardinal headings, one-to-one and onto, and applied four times in a
    row it gives back the heading it started from. *)
Theorem rotation_bijection_order4 (r : Rotation.t) :
  r = RotateLeft ∨ r = RotateRight →
  (∀ d, cardinal d → cardinal (Direction.mul d r))
  ∧ (∀ d1 d2, cardinal d1 → cardinal d2 →
       Direction.mul d1 r = Direction.mul d2 r → d1 = d2)
  ∧ (∀ d, cardinal d → ∃ d', cardinal d' ∧ Direction.mul d' r = d)
  ∧ (∀ d, cardinal d → rotate4 d r = d).
Proof.
  intros Hr. repeat split.
  - intros d. by apply mul_cardinal.
  - intros d1 d2 _ _ Heq.
    rewrite <- (mul_involutive d1 r Hr), <- (mul_involutive d2 r Hr). by rewrite Heq.
  - intros d Hd. exists (Direction.mul d r). split.
    + by apply mul_cardinal.
    + by apply mul_involutive.
  - intros d _. unfold rotate4. by rewrite !mul_involutive.
Qed.

Lemma rotation_bijection_order4_witness :
  (RotateLeft = RotateLeft ∨ RotateLeft = RotateRight)
  ∧ (∀ d, cardinal d → cardinal (Direction.mul d RotateLeft))
  ∧ (∀ d1 d2, cardinal d1 → cardinal d2 →
       Direction.mul d1 RotateLeft = Direction.mul d2 RotateLeft → d1 = d2)
  ∧ (∀ d, cardinal d → ∃ d', cardinal d' ∧ Direction.mul d' RotateLeft = d)
  ∧ (∀ d, cardinal d → rotate4 d RotateLeft = d).
Proof.
  split; [by left|]. apply (rotation_bijection_order4 RotateLeft). by left.
Defined.

(** ** Loops *)

Section loops.
Context {S R : Type} (step : S → step_result S R).

Lemma iterate_split j k s s'' :
  iterate step (j + k) s = Some s'' →
  ∃ s', iterate step j s = Some s' ∧ iterate step k s' = Some s''.
Proof.
  revert s. induction j as [|j IH]; intros s; simpl.
  - eauto.
  - destruct (step s); [|done..]. apply IH.
Qed.

(** A property kept by every pass holds after any number of passes. *)
Lemma iterate_invariant (I : S → Prop) :
  (∀ s s', I s → step s = Next s' → I s') →
  ∀ k s s', I s → iterate step k s = Some s' → I s'.
Proof.
  intros Hstep. induction k as [|k IH]; intros s s' Hs; simpl.
  - by intros [= <-].
  - destruct (step s) as [s1| |] eqn:E; [|done..]. eauto.
Qed.

(** The loop returns [r] exactly when some pass executes [return r]. *)
Lemma run_Returned fuel s r :
  run step fuel s = Returned r ↔
  ∃ k s', (k < fuel)%nat ∧ iterate step k s = Some s' ∧ step s' = Return r.
Proof.
  revert s. induction fuel as [|fuel IH]; intros s; simpl.
  - split; [done|]. intros (k & ? & ? & _); lia.
  - destruct (step s) as [s1|r1|e1] eqn:E.
    + rewrite IH. split.
      * intros (k & s' & Hk & Hit & Hs'). exists (Datatypes.S k), s'.
        split; [lia|]. simpl. by rewrite E.
      * intros ([|k] & s' & Hk & Hit & Hs'); simpl in Hit.
        -- injection Hit as <-. congruence.
        -- rewrite E in Hit. exists k, s'. split; [lia|done].
    + split.
      * intros [= ->]. exists O, s. split; [lia|done].
      * intros ([|k] & s' & Hk & Hit & Hs'); simpl in Hit.
        -- injection Hit as <-. congruence.
        -- by rewrite E in Hit.
    + split; [done|].
      intros ([|k] & s' & Hk & Hit & Hs'); simpl in Hit.
      * injection Hit as <-. congruence.
      * by rewrite E in Hit.
Qed.

Lemma run_Raised fuel s e :
  run step fuel s = Raised e ↔
  ∃ k s', (k < fuel)%nat ∧ iterate step k s = Some s' ∧ step s' = Raise e.
Proof.
  revert s. induction fuel as [|fuel IH]; intros s; simpl.
  - split; [done|]. intros (k & ? & ? & _); lia.
  - destruct (step s) as [s1|r1|e1] eqn:E.
    + rewrite IH. split.
      * intros (k & s' & Hk & Hit & Hs'). exists (Datatypes.S k), s'.
        split; [lia|]. simpl. by rewrite E.
      * intros ([|k] & s' & Hk & Hit & Hs'); simpl in Hit.
        -- injection Hit as <-. congruence.
        -- rewrite E in Hit. exists k, s'. split; [lia|done].
    + split; [done|].
      intros ([|k] & s' & Hk & Hit & Hs'); simpl in Hit.
      * injection Hit as <-. congruence.
      * by rewrite E in Hit.
    + split.
      * intros [= ->]. exists O, s. split; [lia|done].
      * intros ([|k] & s' & Hk & Hit & Hs'); simpl in Hit.
        -- injection Hit as <-. congruence.
        -- by rewrite E in Hit.
Qed.

(** More fuel does not change an outcome already reached. *)
Lemma run_more_fuel fuel fuel' s :
  (fuel ≤ fuel')%nat → run step fuel s ≠ OutOfFuel →
  run step fuel' s = run step fuel s.
Proof.
  revert fuel' s. induction fuel as [|fuel IH]; intros fuel' s Hle; simpl; [done|].
  destruct fuel' as [|fuel']; [lia|]. simpl.
  destruct (step s); [|done..]. apply IH. lia.
Qed.

(** Two runs that both finish agree, whatever their fuel. *)
Lemma run_agree fuel1 fuel2 s :
  run step fuel1 s ≠ OutOfFuel → run step fuel2 s ≠ OutOfFuel →
  run step fuel1 s = run step fuel2 s.
Proof.
  intros H1 H2. destruct (decide (fuel1 ≤ fuel2)%nat).
  - symmetry. by apply run_more_fuel.
  - apply run_more_fuel; [lia|done].
Qed.
End loops.

(** ** Walks *)

Section walks.
Context (maze : Maze.t) (reindeer : Point.t) (direction_default : Direction.t).

Local Abbreviation edge := (edge maze).
Local Abbreviation reach := (reach maze reindeer direction_default).
Local Abbreviation least_cost := (least_cost maze reindeer direction_default).
Local Abbreviation best_cost := (best_cost maze reindeer direction_default).

Lemma edge_cost_pos s w t : edge s w t → 0 < w.
Proof. by intros []. Qed.

Lemma edge_not_wall s w t : edge s w t → is_wall maze s.2 = false.
Proof. by intros []. Qed.

Lemma reach_nonneg s c : reach s c → 0 ≤ c.
Proof.
  induction 1 as [|s c w t _ IH He]; [done|].
  apply edge_cost_pos in He. lia.
Qed.

Lemma reach_cardinal s c :
  cardinal direction_default → reach s c → cardinal s.1.
Proof.
  intros Hd. induction 1 as [|s c w t _ IH He]; [done|].
  destruct He; simpl in *; [done|apply mul_cardinal; auto..].
Qed.

Lemma least_cost_unique s c1 c2 : least_cost s c1 → least_cost s c2 → c1 = c2.
Proof. intros [H1 L1] [H2 L2]. specialize (L1 _ H2). specialize (L2 _ H1). lia. Qed.

Lemma best_cost_unique c1 c2 : best_cost c1 → best_cost c2 → c1 = c2.
Proof.
  intros [[d1 H1] L1] [[d2 H2] L2].
  specialize (L1 _ _ H2). specialize (L2 _ _ H1). lia.
Qed.
End walks.

Lemma is_closed_insert closed s s' :
  is_closed (<[s := true]> closed) s' ↔ s = s' ∨ is_closed closed s'.
Proof.
  unfold is_closed. destruct (decide (s = s')) as [->|Hne].
  - rewrite lookup_insert_eq. simpl. split; [by left|done].
  - rewrite lookup_insert_ne by done. split; [by right|by intros [?|?]].
Qed.

Lemma is_closed_empty s : ¬ is_closed ∅ s.
Proof. unfold is_closed. by rewrite lookup_empty. Qed.

Lemma is_closed_dec closed s :
  (default false (closed !! s) = true ∧ is_closed closed s)
  ∨ (default false (closed !! s) = false ∧ ¬ is_closed closed s).
Proof. unfold is_closed. destruct (default false (closed !! s)); naive_solver. Qed.

(** Manhattan distance changes by at most one per forward move. *)
Lemma distance_to_end_forward maze p d :
  cardinal d →
  distance_to_end maze p ≤ 1 + distance_to_end maze (Point.add p d).
Proof.
  intros Hd. apply cardinal_cases in Hd. unfold distance_to_end.
  destruct p as [a b].
  destruct Hd as [-> | [-> | [-> | ->]]]; simpl; lia.
Qed.

Lemma distance_to_end_nonneg maze p : 0 ≤ distance_to_end maze p.
Proof. unfold distance_to_end. lia. Qed.

Lemma distance_to_end_0 maze p : distance_to_end maze p = 0 ↔ p = Maze.end_ maze.
Proof.
  unfold distance_to_end. destruct p as [a b], (Maze.end_ maze) as [c d]; simpl.
  split; [intros H; f_equal; lia|intros [= -> ->]; lia].
Qed.

(** ** [find_djikstra] returns the least cost *)

Section djikstra_correct.
Context (Q : PriorityQueue NodeDjikstra.t NodeDjikstra.lt).
Context (maze : Maze.t) (reindeer : Point.t) (direction_default : Direction.t).

Local Abbreviation djikstra_inv := (djikstra_inv Q maze reindeer direction_default).
Local Abbreviation reach := (reach maze reindeer direction_default).
Local Abbreviation least_cost := (least_cost maze reindeer direction_default).
Local Abbreviation items st := (pq_items Q (djikstra_open Q st)).
Local Abbreviation closed st := (djikstra_closed Q st).

(** Every walk from the start either ends in a closed state or is at
    least as long as some entry of [open]. *)
Lemma djikstra_frontier st t c :
  djikstra_inv st → reach t c →
  is_closed (closed st) t ∨ ∃ n, n ∈ items st ∧ NodeDjikstra.cost n ≤ c.
Proof.
  intros Hinv. induction 1 as [|s c w t Hs IH He].
  - destruct (inv_start Hinv) as [?|(n & Hn & _ & Hc)]; [by left|].
    right. exists n. split; [done|lia].
  - pose proof (edge_cost_pos _ _ _ _ He) as Hw.
    destruct IH as [Hcl|(n & Hn & Hc)].
    + destruct (inv_closed_least Hinv _ Hcl) as (c0 & [_ Hleast] & Hcov).
      specialize (Hleast _ Hs).
      destruct (Hcov _ _ He) as [?|(n & Hn & _ & Hc)]; [by left|].
      right. exists n. split; [done|lia].
    + right. exists n. split; [done|lia].
Qed.

Lemma djikstra_successors_edge current n :
  n ∈ djikstra_successors maze current →
  ∃ w, edge maze (djikstra_node_state current) w (djikstra_node_state n)
       ∧ NodeDjikstra.cost n = NodeDjikstra.cost current + w.
Proof.
  unfold djikstra_successors. destruct (is_wall maze _) eqn:Hw; simpl.
  - by intros ?%elem_of_nil.
  - rewrite !elem_of_cons, elem_of_nil.
    intros [-> | [-> | [-> | []]]]; eexists; (split; [|reflexivity]);
      unfold djikstra_node_state; simpl; by constructor.
Qed.

Lemma edge_djikstra_successors current w t :
  edge maze (djikstra_node_state current) w t →
  ∃ n, n ∈ djikstra_successors maze current ∧ djikstra_node_state n = t
       ∧ NodeDjikstra.cost n = NodeDjikstra.cost current + w.
Proof.
  unfold djikstra_successors, djikstra_node_state.
  inversion 1 as [d p Hw|d p Hw|d p Hw]; subst; rewrite Hw; simpl.
  - eexists (NodeDjikstra.mk _ _ _). split; [|split; reflexivity]. set_solver.
  - eexists (NodeDjikstra.mk _ _ _). split; [|split; reflexivity]. set_solver.
  - eexists (NodeDjikstra.mk _ _ _). split; [|split; reflexivity]. set_solver.
Qed.

(** The [for] loop puts every node on [open]. *)
Lemma djikstra_visit_items current nodes trails open trails' open' :
  foldl (djikstra_visit Q current) (Some (trails, open)) nodes = Some (trails', open') →
  pq_items Q open' ≡ₚ nodes ++ pq_items Q open.
Proof.
  revert trails open. induction nodes as [|n nodes IH]; intros trails open; simpl.
  - by intros [= <- <-].
  - destruct (trails !! _) as [here|].
    + intros H. rewrite (IH _ _ H), pq_items_put.
      by rewrite Permutation_middle.
    + assert (Hn : ∀ l, foldl (djikstra_visit Q current) None l = None)
        by (induction l; simpl; auto).
      by rewrite Hn.
Qed.

Lemma djikstra_init_inv : djikstra_inv (djikstra_init Q reindeer direction_default).
Proof.
  assert (Hi : pq_items Q (djikstra_open Q (djikstra_init Q reindeer direction_default))
               ≡ₚ [NodeDjikstra.mk 0 direction_default reindeer]).
  { simpl. by rewrite pq_items_put, pq_items_new. }
  split.
  - intros n. rewrite Hi, list_elem_of_singleton. intros ->. constructor.
  - intros s Hs. by apply is_closed_empty in Hs.
  - intros s Hs. by apply is_closed_empty in Hs.
  - right. eexists. rewrite Hi, list_elem_of_singleton. done.
Qed.

(** The node just taken from [open], when its state is not closed, has
    the least cost of its state. *)
Lemma djikstra_pop_least st current open :
  djikstra_inv st →
  pq_get Q (djikstra_open Q st) = Some (current, open) →
  ¬ is_closed (closed st) (djikstra_node_state current) →
  least_cost (djikstra_node_state current) (NodeDjikstra.cost current).
Proof.
  intros Hinv Hget Hncl.
  destruct (pq_get_Some Q _ _ _ Hget) as [Hperm Hmin].
  split.
  - apply (inv_open_reach Hinv). rewrite Hperm. by left.
  - intros c' Hc'.
    destruct (djikstra_frontier _ _ _ Hinv Hc') as [?|(n & Hn & Hc)]; [done|].
    rewrite Hperm, elem_of_cons in Hn. destruct Hn as [->|Hn]; [done|].
    rewrite Forall_forall in Hmin. specialize (Hmin _ Hn).
    unfold NodeDjikstra.lt in Hmin. lia.
Qed.

Lemma djikstra_step_inv st st' :
  djikstra_inv st → djikstra_step Q maze st = Next st' → djikstra_inv st'.
Proof.
  intros Hinv. unfold djikstra_step.
  destruct (pq_get Q (djikstra_open Q st)) as [[current open]|] eqn:Hget; [|done].
  destruct (pq_get_Some Q _ _ _ Hget) as [Hperm Hmin].
  destruct (decide (NodeDjikstra.point current = Maze.end_ maze)) as [Hend|Hend].
  { by destruct (djikstra_trails Q st !! _). }
  destruct (is_closed_dec (closed st) (djikstra_node_state current))
    as [[Hb Hcl]|[Hb Hncl]]; unfold djikstra_node_state in Hb; rewrite Hb.
  - (* already closed: the node is dropped *)
    intros [= <-]. split; simpl.
    + intros n Hn. apply (inv_open_reach Hinv). rewrite Hperm. by right.
    + apply (inv_closed_end Hinv).
    + intros s Hs. destruct (inv_closed_least Hinv _ Hs) as (c & Hc & Hcov).
      exists c. split; [done|]. intros w t He.
      destruct (Hcov _ _ He) as [?|(n & Hn & Hst & Hle)]; [by left|].
      rewrite Hperm, elem_of_cons in Hn. destruct Hn as [->|Hn].
      * left. by rewrite <- Hst.
      * right. eauto.
    + destruct (inv_start Hinv) as [?|(n & Hn & Hst & Hc)]; [by left|].
      rewrite Hperm, elem_of_cons in Hn. destruct Hn as [->|Hn].
      * left. by rewrite <- Hst.
      * right. eauto.
  - (* expanded *)
    pose proof (djikstra_pop_least _ _ _ Hinv Hget Hncl) as Hleast.
    destruct (foldl _ _ _) as [[trails open']|] eqn:Hfold; [|done].
    apply djikstra_visit_items in Hfold.
    intros [= <-]. split; simpl.
    + intros n. rewrite Hfold, elem_of_app. intros [Hn|Hn].
      * destruct (djikstra_successors_edge _ _ Hn) as (w & He & ->).
        eapply reach_edge; [|done]. apply Hleast.
      * apply (inv_open_reach Hinv). rewrite Hperm. by right.
    + intros s [<-|Hs]%is_closed_insert; [done|].
      by apply (inv_closed_end Hinv).
    + intros s [<-|Hs]%is_closed_insert.
      * exists (NodeDjikstra.cost current). split; [done|].
        intros w t He. right.
        destruct (edge_djikstra_successors _ _ _ He) as (n & Hn & Hst & Hc).
        exists n. rewrite Hfold, elem_of_app. split; [by left|]. split; [done|lia].
      * destruct (inv_closed_least Hinv _ Hs) as (c & Hc & Hcov).
        exists c. split; [done|]. intros w t He.
        destruct (Hcov _ _ He) as [?|(n & Hn & Hst & Hle)].
        { left. apply is_closed_insert. by right. }
        rewrite Hperm, elem_of_cons in Hn. destruct Hn as [->|Hn].
        -- left. apply is_closed_insert. by left.
        -- right. exists n. rewrite Hfold, elem_of_app. eauto.
    + destruct (inv_start Hinv) as [?|(n & Hn & Hst & Hc)].
      { left. apply is_closed_insert. by right. }
      rewrite Hperm, elem_of_cons in Hn. destruct Hn as [->|Hn].
      * left. apply is_closed_insert. by left.
      * right. exists n. rewrite Hfold, elem_of_app. eauto.
Qed.

Lemma djikstra_iterate_inv k st :
  iterate (djikstra_step Q maze) k (djikstra_init Q reindeer direction_default) = Some st →
  djikstra_inv st.
Proof.
  apply (iterate_invariant _ djikstra_inv); [|apply djikstra_init_inv].
  intros s s'. apply djikstra_step_inv.
Qed.

(** The cost [find_djikstra] returns is the least cost of a walk from
    the start state to the end cell. *)
Theorem find_djikstra_best_cost fuel cost cells :
  find_djikstra Q fuel maze reindeer direction_default = Returned (cost, cells) →
  best_cost maze reindeer direction_default cost.
Proof.
  unfold find_djikstra. rewrite run_Returned.
  intros (k & st & _ & Hit & Hstep).
  pose proof (djikstra_iterate_inv _ _ Hit) as Hinv.
  unfold djikstra_step in Hstep.
  destruct (pq_get Q (djikstra_open Q st)) as [[current open]|] eqn:Hget; [|done].
  destruct (pq_get_Some Q _ _ _ Hget) as [Hperm Hmin].
  destruct (decide (NodeDjikstra.point current = Maze.end_ maze)) as [Hend|Hend].
  - destruct (djikstra_trails Q st !! _); [|done].
    injection Hstep as <- <-. split.
    + exists (NodeDjikstra.direction current). rewrite <- Hend.
      apply (inv_open_reach Hinv). rewrite Hperm. by left.
    + intros d c' Hc'.
      destruct (djikstra_frontier _ _ _ Hinv Hc') as [Hcl|(n & Hn & Hc)].
      { by apply (inv_closed_end Hinv) in Hcl. }
      rewrite Hperm, elem_of_cons in Hn. destruct Hn as [->|Hn]; [done|].
      rewrite Forall_forall in Hmin. specialize (Hmin _ Hn).
      unfold NodeDjikstra.lt in Hmin. lia.
  - destruct (default false _); [done|].
    by destruct (foldl _ _ _) as [[? ?]|].
Qed.
End djikstra_correct.

(** ** [find_astar] returns the least cost *)

Section astar_correct.
Context (Q : PriorityQueue NodeAStar.t NodeAStar.lt).
Context (maze : Maze.t) (reindeer : Point.t) (direction_default : Direction.t).
Context (Hcardinal : cardinal direction_default).

Local Abbreviation astar_inv := (astar_inv Q maze reindeer direction_default).
Local Abbreviation reach := (reach maze reindeer direction_default).
Local Abbreviation least_cost := (least_cost maze reindeer direction_default).
Local Abbreviation items st := (pq_items Q (astar_open Q st)).
Local Abbreviation closed st := (astar_closed Q st).

(** The heuristic is consistent along every move. *)
Lemma distance_to_end_edge s w t :
  cardinal s.1 → edge maze s w t →
  distance_to_end maze s.2 ≤ w + distance_to_end maze t.2.
Proof.
  intros Hs. destruct 1; simpl in *.
  - by apply distance_to_end_forward.
  - unfold COST_ROTATE. lia.
  - unfold COST_ROTATE. lia.
Qed.

(** Every walk from the start either ends in a closed state or some
    entry of [open] has an [f] no larger than the walk's cost plus the
    heuristic at its last cell. *)
Lemma astar_frontier st t c :
  astar_inv st → reach t c →
  is_closed (closed st) t
  ∨ ∃ n, n ∈ items st ∧ NodeAStar.f n ≤ c + distance_to_end maze t.2.
Proof.
  intros Hinv. induction 1 as [|s c w t Hs IH He].
  - destruct (ainv_start Hinv) as [?|(n & Hn & Hst & Hc)]; [by left|].
    right. exists n. split; [done|]. unfold NodeAStar.f.
    rewrite (ainv_open_h Hinv _ Hn), Hc.
    unfold astar_node_state in Hst. injection Hst as _ ->. simpl. lia.
  - pose proof (reach_cardinal _ _ _ _ _ Hcardinal Hs) as Hcard.
    pose proof (distance_to_end_edge _ _ _ Hcard He) as Hcons.
    destruct IH as [Hcl|(n & Hn & Hc)].
    + destruct (ainv_closed_least Hinv _ Hcl) as (c0 & [_ Hleast] & Hcov).
      specialize (Hleast _ Hs).
      destruct (Hcov _ _ He) as [?|(n & Hn & Hst & Hc)]; [by left|].
      right. exists n. split; [done|]. unfold NodeAStar.f.
      rewrite (ainv_open_h Hinv _ Hn). subst t. simpl. lia.
    + right. exists n. split; [done|lia].
Qed.

Lemma astar_successors_edge current n :
  n ∈ astar_successors maze current →
  ∃ w, edge maze (astar_node_state current) w (astar_node_state n)
       ∧ NodeAStar.g n = NodeAStar.g current + w.
Proof.
  unfold astar_successors. destruct (is_wall maze _) eqn:Hw; simpl.
  - by intros ?%elem_of_nil.
  - rewrite !elem_of_cons, elem_of_nil.
    intros [-> | [-> | [-> | []]]]; eexists; (split; [|reflexivity]);
      unfold astar_node_state; simpl; by constructor.
Qed.

Lemma astar_successors_h current n :
  NodeAStar.h current = distance_to_end maze (NodeAStar.point current) →
  n ∈ astar_successors maze current →
  NodeAStar.h n = distance_to_end maze (NodeAStar.point n).
Proof.
  intros Hh. unfold astar_successors. destruct (is_wall maze _); simpl.
  - by intros ?%elem_of_nil.
  - rewrite !elem_of_cons, elem_of_nil. by intros [-> | [-> | [-> | []]]].
Qed.

Lemma edge_astar_successors current w t :
  edge maze (astar_node_state current) w t →
  ∃ n, n ∈ astar_successors maze current ∧ astar_node_state n = t
       ∧ NodeAStar.g n = NodeAStar.g current + w.
Proof.
  unfold astar_successors, astar_node_state.
  inversion 1 as [d p Hw|d p Hw|d p Hw]; subst; rewrite Hw; simpl.
  - exists (astar_forward maze current). split; [|done]. repeat constructor.
  - exists (astar_rotate current RotateLeft). split; [|done]. repeat constructor.
  - exists (astar_rotate current RotateRight). split; [|done]. repeat constructor.
Qed.

Lemma foldl_pq_put_items open nodes :
  pq_items Q (foldl (pq_put Q) open nodes) ≡ₚ nodes ++ pq_items Q open.
Proof.
  revert open. induction nodes as [|n nodes IH]; intros open; simpl; [done|].
  by rewrite IH, pq_items_put, Permutation_middle.
Qed.

Lemma astar_init_inv : astar_inv (astar_init Q maze reindeer direction_default).
Proof.
  assert (Hi : pq_items Q (astar_open Q (astar_init Q maze reindeer direction_default))
               ≡ₚ [NodeAStar.mk direction_default reindeer 0
                     (distance_to_end maze reindeer) {[ reindeer := 1 ]}]).
  { simpl. by rewrite pq_items_put, pq_items_new. }
  split.
  - intros n. rewrite Hi, list_elem_of_singleton. intros ->. constructor.
  - intros n. rewrite Hi, list_elem_of_singleton. by intros ->.
  - intros s Hs. by apply is_closed_empty in Hs.
  - intros s Hs. by apply is_closed_empty in Hs.
  - right. eexists. rewrite Hi, list_elem_of_singleton. done.
Qed.

Lemma astar_pop_least st current open :
  astar_inv st →
  pq_get Q (astar_open Q st) = Some (current, open) →
  ¬ is_closed (closed st) (astar_node_state current) →
  least_cost (astar_node_state current) (NodeAStar.g current).
Proof.
  intros Hinv Hget Hncl.
  destruct (pq_get_Some Q _ _ _ Hget) as [Hperm Hmin].
  assert (Hcur : current ∈ items st) by (rewrite Hperm; by left).
  split.
  - by apply (ainv_open_reach Hinv).
  - intros c' Hc'.
    destruct (astar_frontier _ _ _ Hinv Hc') as [?|(n & Hn & Hc)]; [done|].
    simpl in Hc. rewrite <- (ainv_open_h Hinv _ Hcur) in Hc.
    rewrite Hperm, elem_of_cons in Hn. destruct Hn as [->|Hn].
    + unfold NodeAStar.f in Hc. lia.
    + rewrite Forall_forall in Hmin. specialize (Hmin _ Hn).
      unfold NodeAStar.lt, NodeAStar.f in *. lia.
Qed.

Lemma astar_step_inv st st' :
  astar_inv st → astar_step Q maze st = Next st' → astar_inv st'.
Proof.
  intros Hinv. unfold astar_step.
  destruct (pq_get Q (astar_open Q st)) as [[current open]|] eqn:Hget; [|done].
  destruct (pq_get_Some Q _ _ _ Hget) as [Hperm Hmin].
  assert (Hcur : current ∈ items st) by (rewrite Hperm; by left).
  destruct (decide (NodeAStar.point current = Maze.end_ maze)) as [Hend|Hend]; [done|].
  destruct (is_closed_dec (closed st) (astar_node_state current))
    as [[Hb Hcl]|[Hb Hncl]]; unfold astar_node_state in Hb; rewrite Hb.
  - intros [= <-]. split; simpl.
    + intros n Hn. apply (ainv_open_reach Hinv). rewrite Hperm. by right.
    + intros n Hn. apply (ainv_open_h Hinv). rewrite Hperm. by right.
    + apply (ainv_closed_end Hinv).
    + intros s Hs. destruct (ainv_closed_least Hinv _ Hs) as (c & Hc & Hcov).
      exists c. split; [done|]. intros w t He.
      destruct (Hcov _ _ He) as [?|(n & Hn & Hst & Hle)]; [by left|].
      rewrite Hperm, elem_of_cons in Hn. destruct Hn as [->|Hn].
      * left. by rewrite <- Hst.
      * right. eauto.
    + destruct (ainv_start Hinv) as [?|(n & Hn & Hst & Hc)]; [by left|].
      rewrite Hperm, elem_of_cons in Hn. destruct Hn as [->|Hn].
      * left. by rewrite <- Hst.
      * right. eauto.
  - pose proof (astar_pop_least _ _ _ Hinv Hget Hncl) as Hleast.
    intros [= <-]. split; simpl.
    + intros n. rewrite foldl_pq_put_items, elem_of_app. intros [Hn|Hn].
      * destruct (astar_successors_edge _ _ Hn) as (w & He & ->).
        eapply reach_edge; [|done]. apply Hleast.
      * apply (ainv_open_reach Hinv). rewrite Hperm. by right.
    + intros n. rewrite foldl_pq_put_items, elem_of_app. intros [Hn|Hn].
      * eapply astar_successors_h; [|done]. by apply (ainv_open_h Hinv).
      * apply (ainv_open_h Hinv). rewrite Hperm. by right.
    + intros s [<-|Hs]%is_closed_insert; [done|].
      by apply (ainv_closed_end Hinv).
    + intros s [<-|Hs]%is_closed_insert.
      * exists (NodeAStar.g current). split; [done|].
        intros w t He. right.
        destruct (edge_astar_successors _ _ _ He) as (n & Hn & Hst & Hc).
        exists n. rewrite foldl_pq_put_items, elem_of_app.
        split; [by left|]. split; [done|lia].
      * destruct (ainv_closed_least Hinv _ Hs) as (c & Hc & Hcov).
        exists c. split; [done|]. intros w t He.
        destruct (Hcov _ _ He) as [?|(n & Hn & Hst & Hle)].
        { left. apply is_closed_insert. by right. }
        rewrite Hperm, elem_of_cons in Hn. destruct Hn as [->|Hn].
        -- left. apply is_closed_insert. by left.
        -- right. exists n. rewrite foldl_pq_put_items, elem_of_app. eauto.
    + destruct (ainv_start Hinv) as [?|(n & Hn & Hst & Hc)].
      { left. apply is_closed_insert. by right. }
      rewrite Hperm, elem_of_cons in Hn. destruct Hn as [->|Hn].
      * left. apply is_closed_insert. by left.
      * right. exists n. rewrite foldl_pq_put_items, elem_of_app. eauto.
Qed.

Lemma astar_iterate_inv k st :
  iterate (astar_step Q maze) k (astar_init Q maze reindeer direction_default) = Some st →
  astar_inv st.
Proof.
  apply (iterate_invariant _ astar_inv); [|apply astar_init_inv].
  intros s s'. apply astar_step_inv.
Qed.

(** The cost [find_astar] returns is the least cost of a walk from the
    start state to the end cell. *)
Theorem find_astar_best_cost fuel cost trail :
  find_astar Q fuel maze reindeer direction_default = Returned (cost, trail) →
  best_cost maze reindeer direction_default cost.
Proof.
  unfold find_astar. rewrite run_Returned.
  intros (k & st & _ & Hit & Hstep).
  pose proof (astar_iterate_inv _ _ Hit) as Hinv.
  unfold astar_step in Hstep.
  destruct (pq_get Q (astar_open Q st)) as [[current open]|] eqn:Hget; [|done].
  destruct (pq_get_Some Q _ _ _ Hget) as [Hperm Hmin].
  assert (Hcur : current ∈ items st) by (rewrite Hperm; by left).
  destruct (decide (NodeAStar.point current = Maze.end_ maze)) as [Hend|Hend].
  - injection Hstep as <- <-.
    pose proof (ainv_open_h Hinv _ Hcur) as Hh.
    rewrite Hend in Hh. rewrite (proj2 (distance_to_end_0 maze _) eq_refl) in Hh.
    split.
    + exists (NodeAStar.direction current). rewrite <- Hend.
      by apply (ainv_open_reach Hinv).
    + intros d c' Hc'.
      destruct (astar_frontier _ _ _ Hinv Hc') as [Hcl|(n & Hn & Hc)].
      { by apply (ainv_closed_end Hinv) in Hcl. }
      simpl in Hc. rewrite (proj2 (distance_to_end_0 maze _) eq_refl) in Hc.
      rewrite Hperm, elem_of_cons in Hn. destruct Hn as [->|Hn].
      * unfold NodeAStar.f in Hc. lia.
      * rewrite Forall_forall in Hmin. specialize (Hmin _ Hn).
        unfold NodeAStar.lt, NodeAStar.f in *. lia.
  - by destruct (default false _).
Qed.
End astar_correct.

(** ** The two searches agree *)

(** C3: whenever both searches return (whatever the tie-breaking of
    their queues, started on a cardinal heading), the cost returned by
    [find_astar] is the cost returned by [find_djikstra]. *)
Theorem find_astar_find_djikstra_same_cost
    (QA : PriorityQueue NodeAStar.t NodeAStar.lt)
    (QD : PriorityQueue NodeDjikstra.t NodeDjikstra.lt)
    (maze : Maze.t) (reindeer : Point.t) (direction_default : Direction.t)
    (fuelA fuelD : nat) (costA costD : Z) (trail : Trail) (cells : gset Point.t) :
  cardinal direction_default →
  find_astar QA fuelA maze reindeer direction_default = Returned (costA, trail) →
  find_djikstra QD fuelD maze reindeer direction_default = Returned (costD, cells) →
  costA = costD.
Proof.
  intros Hd HA HD.
  eapply best_cost_unique.
  - eapply find_astar_best_cost; eauto.
  - eapply find_djikstra_best_cost; eauto.
Qed.

Lemma find_astar_find_djikstra_same_cost_witness :
  ∃ trail cells,
    find_astar astar_queue 4 corridor3 (Point.mk 0 1) East = Returned (2, trail)
    ∧ find_djikstra djikstra_queue 4 corridor3 (Point.mk 0 1) East = Returned (2, cells)
    ∧ 2 = 2.
Proof.
  eexists _, _. split; [vm_compute; reflexivity|]. split; [vm_compute; reflexivity|].
  eapply (find_astar_find_djikstra_same_cost astar_queue djikstra_queue corridor3
            (Point.mk 0 1) East 4 4).
  - apply cardinal_East.
  - vm_compute; reflexivity.
  - vm_compute; reflexivity.
Defined.

(** ** The [trails] dictionary of [find_djikstra] *)

Lemma trails_grow_refl trails : trails_grow trails trails.
Proof. intros key cells H. by exists cells. Qed.

Lemma trails_grow_trans t1 t2 t3 :
  trails_grow t1 t2 → trails_grow t2 t3 → trails_grow t1 t3.
Proof.
  intros H12 H23 key cells H1.
  destruct (H12 _ _ H1) as (c2 & H2 & Hs2).
  destruct (H23 _ _ H2) as (c3 & H3 & Hs3).
  exists c3. split; [done|]. by transitivity c2.
Qed.

(** The assignment in the body of [for node in nodes]. *)
Lemma trails_grow_insert trails key here (cell : Point.t) :
  trails_grow trails
    (<[key := default ∅ (trails !! key) ∪ here ∪ {[ cell ]}]> trails).
Proof.
  intros key' cells H. destruct (decide (key = key')) as [->|Hne].
  - rewrite lookup_insert_eq, H. simpl. eexists. split; [done|].
    intros c Hc. apply elem_of_union. left. apply elem_of_union. by left.
  - rewrite lookup_insert_ne by done. by exists cells.
Qed.

Section djikstra_trails.
Context (Q : PriorityQueue NodeDjikstra.t NodeDjikstra.lt).
Context (maze : Maze.t) (reindeer : Point.t) (direction_default : Direction.t).

Local Abbreviation trails_inv := (trails_inv Q reindeer).
Local Abbreviation items st := (pq_items Q (djikstra_open Q st)).
Local Abbreviation trails st := (djikstra_trails Q st).

Lemma djikstra_visit_None (current : NodeDjikstra.t) (nodes : list NodeDjikstra.t) :
  foldl (djikstra_visit Q current) None nodes = None.
Proof. by induction nodes. Qed.

(** A property of [(trails, open)] kept by each pass of the [for] loop
    holds when the loop is over. *)
Lemma djikstra_visit_invariant (current : NodeDjikstra.t)
    (I : gmap (Point.t * Z) (gset Point.t) → pq_carrier Q → Prop)
    (nodes : list NodeDjikstra.t) :
  (∀ trails open node trails' open',
     node ∈ nodes → I trails open →
     djikstra_visit Q current (Some (trails, open)) node = Some (trails', open') →
     I trails' open') →
  ∀ trails open trails' open',
    I trails open →
    foldl (djikstra_visit Q current) (Some (trails, open)) nodes = Some (trails', open') →
    I trails' open'.
Proof.
  induction nodes as [|n nodes IH]; intros Hstep trails open trails' open' HI; simpl.
  - by intros [= <- <-].
  - destruct (trails !! _) as [here|] eqn:Hhere.
    + apply IH.
      * intros ? ? node ? ? Hn. apply Hstep. by right.
      * eapply (Hstep trails open n); [by left|done|]. simpl. by rewrite Hhere.
    + by rewrite djikstra_visit_None.
Qed.

(** The [for] loop never removes or shrinks an entry. *)
Lemma djikstra_visit_grow (current : NodeDjikstra.t) (nodes : list NodeDjikstra.t)
    trails open trails' open' :
  foldl (djikstra_visit Q current) (Some (trails, open)) nodes = Some (trails', open') →
  trails_grow trails trails'.
Proof.
  apply (djikstra_visit_invariant current (λ t _, trails_grow trails t)).
  - intros t o node t' o' _ Hg. simpl.
    destruct (t !! _) as [here|]; [|done]. intros [= <- <-].
    eapply trails_grow_trans; [done|]. apply trails_grow_insert.
  - apply trails_grow_refl.
Qed.

(** With an entry for the current node the [for] loop raises no
    [KeyError]. *)
Lemma djikstra_visit_is_Some (current : NodeDjikstra.t) (nodes : list NodeDjikstra.t)
    trails open :
  is_Some (trails !! (NodeDjikstra.point current, NodeDjikstra.cost current)) →
  is_Some (foldl (djikstra_visit Q current) (Some (trails, open)) nodes).
Proof.
  revert trails open. induction nodes as [|n nodes IH]; intros trails open Hk; simpl.
  - done.
  - destruct Hk as [here Hhere]. rewrite Hhere. apply IH.
    destruct (decide ((NodeDjikstra.point n, NodeDjikstra.cost n)
                      = (NodeDjikstra.point current, NodeDjikstra.cost current)))
      as [->|Hne].
    + by rewrite lookup_insert_eq.
    + by rewrite lookup_insert_ne, Hhere.
Qed.

Lemma trails_init_inv : trails_inv (djikstra_init Q reindeer direction_default).
Proof.
  split; simpl.
  - intros n. rewrite pq_items_put, pq_items_new, list_elem_of_singleton.
    intros ->. simpl. by rewrite lookup_singleton_eq.
  - intros key cells. rewrite lookup_singleton_Some. intros [<- <-]. simpl.
    split; by apply elem_of_singleton.
Qed.

Lemma trails_step_inv st st' :
  trails_inv st → djikstra_step Q maze st = Next st' → trails_inv st'.
Proof.
  intros Hinv. unfold djikstra_step.
  destruct (pq_get Q (djikstra_open Q st)) as [[current open]|] eqn:Hget; [|done].
  destruct (pq_get_Some Q _ _ _ Hget) as [Hperm _].
  destruct (decide _) as [Hend|Hend].
  { by destruct (djikstra_trails Q st !! _). }
  destruct (default false _).
  - intros [= <-]. split; simpl.
    + intros n Hn. apply (tinv_key Hinv). rewrite Hperm. by right.
    + apply (tinv_mem Hinv).
  - destruct (foldl _ _ _) as [[trails' open']|] eqn:Hfold; [|done].
    intros [= <-].
    pose proof (djikstra_visit_invariant current
      (λ t o, (∀ n, n ∈ pq_items Q o → is_Some (t !! (NodeDjikstra.point n, NodeDjikstra.cost n)))
              ∧ (∀ key cells, t !! key = Some cells → reindeer ∈ cells ∧ key.1 ∈ cells))
      (djikstra_successors maze current)) as HI.
    destruct (HI) with (3 := Hfold) as [H1 H2].
    + clear HI Hfold. intros t o node t' o' _ [Hk Hm]. simpl.
      destruct (t !! (NodeDjikstra.point current, _)) as [here|] eqn:Hhere; [|done].
      intros [= <- <-]. split.
      * intros n. rewrite pq_items_put, elem_of_cons. intros [->|Hn].
        -- by rewrite lookup_insert_eq.
        -- destruct (Hk _ Hn) as [cells Hc].
           destruct (trails_grow_insert t (NodeDjikstra.point node, NodeDjikstra.cost node)
                       here (NodeDjikstra.point node) _ _ Hc) as (cells' & -> & _).
           done.
      * intros key cells.
        destruct (decide ((NodeDjikstra.point node, NodeDjikstra.cost node) = key))
          as [<-|Hne].
        -- rewrite lookup_insert_eq. intros [= <-]. simpl. split.
           ++ apply elem_of_union. left. apply elem_of_union. right.
              by apply (Hm _ _ Hhere).
           ++ apply elem_of_union. right. by apply elem_of_singleton.
        -- rewrite lookup_insert_ne by done. apply Hm.
    + split.
      * intros n Hn. apply (tinv_key Hinv). rewrite Hperm. by right.
      * apply (tinv_mem Hinv).
    + by split.
Qed.

Lemma trails_iterate_inv k st :
  iterate (djikstra_step Q maze) k (djikstra_init Q reindeer direction_default) = Some st →
  trails_inv st.
Proof.
  apply (iterate_invariant _ trails_inv); [|apply trails_init_inv].
  intros s s'. apply trails_step_inv.
Qed.

(** No pass of the loop raises [KeyError]. *)
Lemma djikstra_step_no_KeyError st :
  trails_inv st → djikstra_step Q maze st ≠ Raise KeyError.
Proof.
  intros Hinv. unfold djikstra_step.
  destruct (pq_get Q (djikstra_open Q st)) as [[current open]|] eqn:Hget; [|done].
  destruct (pq_get_Some Q _ _ _ Hget) as [Hperm _].
  assert (Hk : is_Some (trails st !! (NodeDjikstra.point current, NodeDjikstra.cost current))).
  { apply (tinv_key Hinv). rewrite Hperm. by left. }
  destruct (decide _).
  - destruct Hk as [cells ->]. done.
  - destruct (default false _); [done|].
    destruct (djikstra_visit_is_Some current (djikstra_successors maze current) _ open Hk)
      as [[t o] ->]. done.
Qed.

(** One pass of the [while] loop never removes or shrinks an entry. *)
Lemma djikstra_step_grow st st' :
  djikstra_step Q maze st = Next st' → trails_grow (trails st) (trails st').
Proof.
  unfold djikstra_step.
  destruct (pq_get Q (djikstra_open Q st)) as [[current open]|]; [|done].
  destruct (decide _).
  { by destruct (djikstra_trails Q st !! _). }
  destruct (default false _).
  - intros [= <-]. apply trails_grow_refl.
  - destruct (foldl _ _ _) as [[trails' open']|] eqn:Hfold; [|done].
    intros [= <-]. simpl. by eapply djikstra_visit_grow.
Qed.

Lemma djikstra_iterate_grow k st st' :
  iterate (djikstra_step Q maze) k st = Some st' →
  trails_grow (trails st) (trails st').
Proof.
  revert st. induction k as [|k IH]; intros st; simpl.
  - intros [= <-]. apply trails_grow_refl.
  - destruct (djikstra_step Q maze st) as [s1| |] eqn:E; [|done..].
    intros H. eapply trails_grow_trans; [by apply djikstra_step_grow|by apply IH].
Qed.

(** The set returned holds the start cell and the end cell. *)
Lemma find_djikstra_Returned_mem fuel cost cells :
  find_djikstra Q fuel maze reindeer direction_default = Returned (cost, cells) →
  reindeer ∈ cells ∧ Maze.end_ maze ∈ cells.
Proof.
  unfold find_djikstra. rewrite run_Returned.
  intros (k & st & _ & Hit & Hstep).
  pose proof (trails_iterate_inv _ _ Hit) as Hinv.
  unfold djikstra_step in Hstep.
  destruct (pq_get Q (djikstra_open Q st)) as [[current open]|]; [|done].
  destruct (decide _) as [Hend|Hend].
  - destruct (djikstra_trails Q st !! _) as [cells'|] eqn:Hc; [|done].
    injection Hstep as <- <-.
    destruct (tinv_mem Hinv _ _ Hc) as [H1 H2]. simpl in H2.
    by rewrite <- Hend.
  - destruct (default false _); [done|].
    by destruct (foldl _ _ _) as [[? ?]|].
Qed.

End djikstra_trails.

(** C6: the set [find_djikstra] returns holds the cell the search
    started from (the maze's start cell when the search is started
    there, as [part2] does) and the end cell of the maze. *)
Theorem find_djikstra_cells_start_end
    (Q : PriorityQueue NodeDjikstra.t NodeDjikstra.lt)
    (maze : Maze.t) (reindeer : Point.t) (direction_default : Direction.t)
    (fuel : nat) (cost : Z) (cells : gset Point.t) :
  find_djikstra Q fuel maze reindeer direction_default = Returned (cost, cells) →
  reindeer ∈ cells
  ∧ Maze.end_ maze ∈ cells
  ∧ (reindeer = Maze.start maze → Maze.start maze ∈ cells).
Proof.
  intros H. apply find_djikstra_Returned_mem in H as [Hstart Hend].
  split; [done|]. split; [done|]. by intros <-.
Qed.

Lemma find_djikstra_cells_start_end_witness :
  ∃ cells,
    find_djikstra djikstra_queue 4 corridor3 (Point.mk 0 1) East = Returned (2, cells)
    ∧ Point.mk 0 1 ∈ cells
    ∧ Maze.end_ corridor3 ∈ cells
    ∧ (Point.mk 0 1 = Maze.start corridor3 → Maze.start corridor3 ∈ cells).
Proof.
  eexists. split; [vm_compute; reflexivity|].
  eapply (find_djikstra_cells_start_end djikstra_queue corridor3 (Point.mk 0 1) East 4 2).
  vm_compute; reflexivity.
Defined.

(** C7: along a run of [find_djikstra] every entry of [trails], once
    present, stays present and only gains cells: each assignment in the
    [for] loop keeps the cells every entry had, and so the value of an
    entry after any number of further passes of the [while] loop
    contains its earlier value. *)
Theorem djikstra_trails_monotone
    (Q : PriorityQueue NodeDjikstra.t NodeDjikstra.lt)
    (maze : Maze.t) (reindeer : Point.t) (direction_default : Direction.t) :
  (∀ (current node : NodeDjikstra.t) trails open trails' open'
     (key : Point.t * Z) (cells : gset Point.t),
     djikstra_visit Q current (Some (trails, open)) node = Some (trails', open') →
     trails !! key = Some cells →
     ∃ cells', trails' !! key = Some cells' ∧ cells ⊆ cells')
  ∧ (∀ (i j : nat) (st_i st_j : djikstra_state Q)
       (key : Point.t * Z) (cells : gset Point.t),
       iterate (djikstra_step Q maze) i (djikstra_init Q reindeer direction_default)
         = Some st_i →
       iterate (djikstra_step Q maze) (i + j) (djikstra_init Q reindeer direction_default)
         = Some st_j →
       djikstra_trails Q st_i !! key = Some cells →
       ∃ cells', djikstra_trails Q st_j !! key = Some cells' ∧ cells ⊆ cells').
Proof.
  split.
  - intros current node trails open trails' open' key cells Hvisit.
    apply (djikstra_visit_grow Q current [node] trails open trails' open' Hvisit).
  - intros i j st_i st_j key cells Hi Hj.
    destruct (iterate_split _ _ _ _ _ Hj) as (st & Hi' & Hij).
    rewrite Hi in Hi'. injection Hi' as <-.
    by apply (djikstra_iterate_grow _ _ _ _ _ Hij).
Qed.

(** On the 3x3 corridor the entry of the start key still holds the start
    cell after two passes. *)
Lemma djikstra_trails_monotone_witness :
  ∃ st_j cells',
    iterate (djikstra_step djikstra_queue corridor3) (0 + 2)
      (djikstra_init djikstra_queue (Point.mk 0 1) East) = Some st_j
    ∧ djikstra_trails djikstra_queue st_j !! (Point.mk 0 1, 0) = Some cells'
    ∧ {[ Point.mk 0 1 ]} ⊆ cells'.
Proof.
  eexists.
  destruct (proj2 (djikstra_trails_monotone djikstra_queue corridor3 (Point.mk 0 1) East)
              0%nat 2%nat (djikstra_init djikstra_queue (Point.mk 0 1) East) _
              (Point.mk 0 1, 0) {[ Point.mk 0 1 ]} eq_refl
              ltac:(vm_compute; reflexivity) ltac:(vm_compute; reflexivity))
    as (cells' & Hc & Hs).
  exists cells'. split; [vm_compute; reflexivity|]. split; assumption.
Defined.

(** ** One expansion *)

Section expansion.
Context (QA : PriorityQueue NodeAStar.t NodeAStar.lt).
Context (QD : PriorityQueue NodeDjikstra.t NodeDjikstra.lt).
Context (maze : Maze.t).

(** What a pass of [find_astar]'s loop does with a node that is neither
    at the end nor closed. *)
Lemma astar_step_expand st current open :
  pq_get QA (astar_open QA st) = Some (current, open) →
  NodeAStar.point current ≠ Maze.end_ maze →
  ¬ is_closed (astar_closed QA st) (astar_node_state current) →
  ∃ st',
    astar_step QA maze st = Next st'
    ∧ astar_closed QA st' = <[astar_node_state current := true]> (astar_closed QA st)
    ∧ pq_items QA (astar_open QA st') ≡ₚ
        (if is_wall maze (NodeAStar.point current) then []
         else [ NodeAStar.mk (NodeAStar.direction current)
                  (Point.add (NodeAStar.point current) (NodeAStar.direction current))
                  (NodeAStar.g current + 1)
                  (distance_to_end maze
                     (Point.add (NodeAStar.point current) (NodeAStar.direction current)))
                  (<[Point.add (NodeAStar.point current) (NodeAStar.direction current) := 1]>
                     (NodeAStar.trail current));
                NodeAStar.mk (Direction.mul (NodeAStar.direction current) RotateLeft)
                  (NodeAStar.point current) (NodeAStar.g current + 1000)
                  (NodeAStar.h current) (NodeAStar.trail current);
                NodeAStar.mk (Direction.mul (NodeAStar.direction current) RotateRight)
                  (NodeAStar.point current) (NodeAStar.g current + 1000)
                  (NodeAStar.h current) (NodeAStar.trail current) ])
        ++ pq_items QA open.
Proof.
  intros Hget Hend Hncl. unfold astar_step. rewrite Hget.
  destruct (decide _) as [?|_]; [done|].
  destruct (is_closed_dec (astar_closed QA st) (astar_node_state current))
    as [[_ ?]|[Hb _]]; [done|].
  unfold astar_node_state in Hb. rewrite Hb.
  eexists. split; [done|]. split; [done|]. simpl.
  rewrite foldl_pq_put_items. unfold astar_successors.
  destruct (is_wall maze _); simpl; [done|].
  unfold astar_forward, astar_rotate, merge, COST_FORWARD, COST_ROTATE.
  by rewrite <- insert_union_singleton_l.
Qed.

(** The same for [find_djikstra]; [here] is
    [trails[(current.point, current.cost)]]. *)
Lemma djikstra_step_expand st current open here :
  pq_get QD (djikstra_open QD st) = Some (current, open) →
  NodeDjikstra.point current ≠ Maze.end_ maze →
  ¬ is_closed (djikstra_closed QD st) (djikstra_node_state current) →
  djikstra_trails QD st !! (NodeDjikstra.point current, NodeDjikstra.cost current)
    = Some here →
  ∃ st',
    djikstra_step QD maze st = Next st'
    ∧ djikstra_closed QD st'
      = <[djikstra_node_state current := true]> (djikstra_closed QD st)
    ∧ pq_items QD (djikstra_open QD st') ≡ₚ
        (if is_wall maze (NodeDjikstra.point current) then []
         else [ NodeDjikstra.mk (NodeDjikstra.cost current + 1)
                  (NodeDjikstra.direction current)
                  (Point.add (NodeDjikstra.point current) (NodeDjikstra.direction current));
                NodeDjikstra.mk (NodeDjikstra.cost current + 1000)
                  (Direction.mul (NodeDjikstra.direction current) RotateLeft)
                  (NodeDjikstra.point current);
                NodeDjikstra.mk (NodeDjikstra.cost current + 1000)
                  (Direction.mul (NodeDjikstra.direction current) RotateRight)
                  (NodeDjikstra.point current) ])
        ++ pq_items QD open
    ∧ djikstra_trails QD st' =
        if is_wall maze (NodeDjikstra.point current) then djikstra_trails QD st
        else
          let forward :=
            (Point.add (NodeDjikstra.point current) (NodeDjikstra.direction current),
             NodeDjikstra.cost current + 1) in
          let turned := (NodeDjikstra.point current, NodeDjikstra.cost current + 1000) in
          <[turned := default ∅ (djikstra_trails QD st !! turned) ∪ here
                      ∪ {[ NodeDjikstra.point current ]}]>
            (<[forward := default ∅ (djikstra_trails QD st !! forward) ∪ here
                          ∪ {[ forward.1 ]}]>
               (djikstra_trails QD st)).
Proof.
  intros Hget Hend Hncl Hhere. unfold djikstra_step. rewrite Hget.
  destruct (decide _) as [?|_]; [done|].
  destruct (is_closed_dec (djikstra_closed QD st) (djikstra_node_state current))
    as [[_ ?]|[Hb _]]; [done|].
  unfold djikstra_node_state in Hb. rewrite Hb.
  unfold djikstra_successors.
  destruct (is_wall maze _); simpl.
  { eexists. split; [done|]. by split. }
  unfold COST_FORWARD, COST_ROTATE.
  set (p := NodeDjikstra.point current) in *.
  set (c := NodeDjikstra.cost current) in *.
  set (d := NodeDjikstra.direction current) in *.
  assert (Hf : (Point.add p d, c + 1) ≠ (p, c)) by (intros [= _ ?]; lia).
  assert (Ht : (p, c + 1000) ≠ (p, c)) by (intros [= ?]; lia).
  assert (Hft : (Point.add p d, c + 1) ≠ (p, c + 1000)) by (intros [= _ ?]; lia).
  rewrite Hhere. unfold djikstra_visit at 2; simpl. fold p c.
  rewrite (lookup_insert_ne _ _ _ _ Hf), Hhere.
  unfold djikstra_visit; simpl. fold p c.
  rewrite (lookup_insert_ne _ _ _ _ Ht), (lookup_insert_ne _ _ _ _ Hf), Hhere.
  eexists. split; [done|]. split; [done|]. simpl. split.
  - rewrite !pq_items_put.
    etrans; [apply perm_swap|]. etrans; [apply perm_skip, perm_swap|].
    apply perm_swap.
  - rewrite lookup_insert_eq, (lookup_insert_ne _ _ _ _ Hft). simpl.
    rewrite insert_insert_eq. f_equal.
    apply set_eq. intros cell. rewrite !elem_of_union. tauto.
Qed.

(** A node at the end cell makes the loop return at once; neither
    [closed] nor the walls are looked at. *)
Lemma astar_step_end st current open :
  pq_get QA (astar_open QA st) = Some (current, open) →
  NodeAStar.point current = Maze.end_ maze →
  astar_step QA maze st = Return (NodeAStar.g current, NodeAStar.trail current).
Proof.
  intros Hget Hend. unfold astar_step. rewrite Hget.
  by destruct (decide _).
Qed.

Lemma djikstra_step_end st current open cells :
  pq_get QD (djikstra_open QD st) = Some (current, open) →
  NodeDjikstra.point current = Maze.end_ maze →
  djikstra_trails QD st !! (NodeDjikstra.point current, NodeDjikstra.cost current)
    = Some cells →
  djikstra_step QD maze st = Return (NodeDjikstra.cost current, cells).
Proof.
  intros Hget Hend Hc. unfold djikstra_step. rewrite Hget.
  destruct (decide _); [|done]. by rewrite Hc.
Qed.
End expansion.

(** ** Running out of nodes *)

Section exhaustion.
Context {S R : Type} (step : S → step_result S R).

(** A loop that raised cannot return with other fuel. *)
Lemma run_Raised_not_Returned fuel fuel' s e r :
  run step fuel s = Raised e → run step fuel' s ≠ Returned r.
Proof.
  intros He Hr.
  assert (H : run step fuel s = run step fuel' s).
  { apply run_agree; congruence. }
  congruence.
Qed.
End exhaustion.

Section route_not_found.
Context (QA : PriorityQueue NodeAStar.t NodeAStar.lt).
Context (QD : PriorityQueue NodeDjikstra.t NodeDjikstra.lt).
Context (maze : Maze.t) (reindeer : Point.t) (direction_default : Direction.t).

Local Abbreviation astar_exhausted := (astar_exhausted QA maze reindeer direction_default).
Local Abbreviation djikstra_exhausted :=
  (djikstra_exhausted QD maze reindeer direction_default).

Lemma astar_step_Raise st e :
  astar_step QA maze st = Raise e ↔
  pq_get QA (astar_open QA st) = None ∧ e = RouteNotFound.
Proof.
  unfold astar_step.
  destruct (pq_get QA (astar_open QA st)) as [[current open]|].
  - destruct (decide _); [by split; [|intros []]|].
    destruct (default false _); by split; [|intros []].
  - split; [by intros [= <-]|by intros [_ ->]].
Qed.

Lemma djikstra_step_Raise st e :
  trails_inv QD reindeer st →
  djikstra_step QD maze st = Raise e ↔
  pq_get QD (djikstra_open QD st) = None ∧ e = RouteNotFound.
Proof.
  intros Hinv. pose proof (djikstra_step_no_KeyError QD maze reindeer st Hinv) as Hk.
  destruct e; [|by split; [|intros []]].
  unfold djikstra_step in *.
  destruct (pq_get QD (djikstra_open QD st)) as [[current open]|]; [|done].
  destruct (decide _).
  - destruct (djikstra_trails QD st !! _); by split; [|intros []].
  - destruct (default false _); [by split; [|intros []]|].
    destruct (foldl _ _ _) as [[? ?]|]; by split; [|intros []].
Qed.

Lemma find_astar_Raised fuel e :
  find_astar QA fuel maze reindeer direction_default = Raised e →
  e = RouteNotFound ∧ astar_exhausted.
Proof.
  unfold find_astar. rewrite run_Raised. intros (k & st & _ & Hit & Hstep).
  apply astar_step_Raise in Hstep as [Hget ->]. split; [done|]. by exists k, st.
Qed.

Lemma astar_exhausted_Raised :
  astar_exhausted →
  ∃ fuel, find_astar QA fuel maze reindeer direction_default = Raised RouteNotFound.
Proof.
  intros (k & st & Hit & Hget). exists (Datatypes.S k).
  unfold find_astar. rewrite run_Raised. exists k, st.
  split; [lia|]. split; [done|]. by apply astar_step_Raise.
Qed.

Lemma find_djikstra_Raised fuel e :
  find_djikstra QD fuel maze reindeer direction_default = Raised e →
  e = RouteNotFound ∧ djikstra_exhausted.
Proof.
  unfold find_djikstra. rewrite run_Raised. intros (k & st & _ & Hit & Hstep).
  apply djikstra_step_Raise in Hstep as [Hget ->].
  - split; [done|]. by exists k, st.
  - by eapply trails_iterate_inv.
Qed.

Lemma djikstra_exhausted_Raised :
  djikstra_exhausted →
  ∃ fuel, find_djikstra QD fuel maze reindeer direction_default = Raised RouteNotFound.
Proof.
  intros (k & st & Hit & Hget). exists (Datatypes.S k).
  unfold find_djikstra. rewrite run_Raised. exists k, st.
  split; [lia|]. split; [done|]. apply djikstra_step_Raise; [|done].
  by eapply trails_iterate_inv.
Qed.

End route_not_found.

(** ** What guards the successors *)

(** C2 (as stated, fails): on [wall_ahead] the first pass of either loop
    pops the start node, which is neither at the end nor closed, and puts
    the forward successor on [open] although its cell, one step east of
    the start, is a wall. *)
Lemma forward_successor_into_wall :
  is_wall wall_ahead (Point.add (Point.mk 0 0) East) = true
  ∧ (∃ st' n,
       astar_step astar_queue wall_ahead
         (astar_init astar_queue wall_ahead (Point.mk 0 0) East) = Next st'
       ∧ n ∈ pq_items astar_queue (astar_open astar_queue st')
       ∧ NodeAStar.point n = Point.add (Point.mk 0 0) East
       ∧ NodeAStar.direction n = East
       ∧ NodeAStar.g n = 0 + 1)
  ∧ (∃ st' n,
       djikstra_step djikstra_queue wall_ahead
         (djikstra_init djikstra_queue (Point.mk 0 0) East) = Next st'
       ∧ n ∈ pq_items djikstra_queue (djikstra_open djikstra_queue st')
       ∧ NodeDjikstra.point n = Point.add (Point.mk 0 0) East
       ∧ NodeDjikstra.direction n = East
       ∧ NodeDjikstra.cost n = 0 + 1).
Proof.
  split; [by vm_compute|]. split.
  - eexists _, (NodeAStar.mk East (Point.mk 1 0) 1 _ _).
    split; [vm_compute; reflexivity|]. split; [|done].
    vm_compute. left.
  - eexists _, (NodeDjikstra.mk 1 East (Point.mk 1 0)).
    split; [vm_compute; reflexivity|]. split; [|done].
    vm_compute. left.
Qed.

(** C2 (amended): in a pass of either loop that pops a node neither at
    the end nor closed, the node's state is closed and the three
    successors are put on [open] together, exactly when the cell of the
    popped node is not a wall; the cell ahead is not tested.  The forward
    successor costs 1 more and, in [find_astar], carries the trail
    extended with the new cell; each rotation costs 1000 more and carries
    the trail unchanged.  In [find_djikstra] the [trails] entry of each
    successor's (cell, cost) becomes its old value joined with the
    popped node's entry and the successor's cell. *)
Theorem successors_guarded_by_current_cell
    (QA : PriorityQueue NodeAStar.t NodeAStar.lt)
    (QD : PriorityQueue NodeDjikstra.t NodeDjikstra.lt) (maze : Maze.t) :
  (∀ st current open,
     pq_get QA (astar_open QA st) = Some (current, open) →
     NodeAStar.point current ≠ Maze.end_ maze →
     ¬ is_closed (astar_closed QA st) (astar_node_state current) →
     ∃ st',
       astar_step QA maze st = Next st'
       ∧ astar_closed QA st' = <[astar_node_state current := true]> (astar_closed QA st)
       ∧ pq_items QA (astar_open QA st') ≡ₚ
           (if is_wall maze (NodeAStar.point current) then []
            else [ NodeAStar.mk (NodeAStar.direction current)
                     (Point.add (NodeAStar.point current) (NodeAStar.direction current))
                     (NodeAStar.g current + 1)
                     (distance_to_end maze
                        (Point.add (NodeAStar.point current) (NodeAStar.direction current)))
                     (<[Point.add (NodeAStar.point current) (NodeAStar.direction current) := 1]>
                        (NodeAStar.trail current));
                   NodeAStar.mk (Direction.mul (NodeAStar.direction current) RotateLeft)
                     (NodeAStar.point current) (NodeAStar.g current + 1000)
                     (NodeAStar.h current) (NodeAStar.trail current);
                   NodeAStar.mk (Direction.mul (NodeAStar.direction current) RotateRight)
                     (NodeAStar.point current) (NodeAStar.g current + 1000)
                     (NodeAStar.h current) (NodeAStar.trail current) ])
           ++ pq_items QA open)
  ∧ (∀ st current open here,
       pq_get QD (djikstra_open QD st) = Some (current, open) →
       NodeDjikstra.point current ≠ Maze.end_ maze →
       ¬ is_closed (djikstra_closed QD st) (djikstra_node_state current) →
       djikstra_trails QD st !! (NodeDjikstra.point current, NodeDjikstra.cost current)
         = Some here →
       ∃ st',
         djikstra_step QD maze st = Next st'
         ∧ djikstra_closed QD st'
           = <[djikstra_node_state current := true]> (djikstra_closed QD st)
         ∧ pq_items QD (djikstra_open QD st') ≡ₚ
             (if is_wall maze (NodeDjikstra.point current) then []
              else [ NodeDjikstra.mk (NodeDjikstra.cost current + 1)
                       (NodeDjikstra.direction current)
                       (Point.add (NodeDjikstra.point current)
                          (NodeDjikstra.direction current));
                     NodeDjikstra.mk (NodeDjikstra.cost current + 1000)
                       (Direction.mul (NodeDjikstra.direction current) RotateLeft)
                       (NodeDjikstra.point current);
                     NodeDjikstra.mk (NodeDjikstra.cost current + 1000)
                       (Direction.mul (NodeDjikstra.direction current) RotateRight)
                       (NodeDjikstra.point current) ])
             ++ pq_items QD open
         ∧ djikstra_trails QD st' =
             if is_wall maze (NodeDjikstra.point current) then djikstra_trails QD st
             else
               let forward :=
                 (Point.add (NodeDjikstra.point current) (NodeDjikstra.direction current),
                  NodeDjikstra.cost current + 1) in
               let turned := (NodeDjikstra.point current, NodeDjikstra.cost current + 1000) in
               <[turned := default ∅ (djikstra_trails QD st !! turned) ∪ here
                           ∪ {[ NodeDjikstra.point current ]}]>
                 (<[forward := default ∅ (djikstra_trails QD st !! forward) ∪ here
                               ∪ {[ forward.1 ]}]>
                    (djikstra_trails QD st))).
Proof.
  split.
  - intros st current open. apply astar_step_expand.
  - intros st current open here. apply djikstra_step_expand.
Qed.

(** The amended statement at the first pass on [wall_ahead]: the start
    cell is open, so three nodes join the queue. *)
Lemma successors_guarded_by_current_cell_witness :
  ∃ st',
    astar_step astar_queue wall_ahead
      (astar_init astar_queue wall_ahead (Point.mk 0 0) East) = Next st'
    ∧ length (pq_items astar_queue (astar_open astar_queue st')) = 3%nat.
Proof.
  destruct (proj1 (successors_guarded_by_current_cell astar_queue djikstra_queue wall_ahead)
              (astar_init astar_queue wall_ahead (Point.mk 0 0) East)
              (NodeAStar.mk East (Point.mk 0 0) 0 2 {[ Point.mk 0 0 := 1 ]}) [])
    as (st' & Hstep & _ & Hitems).
  - reflexivity.
  - intros [=].
  - apply is_closed_empty.
  - exists st'. split; [exact Hstep|].
    apply Permutation_length in Hitems. exact Hitems.
Defined.

(** ** Termination *)

Section run_terminates.
Context {S R : Type} (step : S → step_result S R).
Context (I : S → Prop) (measure : S → nat).

(** A loop whose every pass keeps [I] and lowers [measure] finishes
    within [measure s] passes and one more. *)
Lemma run_terminates s :
  (∀ s s', I s → step s = Next s' → I s' ∧ (measure s' < measure s)%nat) →
  I s → run step (Datatypes.S (measure s)) s ≠ OutOfFuel.
Proof.
  intros Hstep. remember (measure s) as m eqn:Hm.
  assert (Hle : (measure s ≤ m)%nat) by lia. clear Hm.
  revert s Hle. induction m as [|m IH]; intros s Hle Hs; simpl.
  - destruct (step s) as [s'| |] eqn:E; [|done..].
    destruct (Hstep _ _ Hs E). lia.
  - destruct (step s) as [s'| |] eqn:E; [|done..].
    destruct (Hstep _ _ Hs E) as [Hs' Hlt]. apply IH; [lia|done].
Qed.
End run_terminates.

Lemma unclosed_insert_le closed s region :
  (unclosed (<[s := true]> closed) region ≤ unclosed closed region)%nat.
Proof.
  unfold unclosed. induction region as [|x region IH]; [done|].
  rewrite !filter_cons.
  destruct (decide (¬ is_closed (<[s:=true]> closed) x)) as [H1|H1];
    destruct (decide (¬ is_closed closed x)) as [H2|H2]; simpl; try lia.
  exfalso. apply H1. apply is_closed_insert. right.
  by destruct (decide (is_closed closed x)).
Qed.

Lemma unclosed_insert_lt closed s region :
  s ∈ region → ¬ is_closed closed s →
  (unclosed (<[s := true]> closed) region < unclosed closed region)%nat.
Proof.
  intros Hin Hs. unfold unclosed. induction region as [|x region IH].
  { by apply elem_of_nil in Hin. }
  pose proof (unclosed_insert_le closed s region) as Hle. unfold unclosed in Hle.
  rewrite !filter_cons.
  destruct (decide (s = x)) as [<-|Hne].
  - destruct (decide (¬ is_closed (<[s:=true]> closed) s)) as [H1|H1].
    { exfalso. apply H1. apply is_closed_insert. by left. }
    destruct (decide (¬ is_closed closed s)); [simpl; lia|done].
  - apply elem_of_cons in Hin as [?|Hin]; [done|]. specialize (IH Hin).
    destruct (decide (¬ is_closed (<[s:=true]> closed) x)) as [H1|H1];
      destruct (decide (¬ is_closed closed x)) as [H2|H2]; simpl; try lia.
    exfalso. apply H1. apply is_closed_insert. right.
    by destruct (decide (is_closed closed x)).
Qed.

Lemma elem_of_box center r p :
  Z.abs (Point.x p - Point.x center) ≤ r →
  Z.abs (Point.y p - Point.y center) ≤ r →
  p ∈ box center r.
Proof.
  intros Hx Hy. unfold box. apply list_elem_of_bind. exists (Point.x p). split.
  - apply list_elem_of_bind. exists (Point.y p). split.
    + destruct p. apply list_elem_of_singleton. done.
    + apply elem_of_seqZ. lia.
  - apply elem_of_seqZ. lia.
Qed.

Lemma elem_of_states_within center r d p :
  cardinal d →
  Z.abs (Point.x p - Point.x center) + Z.abs (Point.y p - Point.y center) ≤ r →
  (d, p) ∈ states_within center r.
Proof.
  intros Hd Hp. unfold states_within. apply list_elem_of_bind. exists d. split; [|done].
  apply list_elem_of_bind. exists p. split.
  - by apply list_elem_of_singleton.
  - apply elem_of_box; lia.
Qed.

(** A walk to a cell costs at least its Manhattan distance from the
    start, and 1000 more when it ends under another heading than the
    starting one. *)
Lemma reach_lower_bound maze reindeer direction_default s c :
  cardinal direction_default →
  reach maze reindeer direction_default s c →
  Z.abs (Point.x s.2 - Point.x reindeer) + Z.abs (Point.y s.2 - Point.y reindeer)
  + (if decide (s.1 = direction_default) then 0 else 1000) ≤ c.
Proof.
  intros Hd. induction 1 as [|s c w t Hs IH He].
  - simpl. rewrite decide_True by done. lia.
  - pose proof (reach_cardinal _ _ _ _ _ Hd Hs) as Hcard.
    destruct He as [d p Hw|d p Hw|d p Hw]; simpl in *.
    + apply cardinal_cases in Hcard. unfold COST_FORWARD.
      destruct (decide (d = direction_default));
        destruct p as [a b]; simpl in *;
        destruct Hcard as [-> | [-> | [-> | ->]]]; simpl; lia.
    + unfold COST_ROTATE. destruct (decide (d = _)), (decide (_ = _)); lia.
    + unfold COST_ROTATE. destruct (decide (d = _)), (decide (_ = _)); lia.
Qed.

(** ** Both searches finish on a finite region

    When every node popped has its state in a finite [region], each pass
    of the loop either closes a state of the region or shortens [open]
    for good, so the loop comes to an end. *)

Section djikstra_finishes.
Context (Q : PriorityQueue NodeDjikstra.t NodeDjikstra.lt).
Context (maze : Maze.t) (reindeer : Point.t) (direction_default : Direction.t).
Context (region : list State).

Local Abbreviation items st := (pq_items Q (djikstra_open Q st)).
Local Abbreviation closed st := (djikstra_closed Q st).
Local Abbreviation djikstra_invs := (djikstra_invs Q maze reindeer direction_default).
Local Abbreviation djikstra_measure := (djikstra_measure Q region).

Context (Hregion : ∀ st current open,
  djikstra_invs st → pq_get Q (djikstra_open Q st) = Some (current, open) →
  djikstra_node_state current ∈ region).

Lemma djikstra_step_measure st st' :
  djikstra_invs st → djikstra_step Q maze st = Next st' →
  djikstra_invs st' ∧ (djikstra_measure st' < djikstra_measure st)%nat.
Proof.
  intros Hinvs Hstep. split.
  { destruct Hinvs. split; [by eapply djikstra_step_inv|by eapply trails_step_inv]. }
  destruct (pq_get Q (djikstra_open Q st)) as [[current open]|] eqn:Hget;
    [|by unfold djikstra_step in Hstep; rewrite Hget in Hstep].
  pose proof (Hregion _ _ _ Hinvs Hget) as Hin.
  destruct Hinvs as [Hinv Htr].
  destruct (pq_get_Some Q _ _ _ Hget) as [Hperm _].
  assert (Hcur : current ∈ items st) by (rewrite Hperm; by left).
  unfold djikstra_measure. rewrite (Permutation_length Hperm). simpl.
  destruct (decide (NodeDjikstra.point current = Maze.end_ maze)) as [He|He].
  { destruct (tinv_key Htr _ Hcur) as [cells Hc].
    rewrite (djikstra_step_end Q maze st current open cells) in Hstep; done. }
  destruct (decide (is_closed (closed st) (djikstra_node_state current))) as [Hcl|Hncl].
  - unfold djikstra_step in Hstep. rewrite Hget in Hstep.
    destruct (decide _); [done|].
    unfold is_closed, djikstra_node_state in Hcl. rewrite Hcl in Hstep.
    injection Hstep as <-. simpl. lia.
  - destruct (tinv_key Htr _ Hcur) as [here Hhere].
    destruct (djikstra_step_expand Q maze st current open here Hget He Hncl Hhere)
      as (st'' & Hstep' & Hclosed & Hitems & _).
    rewrite Hstep in Hstep'. injection Hstep' as <-.
    rewrite Hclosed, (Permutation_length Hitems), length_app.
    pose proof (unclosed_insert_lt _ _ _ Hin Hncl) as Hlt.
    destruct (is_wall maze _); simpl; lia.
Qed.

Lemma find_djikstra_finishes :
  ∃ fuel, find_djikstra Q fuel maze reindeer direction_default ≠ OutOfFuel.
Proof.
  eexists. unfold find_djikstra.
  apply (run_terminates (djikstra_step Q maze) djikstra_invs djikstra_measure).
  - apply djikstra_step_measure.
  - split; [apply djikstra_init_inv|apply trails_init_inv].
Qed.
End djikstra_finishes.

Section astar_finishes.
Context (Q : PriorityQueue NodeAStar.t NodeAStar.lt).
Context (maze : Maze.t) (reindeer : Point.t) (direction_default : Direction.t).
Context (Hcardinal : cardinal direction_default).
Context (region : list State).

Local Abbreviation items st := (pq_items Q (astar_open Q st)).
Local Abbreviation closed st := (astar_closed Q st).
Local Abbreviation astar_inv := (astar_inv Q maze reindeer direction_default).
Local Abbreviation astar_measure := (astar_measure Q region).

Context (Hregion : ∀ st current open,
  astar_inv st → pq_get Q (astar_open Q st) = Some (current, open) →
  astar_node_state current ∈ region).

Lemma astar_step_measure st st' :
  astar_inv st → astar_step Q maze st = Next st' →
  astar_inv st' ∧ (astar_measure st' < astar_measure st)%nat.
Proof.
  intros Hinv Hstep. split; [by eapply astar_step_inv|].
  destruct (pq_get Q (astar_open Q st)) as [[current open]|] eqn:Hget;
    [|by unfold astar_step in Hstep; rewrite Hget in Hstep].
  pose proof (Hregion _ _ _ Hinv Hget) as Hin.
  destruct (pq_get_Some Q _ _ _ Hget) as [Hperm _].
  unfold astar_measure. rewrite (Permutation_length Hperm). simpl.
  destruct (decide (NodeAStar.point current = Maze.end_ maze)) as [He|He].
  { rewrite (astar_step_end Q maze st current open) in Hstep; done. }
  destruct (decide (is_closed (closed st) (astar_node_state current))) as [Hcl|Hncl].
  - unfold astar_step in Hstep. rewrite Hget in Hstep.
    destruct (decide _); [done|].
    unfold is_closed, astar_node_state in Hcl. rewrite Hcl in Hstep.
    injection Hstep as <-. simpl. lia.
  - destruct (astar_step_expand Q maze st current open Hget He Hncl)
      as (st'' & Hstep' & Hclosed & Hitems).
    rewrite Hstep in Hstep'. injection Hstep' as <-.
    rewrite Hclosed, (Permutation_length Hitems), length_app.
    pose proof (unclosed_insert_lt _ _ _ Hin Hncl) as Hlt.
    destruct (is_wall maze _); simpl; lia.
Qed.

Lemma find_astar_finishes :
  ∃ fuel, find_astar Q fuel maze reindeer direction_default ≠ OutOfFuel.
Proof.
  eexists. unfold find_astar.
  apply (run_terminates (astar_step Q maze) astar_inv astar_measure).
  - apply astar_step_measure.
  - by apply astar_init_inv.
Qed.
End astar_finishes.

(** ** The searches return when the end cell can be reached *)

Section searches_return.
Context (maze : Maze.t) (reindeer : Point.t) (direction_default : Direction.t).
Context (Hcardinal : cardinal direction_default).
Context (d_end : Direction.t) (c_end : Z).
Context (Hend : reach maze reindeer direction_default (d_end, Maze.end_ maze) c_end).

(** A walk of cost at most [c_end] stays within [c_end] cells of the
    start. *)
Lemma reach_states_within s c :
  reach maze reindeer direction_default s c → c ≤ c_end →
  s ∈ states_within reindeer c_end.
Proof.
  intros Hr Hle. destruct s as [d p].
  pose proof (reach_lower_bound _ _ _ _ _ Hcardinal Hr) as Hlb.
  apply elem_of_states_within.
  - apply (reach_cardinal _ _ _ _ _ Hcardinal Hr).
  - simpl in *. destruct (decide _); lia.
Qed.

Section djikstra.
Context (Q : PriorityQueue NodeDjikstra.t NodeDjikstra.lt).

(** While the end can be reached, [open] is not empty and its least
    entry costs no more than the walk to the end. *)
Lemma djikstra_pop_bound st :
  djikstra_inv Q maze reindeer direction_default st →
  ∃ current open,
    pq_get Q (djikstra_open Q st) = Some (current, open)
    ∧ NodeDjikstra.cost current ≤ c_end.
Proof.
  intros Hinv.
  destruct (djikstra_frontier _ _ _ _ _ _ _ Hinv Hend) as [Hcl|(n & Hn & Hc)].
  { by apply (inv_closed_end Hinv) in Hcl. }
  destruct (pq_get Q (djikstra_open Q st)) as [[current open]|] eqn:Hget.
  - exists current, open. split; [done|].
    destruct (pq_get_Some Q _ _ _ Hget) as [Hperm Hmin].
    rewrite Hperm, elem_of_cons in Hn. destruct Hn as [->|Hn]; [done|].
    rewrite Forall_forall in Hmin. specialize (Hmin _ Hn).
    unfold NodeDjikstra.lt in Hmin. lia.
  - apply pq_get_None in Hget. rewrite Hget in Hn. by apply elem_of_nil in Hn.
Qed.

(** With a walk to the end cell at hand, enough fuel makes
    [find_djikstra] return. *)
Theorem find_djikstra_returns :
  ∃ fuel cost cells,
    find_djikstra Q fuel maze reindeer direction_default = Returned (cost, cells).
Proof.
  destruct (find_djikstra_finishes Q maze reindeer direction_default
              (states_within reindeer c_end)) as [fuel Hfuel].
  { intros st current open [Hinv _] Hget.
    destruct (djikstra_pop_bound _ Hinv) as (current' & open' & Hget' & Hle).
    rewrite Hget in Hget'. injection Hget' as <- <-.
    apply (reach_states_within _ (NodeDjikstra.cost current)); [|done].
    apply (inv_open_reach Hinv).
    destruct (pq_get_Some Q _ _ _ Hget) as [-> _]. by left. }
  exists fuel.
  destruct (find_djikstra _ _ _ _ _) as [[cost cells]|e|] eqn:E; [eauto| |done].
  exfalso. unfold find_djikstra in E.
  apply run_Raised in E as (k & st & _ & Hit & Hstep).
  destruct (djikstra_pop_bound st) as (current & open & Hget & _).
  { by eapply djikstra_iterate_inv. }
  apply (djikstra_step_Raise Q maze reindeer st e) in Hstep as [Hnone _].
  - congruence.
  - by eapply trails_iterate_inv.
Qed.
End djikstra.

Section astar.
Context (Q : PriorityQueue NodeAStar.t NodeAStar.lt).

(** While the end can be reached, [open] is not empty and its least
    entry has a [g] no larger than the cost of the walk to the end. *)
Lemma astar_pop_bound st :
  astar_inv Q maze reindeer direction_default st →
  ∃ current open,
    pq_get Q (astar_open Q st) = Some (current, open)
    ∧ NodeAStar.g current ≤ c_end.
Proof.
  intros Hinv.
  destruct (astar_frontier _ _ _ _ Hcardinal _ _ _ Hinv Hend) as [Hcl|(n & Hn & Hc)].
  { by apply (ainv_closed_end Hinv) in Hcl. }
  simpl in Hc. rewrite (proj2 (distance_to_end_0 maze _) eq_refl) in Hc.
  destruct (pq_get Q (astar_open Q st)) as [[current open]|] eqn:Hget.
  - exists current, open. split; [done|].
    destruct (pq_get_Some Q _ _ _ Hget) as [Hperm Hmin].
    assert (Hcur : current ∈ pq_items Q (astar_open Q st)) by (rewrite Hperm; by left).
    pose proof (ainv_open_h Hinv _ Hcur) as Hh.
    pose proof (distance_to_end_nonneg maze (NodeAStar.point current)) as Hpos.
    rewrite Hperm, elem_of_cons in Hn. destruct Hn as [->|Hn].
    + unfold NodeAStar.f in Hc. lia.
    + rewrite Forall_forall in Hmin. specialize (Hmin _ Hn).
      unfold NodeAStar.lt, NodeAStar.f in *. lia.
  - apply pq_get_None in Hget. rewrite Hget in Hn. by apply elem_of_nil in Hn.
Qed.

(** With a walk to the end cell at hand, enough fuel makes [find_astar]
    return. *)
Theorem find_astar_returns :
  ∃ fuel cost trail,
    find_astar Q fuel maze reindeer direction_default = Returned (cost, trail).
Proof.
  destruct (find_astar_finishes Q maze reindeer direction_default Hcardinal
              (states_within reindeer c_end)) as [fuel Hfuel].
  { intros st current open Hinv Hget.
    destruct (astar_pop_bound _ Hinv) as (current' & open' & Hget' & Hle).
    rewrite Hget in Hget'. injection Hget' as <- <-.
    apply (reach_states_within _ (NodeAStar.g current)); [|done].
    apply (ainv_open_reach Hinv).
    destruct (pq_get_Some Q _ _ _ Hget) as [-> _]. by left. }
  exists fuel.
  destruct (find_astar _ _ _ _ _) as [[cost trail]|e|] eqn:E; [eauto| |done].
  exfalso. unfold find_astar in E.
  apply run_Raised in E as (k & st & _ & Hit & Hstep).
  destruct (astar_pop_bound st) as (current & open & Hget & _).
  { by eapply astar_iterate_inv. }
  apply astar_step_Raise in Hstep as [Hnone _]. congruence.
Qed.
End astar.
End searches_return.

(** ** The searches raise when the start is shut in

    [region] holds the start state, is closed under the moves, and has no
    state at the end cell. *)

Section searches_raise.
Context (maze : Maze.t) (reindeer : Point.t) (direction_default : Direction.t).
Context (region : list State).
Context (Hstart : (direction_default, reindeer) ∈ region).
Context (Hmoves : ∀ s w t, s ∈ region → edge maze s w t → t ∈ region).
Context (Hno_end : ∀ s, s ∈ region → s.2 ≠ Maze.end_ maze).

Lemma reach_region s c :
  reach maze reindeer direction_default s c → s ∈ region.
Proof. induction 1; eauto. Qed.

Theorem find_djikstra_raises (Q : PriorityQueue NodeDjikstra.t NodeDjikstra.lt) :
  ∃ fuel, find_djikstra Q fuel maze reindeer direction_default = Raised RouteNotFound.
Proof.
  destruct (find_djikstra_finishes Q maze reindeer direction_default region)
    as [fuel Hfuel].
  { intros st current open [Hinv _] Hget.
    apply (reach_region _ (NodeDjikstra.cost current)).
    apply (inv_open_reach Hinv).
    destruct (pq_get_Some Q _ _ _ Hget) as [-> _]. by left. }
  exists fuel.
  destruct (find_djikstra _ _ _ _ _) as [[cost cells]|e|] eqn:E; [|
    by apply find_djikstra_Raised in E as [-> _] | done].
  exfalso. apply find_djikstra_best_cost in E as [[d Hr] _].
  by apply reach_region, Hno_end in Hr.
Qed.

Theorem find_astar_raises (Q : PriorityQueue NodeAStar.t NodeAStar.lt) :
  cardinal direction_default →
  ∃ fuel, find_astar Q fuel maze reindeer direction_default = Raised RouteNotFound.
Proof.
  intros Hcardinal.
  destruct (find_astar_finishes Q maze reindeer direction_default Hcardinal region)
    as [fuel Hfuel].
  { intros st current open Hinv Hget.
    apply (reach_region _ (NodeAStar.g current)).
    apply (ainv_open_reach Hinv).
    destruct (pq_get_Some Q _ _ _ Hget) as [-> _]. by left. }
  exists fuel.
  destruct (find_astar _ _ _ _ _) as [[cost trail]|e|] eqn:E; [|
    by apply find_astar_Raised in E as [-> _] | done].
  exfalso. apply find_astar_best_cost in E as [[d Hr] _]; [|done].
  by apply reach_region, Hno_end in Hr.
Qed.
End searches_raise.

(** ** The walled-in start *)

Lemma edge_moves maze s w t :
  edge maze s w t → is_wall maze s.2 = false ∧ t ∈ moves s.
Proof.
  intros [d p Hw|d p Hw|d p Hw]; (split; [done|]); unfold moves; simpl.
  - by left.
  - right. by left.
  - right. right. by left.
Qed.

Lemma walled_in_region_moves s w t :
  s ∈ walled_in_region → edge walled_in s w t → t ∈ walled_in_region.
Proof.
  intros Hs [Hw Ht]%edge_moves.
  assert (Hall : Forall (λ s, is_wall walled_in s.2 = false →
                              Forall (λ t, t ∈ walled_in_region) (moves s))
                   walled_in_region) by compute_done.
  rewrite Forall_forall in Hall. specialize (Hall _ Hs Hw).
  rewrite Forall_forall in Hall. by apply Hall.
Qed.

Lemma walled_in_region_no_end s :
  s ∈ walled_in_region → s.2 ≠ Maze.end_ walled_in.
Proof.
  intros Hs.
  assert (Hall : Forall (λ s : State, s.2 ≠ Maze.end_ walled_in) walled_in_region)
    by compute_done.
  rewrite Forall_forall in Hall. by apply Hall.
Qed.

(** Whatever the queue, both searches raise on [walled_in]. *)
Lemma walled_in_raises
    (QA : PriorityQueue NodeAStar.t NodeAStar.lt)
    (QD : PriorityQueue NodeDjikstra.t NodeDjikstra.lt) :
  (∃ fuel, find_astar QA fuel walled_in (Point.mk 1 1) East = Raised RouteNotFound)
  ∧ (∃ fuel, find_djikstra QD fuel walled_in (Point.mk 1 1) East = Raised RouteNotFound).
Proof.
  assert (Hstart : (East, Point.mk 1 1) ∈ walled_in_region) by compute_done.
  split.
  - apply (find_astar_raises walled_in (Point.mk 1 1) East walled_in_region Hstart
             walled_in_region_moves walled_in_region_no_end QA cardinal_East).
  - apply (find_djikstra_raises walled_in (Point.mk 1 1) East walled_in_region Hstart
             walled_in_region_moves walled_in_region_no_end QD).
Qed.

(** ** Route not found *)

(** C5: each search raises exactly when its [open] queue is found empty
    after some passes none of which popped a node at the end cell; the
    exception is then "Route is not found" and no run of that search
    returns a value.  So it is on [walled_in], where the start is walled
    off from the end. *)
Theorem raises_iff_open_exhausted
    (QA : PriorityQueue NodeAStar.t NodeAStar.lt)
    (QD : PriorityQueue NodeDjikstra.t NodeDjikstra.lt) :
  (∀ (maze : Maze.t) (reindeer : Point.t) (direction_default : Direction.t),
     ((∃ fuel e, find_astar QA fuel maze reindeer direction_default = Raised e)
        ↔ astar_exhausted QA maze reindeer direction_default)
     ∧ (∀ fuel e, find_astar QA fuel maze reindeer direction_default = Raised e →
          e = RouteNotFound)
     ∧ (astar_exhausted QA maze reindeer direction_default →
          ∀ fuel r, find_astar QA fuel maze reindeer direction_default ≠ Returned r)
     ∧ ((∃ fuel e, find_djikstra QD fuel maze reindeer direction_default = Raised e)
          ↔ djikstra_exhausted QD maze reindeer direction_default)
     ∧ (∀ fuel e, find_djikstra QD fuel maze reindeer direction_default = Raised e →
          e = RouteNotFound)
     ∧ (djikstra_exhausted QD maze reindeer direction_default →
          ∀ fuel r, find_djikstra QD fuel maze reindeer direction_default ≠ Returned r))
  ∧ (∃ fuel, find_astar QA fuel walled_in (Point.mk 1 1) East = Raised RouteNotFound)
  ∧ (∃ fuel, find_djikstra QD fuel walled_in (Point.mk 1 1) East = Raised RouteNotFound).
Proof.
  split; [|apply walled_in_raises].
  intros maze reindeer direction_default. repeat split.
  - intros (fuel & e & H). by apply find_astar_Raised in H as [_ ?].
  - intros H. apply astar_exhausted_Raised in H as [fuel H]. eauto.
  - intros fuel e H. by apply find_astar_Raised in H as [? _].
  - intros H fuel r. apply astar_exhausted_Raised in H as [fuel' H].
    unfold find_astar in *. by eapply run_Raised_not_Returned.
  - intros (fuel & e & H). by apply find_djikstra_Raised in H as [_ ?].
  - intros H. apply djikstra_exhausted_Raised in H as [fuel H]. eauto.
  - intros fuel e H. by apply find_djikstra_Raised in H as [? _].
  - intros H fuel r. apply djikstra_exhausted_Raised in H as [fuel' H].
    unfold find_djikstra in *. by eapply run_Raised_not_Returned.
Qed.

(** ** The set [find_djikstra] returns *)

Section djikstra_cells.
Context (Q : PriorityQueue NodeDjikstra.t NodeDjikstra.lt).
Context (maze : Maze.t) (reindeer : Point.t) (direction_default : Direction.t).

Local Abbreviation reach := (reach maze reindeer direction_default).
Local Abbreviation least_cost := (least_cost maze reindeer direction_default).
Local Abbreviation merged_trail := (merged_trail maze reindeer direction_default).
Local Abbreviation djikstra_inv := (djikstra_inv Q maze reindeer direction_default).
Local Abbreviation items st := (pq_items Q (djikstra_open Q st)).
Local Abbreviation closed st := (djikstra_closed Q st).
Local Abbreviation trails st := (djikstra_trails Q st).
Local Abbreviation cells_inv := (cells_inv Q maze reindeer direction_default).
Local Abbreviation trails_inv := (trails_inv Q reindeer).
Local Abbreviation djikstra_all_inv := (djikstra_all_inv Q maze reindeer direction_default).

(** When a node is popped the entries of all keys that cost no more than
    the node are complete. *)
Lemma cells_complete st current open p c cell :
  djikstra_inv st → cells_inv st →
  pq_get Q (djikstra_open Q st) = Some (current, open) →
  c ≤ NodeDjikstra.cost current →
  merged_trail (p, c) cell →
  ∃ cells, trails st !! (p, c) = Some cells ∧ cell ∈ cells.
Proof.
  intros Hinv Hc Hget Hle Hm.
  destruct (pq_get_Some Q _ _ _ Hget) as [Hperm Hmin].
  assert (Hclosed : ∀ s c0 w t, least_cost s c0 → edge maze s w t →
            c0 + w ≤ NodeDjikstra.cost current → is_closed (closed st) s).
  { intros s c0 w t [Hr _] He Hc0. pose proof (edge_cost_pos _ _ _ _ He) as Hw.
    destruct (djikstra_frontier _ _ _ _ _ _ _ Hinv Hr) as [?|(n & Hn & Hcn)]; [done|].
    exfalso. rewrite Hperm, elem_of_cons in Hn. destruct Hn as [->|Hn]; [lia|].
    rewrite Forall_forall in Hmin. specialize (Hmin _ Hn).
    unfold NodeDjikstra.lt in Hmin. lia. }
  inversion Hm as [|s c0 w t Hl He|s c0 w t cell' Hl He Hb]; subst.
  - apply (cinv_start Hc).
  - destruct (cinv_closed Hc s c0 w t) as (cells & Hk & Ht & _); eauto.
  - destruct (cinv_closed Hc s c0 w t) as (cells & Hk & _ & Hall); eauto.
Qed.

Lemma cells_init_inv : cells_inv (djikstra_init Q reindeer direction_default).
Proof.
  split; simpl.
  - exists {[ reindeer ]}. rewrite lookup_singleton_eq. split; [done|].
    by apply elem_of_singleton.
  - intros key cells cell. rewrite lookup_singleton_Some. intros [<- <-].
    rewrite elem_of_singleton. intros ->. constructor.
  - intros s c w t Hs. by apply is_closed_empty in Hs.
Qed.

Lemma cells_step_inv st st' :
  djikstra_inv st → trails_inv st → cells_inv st →
  djikstra_step Q maze st = Next st' → cells_inv st'.
Proof.
  intros Hinv Htr Hc Hstep.
  pose proof (djikstra_step_grow Q maze st st' Hstep) as Hgrow.
  assert (Hold : ∀ s c w t,
    is_closed (closed st) s → least_cost s c → edge maze s w t →
    ∃ cells, trails st' !! (t.2, c + w) = Some cells
             ∧ t.2 ∈ cells
             ∧ ∀ cell, merged_trail (s.2, c) cell → cell ∈ cells).
  { intros s c w t Hs Hl He.
    destruct (cinv_closed Hc s c w t Hs Hl He) as (cells & Hk & Ht & Hall).
    destruct (Hgrow _ _ Hk) as (cells' & Hk' & Hsub).
    exists cells'. split; [done|]. split; [by apply Hsub|].
    intros cell Hcell. by apply Hsub, Hall. }
  assert (Hstart : ∃ cells, trails st' !! (reindeer, 0) = Some cells ∧ reindeer ∈ cells).
  { destruct (cinv_start Hc) as (cells & Hk & Hin).
    destruct (Hgrow _ _ Hk) as (cells' & Hk' & Hsub).
    exists cells'. split; [done|]. by apply Hsub. }
  destruct (pq_get Q (djikstra_open Q st)) as [[current open]|] eqn:Hget;
    [|by unfold djikstra_step in Hstep; rewrite Hget in Hstep].
  destruct (pq_get_Some Q _ _ _ Hget) as [Hperm _].
  assert (Hcur : current ∈ items st) by (rewrite Hperm; by left).
  destruct (tinv_key Htr _ Hcur) as [here Hhere].
  destruct (decide (NodeDjikstra.point current = Maze.end_ maze)) as [He|He].
  { rewrite (djikstra_step_end Q maze st current open here) in Hstep; done. }
  destruct (decide (is_closed (closed st) (djikstra_node_state current))) as [Hcl|Hncl].
  { unfold djikstra_step in Hstep. rewrite Hget in Hstep.
    destruct (decide _); [done|].
    unfold is_closed, djikstra_node_state in Hcl. rewrite Hcl in Hstep.
    injection Hstep as <-. by destruct Hc. }
  pose proof (djikstra_pop_least _ _ _ _ _ _ _ Hinv Hget Hncl) as Hleast.
  assert (Hhere_all : ∀ cell,
    merged_trail (NodeDjikstra.point current, NodeDjikstra.cost current) cell →
    cell ∈ here).
  { intros cell Hm.
    destruct (cells_complete st current open _ _ cell Hinv Hc Hget (Z.le_refl _) Hm)
      as (cells & Hk & Hin).
    rewrite Hhere in Hk. by injection Hk as <-. }
  assert (Hhere_sound : ∀ cell, cell ∈ here →
    merged_trail (NodeDjikstra.point current, NodeDjikstra.cost current) cell).
  { intros cell. by apply (cinv_sound Hc). }
  destruct (djikstra_step_expand Q maze st current open here Hget He Hncl Hhere)
    as (st'' & Hstep' & Hclosed & _ & Htrails).
  rewrite Hstep in Hstep'. injection Hstep' as <-.
  set (d := NodeDjikstra.direction current) in *.
  set (p := NodeDjikstra.point current) in *.
  set (c := NodeDjikstra.cost current) in *.
  change (djikstra_node_state current) with (d, p) in *.
  split; [done| |].
  - (* every cell of an entry is on a merged trail *)
    intros key cells cell. rewrite Htrails.
    destruct (is_wall maze p) eqn:Hw; [apply (cinv_sound Hc)|]. simpl.
    destruct (decide (key = (p, c + 1000))) as [->|Hne1].
    { rewrite lookup_insert_eq. intros [= <-].
      rewrite !elem_of_union, elem_of_singleton. intros [[Hin|Hin]| ->].
      - destruct (trails st !! (p, c + 1000)) as [old|] eqn:Hold'; simpl in Hin.
        + by eapply (cinv_sound Hc).
        + by apply not_elem_of_empty in Hin.
      - apply (merged_before _ _ _ (d, p) c COST_ROTATE (Direction.mul d RotateLeft, p));
          [done|by constructor|by apply Hhere_sound].
      - apply (merged_here _ _ _ (d, p) c COST_ROTATE (Direction.mul d RotateLeft, p));
          [done|by constructor]. }
    rewrite lookup_insert_ne by done.
    destruct (decide (key = (Point.add p d, c + 1))) as [->|Hne2].
    { rewrite lookup_insert_eq. intros [= <-].
      rewrite !elem_of_union, elem_of_singleton. intros [[Hin|Hin]| ->].
      - destruct (trails st !! (Point.add p d, c + 1)) as [old|] eqn:Hold'; simpl in Hin.
        + by eapply (cinv_sound Hc).
        + by apply not_elem_of_empty in Hin.
      - apply (merged_before _ _ _ (d, p) c COST_FORWARD (d, Point.add p d));
          [done|by constructor|by apply Hhere_sound].
      - apply (merged_here _ _ _ (d, p) c COST_FORWARD (d, Point.add p d));
          [done|by constructor]. }
    rewrite lookup_insert_ne by done. apply (cinv_sound Hc).
  - (* the moves out of closed states have been merged *)
    intros s c0 w t Hs Hl He0. rewrite Hclosed in Hs.
    apply is_closed_insert in Hs as [<-|Hs]; [|by apply Hold].
    rewrite (least_cost_unique _ _ _ _ _ _ Hl Hleast). clear Hl c0.
    rewrite Htrails. pose proof (edge_not_wall _ _ _ _ He0) as Hw. simpl in Hw.
    rewrite Hw. simpl.
    assert (Hft : (p, c + 1000) ≠ (Point.add p d, c + 1)) by (intros [= _ ?]; lia).
    inversion He0 as [d' p' _|d' p' _|d' p' _]; subst d' p' w t; simpl;
      unfold COST_FORWARD, COST_ROTATE.
    + rewrite lookup_insert_ne, lookup_insert_eq by done.
      eexists. split; [done|]. split.
      * apply elem_of_union. right. by apply elem_of_singleton.
      * intros cell Hcell. apply elem_of_union. left. apply elem_of_union. right. auto.
    + rewrite lookup_insert_eq.
      eexists. split; [done|]. split.
      * apply elem_of_union. right. by apply elem_of_singleton.
      * intros cell Hcell. apply elem_of_union. left. apply elem_of_union. right. auto.
    + rewrite lookup_insert_eq.
      eexists. split; [done|]. split.
      * apply elem_of_union. right. by apply elem_of_singleton.
      * intros cell Hcell. apply elem_of_union. left. apply elem_of_union. right. auto.
Qed.

Lemma djikstra_iterate_all_inv k st :
  iterate (djikstra_step Q maze) k (djikstra_init Q reindeer direction_default) = Some st →
  djikstra_all_inv st.
Proof.
  apply (iterate_invariant _ djikstra_all_inv).
  - intros s s' (H1 & H2 & H3) Hstep. split; [|split].
    + by eapply djikstra_step_inv.
    + by eapply trails_step_inv.
    + by eapply cells_step_inv.
  - split; [apply djikstra_init_inv|]. split; [apply trails_init_inv|apply cells_init_inv].
Qed.

(** The set returned is the merged trail of the key (end cell, cost
    returned): it does not depend on how the queue breaks ties. *)
Theorem find_djikstra_cells fuel cost cells :
  find_djikstra Q fuel maze reindeer direction_default = Returned (cost, cells) →
  ∀ cell, cell ∈ cells ↔ merged_trail (Maze.end_ maze, cost) cell.
Proof.
  unfold find_djikstra. rewrite run_Returned.
  intros (k & st & _ & Hit & Hstep) cell.
  destruct (djikstra_iterate_all_inv _ _ Hit) as (Hinv & Htr & Hc).
  unfold djikstra_step in Hstep.
  destruct (pq_get Q (djikstra_open Q st)) as [[current open]|] eqn:Hget; [|done].
  destruct (decide (NodeDjikstra.point current = Maze.end_ maze)) as [Hend|Hend].
  - destruct (djikstra_trails Q st !! _) as [cells'|] eqn:Hk; [|done].
    injection Hstep as <- <-. rewrite <- Hend. split.
    + by apply (cinv_sound Hc).
    + intros Hm.
      destruct (cells_complete st current open _ _ cell Hinv Hc Hget (Z.le_refl _) Hm)
        as (cells'' & Hk' & Hin).
      rewrite Hk in Hk'. by injection Hk' as <-.
  - destruct (default false _); [done|].
    by destruct (foldl _ _ _) as [[? ?]|].
Qed.
End djikstra_cells.

(** ** Determinism *)

(** C9: for a fixed maze, start cell and start heading, two runs of
    [find_astar] that return give the same result, and the same cost
    even when their queues break ties differently (heading cardinal);
    two runs of [find_djikstra] that return give the same cost and the
    same set of cells, whatever the tie-breaking. *)
Theorem searches_deterministic
    (maze : Maze.t) (reindeer : Point.t) (direction_default : Direction.t) :
  (∀ (QA : PriorityQueue NodeAStar.t NodeAStar.lt) fuel1 fuel2 r1 r2,
     find_astar QA fuel1 maze reindeer direction_default = Returned r1 →
     find_astar QA fuel2 maze reindeer direction_default = Returned r2 →
     r1 = r2)
  ∧ (cardinal direction_default →
     ∀ (QA1 QA2 : PriorityQueue NodeAStar.t NodeAStar.lt)
       fuel1 fuel2 cost1 cost2 (trail1 trail2 : Trail),
       find_astar QA1 fuel1 maze reindeer direction_default = Returned (cost1, trail1) →
       find_astar QA2 fuel2 maze reindeer direction_default = Returned (cost2, trail2) →
       cost1 = cost2)
  ∧ (∀ (QD1 QD2 : PriorityQueue NodeDjikstra.t NodeDjikstra.lt)
       fuel1 fuel2 cost1 cost2 (cells1 cells2 : gset Point.t),
       find_djikstra QD1 fuel1 maze reindeer direction_default = Returned (cost1, cells1) →
       find_djikstra QD2 fuel2 maze reindeer direction_default = Returned (cost2, cells2) →
       cost1 = cost2 ∧ cells1 = cells2).
Proof.
  split; [|split].
  - intros QA fuel1 fuel2 r1 r2 H1 H2. unfold find_astar in *.
    assert (H : run (astar_step QA maze) fuel1
                  (astar_init QA maze reindeer direction_default)
                = run (astar_step QA maze) fuel2
                    (astar_init QA maze reindeer direction_default)).
    { apply run_agree; congruence. }
    congruence.
  - intros Hd QA1 QA2 fuel1 fuel2 cost1 cost2 trail1 trail2 H1 H2.
    eapply best_cost_unique; eapply find_astar_best_cost; eauto.
  - intros QD1 QD2 fuel1 fuel2 cost1 cost2 cells1 cells2 H1 H2.
    assert (Hcost : cost1 = cost2).
    { eapply best_cost_unique; eapply find_djikstra_best_cost; eauto. }
    split; [done|]. subst cost2.
    apply set_eq. intros cell.
    rewrite (find_djikstra_cells _ _ _ _ _ _ _ H1 cell).
    by rewrite (find_djikstra_cells _ _ _ _ _ _ _ H2 cell).
Qed.

(** On [fork] both queues, which break ties in opposite ways, give
    cost 3004 and the eight cells of the two routes. *)
Lemma searches_deterministic_witness :
  find_djikstra djikstra_queue 200 fork (Point.mk 2 3) North = Returned (3004, fork_cells)
  ∧ find_djikstra djikstra_stack 200 fork (Point.mk 2 3) North = Returned (3004, fork_cells)
  ∧ (3004 = 3004 ∧ fork_cells = fork_cells).
Proof.
  split; [vm_compute; reflexivity|]. split; [vm_compute; reflexivity|].
  eapply (proj2 (proj2 (searches_deterministic fork (Point.mk 2 3) North))
            djikstra_queue djikstra_stack 200%nat 200%nat 3004 3004).
  - vm_compute; reflexivity.
  - vm_compute; reflexivity.
Defined.

(** ** Straight corridors *)

Lemma shift_0 p d : shift p d 0 = p.
Proof. destruct p. unfold shift. simpl. f_equal; lia. Qed.

Lemma shift_add p d k : Point.add (shift p d k) d = shift p d (k + 1).
Proof. unfold Point.add, shift. simpl. f_equal; lia. Qed.

Lemma shift_distance p d k :
  cardinal d → 0 ≤ k →
  Z.abs (Point.x (shift p d k) - Point.x p) + Z.abs (Point.y (shift p d k) - Point.y p) = k.
Proof.
  intros Hd Hk. apply cardinal_cases in Hd.
  destruct Hd as [-> | [-> | [-> | ->]]]; simpl; lia.
Qed.

Lemma shift_inj p d k1 k2 : cardinal d → shift p d k1 = shift p d k2 → k1 = k2.
Proof.
  intros Hd. apply cardinal_cases in Hd. unfold shift.
  destruct Hd as [-> | [-> | [-> | ->]]]; simpl; intros [= ? ?]; lia.
Qed.

Lemma elem_of_corridor_cells start d n cell :
  cell ∈ corridor_cells start d n ↔ ∃ j, 0 ≤ j ≤ n ∧ cell = shift start d j.
Proof.
  unfold corridor_cells. rewrite elem_of_list_to_set, list_elem_of_fmap.
  split.
  - intros (j & -> & Hj%elem_of_seqZ). exists j. split; [lia|done].
  - intros (j & Hj & ->). exists j. split; [done|]. apply elem_of_seqZ. lia.
Qed.

Lemma size_corridor_cells start d n :
  cardinal d → 0 ≤ n → size (corridor_cells start d n) = Z.to_nat (n + 1).
Proof.
  intros Hd Hn. unfold corridor_cells. rewrite size_list_to_set.
  - by rewrite length_fmap, length_seqZ.
  - apply NoDup_fmap_2_strong; [|apply NoDup_seqZ].
    intros k1 k2 _ _. by apply shift_inj.
Qed.

Section corridor.
Context (maze : Maze.t) (reindeer : Point.t) (direction_default : Direction.t) (n : Z).
Context (Hcorridor : corridor maze reindeer direction_default n).

Local Abbreviation reach := (reach maze reindeer direction_default).
Local Abbreviation least_cost := (least_cost maze reindeer direction_default).
Local Abbreviation merged_trail := (merged_trail maze reindeer direction_default).

Lemma corridor_cardinal : cardinal direction_default.
Proof. apply Hcorridor. Qed.

(** Walking straight on reaches the [i]-th cell at cost [i]. *)
Lemma corridor_reach i :
  0 ≤ i ≤ n → reach (direction_default, shift reindeer direction_default i) i.
Proof.
  destruct Hcorridor as (Hd & Hn & Hend & Hopen).
  intros [Hi Hle]. revert Hle. pattern i. apply natlike_ind; [| |done].
  - intros _. rewrite shift_0. constructor.
  - intros k Hk IH Hle. unfold Z.succ. rewrite <- shift_add.
    apply (reach_edge _ _ _ (direction_default, shift reindeer direction_default k)
             k COST_FORWARD).
    + apply IH. lia.
    + constructor. apply Hopen. lia.
Qed.

Lemma corridor_least_cost i :
  0 ≤ i ≤ n → least_cost (direction_default, shift reindeer direction_default i) i.
Proof.
  intros Hi. split; [by apply corridor_reach|].
  intros c' Hc'.
  pose proof (reach_lower_bound _ _ _ _ _ corridor_cardinal Hc') as Hlb. cbn [fst snd] in Hlb.
  rewrite shift_distance in Hlb by (apply corridor_cardinal || lia).
  rewrite decide_True in Hlb by done. lia.
Qed.

Lemma corridor_best_cost : best_cost maze reindeer direction_default n.
Proof.
  destruct Hcorridor as (Hd & Hn & Hend & Hopen). split.
  - exists direction_default. rewrite Hend. apply corridor_reach. lia.
  - intros d c' Hc'.
    pose proof (reach_lower_bound _ _ _ _ _ Hd Hc') as Hlb. cbn [fst snd] in Hlb.
    rewrite Hend, shift_distance in Hlb by done.
    destruct (decide _); lia.
Qed.

Lemma corridor_reach_end :
  reach (direction_default, Maze.end_ maze) n.
Proof.
  destruct Hcorridor as (Hd & Hn & Hend & Hopen).
  rewrite Hend. apply corridor_reach. lia.
Qed.

(** A walk that costs less than the distance covered plus one rotation
    went straight on. *)
Lemma reach_straight s c :
  reach s c →
  c < Z.abs (Point.x s.2 - Point.x reindeer) + Z.abs (Point.y s.2 - Point.y reindeer) + 1000 →
  s = (direction_default, shift reindeer direction_default c).
Proof.
  induction 1 as [|s c w t Hs IH He]; intros Hlt.
  - by rewrite shift_0.
  - pose proof (reach_lower_bound _ _ _ _ _ corridor_cardinal Hs) as Hlb.
    destruct He as [d p Hw|d p Hw|d p Hw]; simpl in *;
      unfold COST_FORWARD, COST_ROTATE in *.
    + assert (Hs' : (d, p) = (direction_default, shift reindeer direction_default c)).
      { apply IH. pose proof corridor_cardinal as Hd.
        assert (Hcd : cardinal d) by apply (reach_cardinal _ _ _ _ _ Hd Hs).
        apply cardinal_cases in Hcd. destruct p as [a b]. simpl in *.
        destruct Hcd as [-> | [-> | [-> | ->]]]; simpl in *; lia. }
      injection Hs' as -> ->. by rewrite shift_add.
    + destruct (decide (d = direction_default)); lia.
    + destruct (decide (d = direction_default)); lia.
Qed.

Lemma corridor_merged_sound key cell :
  merged_trail key cell →
  key.2 < Z.abs (Point.x key.1 - Point.x reindeer)
          + Z.abs (Point.y key.1 - Point.y reindeer) + 1000 →
  ∃ j, 0 ≤ j ≤ key.2 ∧ cell = shift reindeer direction_default j.
Proof.
  induction 1 as [|s c w t Hl He|s c w t cell Hl He Hm IH]; simpl; intros Hlt.
  - exists 0. split; [lia|]. by rewrite shift_0.
  - destruct Hl as [Hr _].
    pose proof (reach_nonneg _ _ _ _ _ (reach_edge _ _ _ _ _ _ _ Hr He)) as Hpos.
    rewrite (reach_straight _ _ (reach_edge _ _ _ _ _ _ _ Hr He) Hlt). simpl.
    exists (c + w). split; [lia|done].
  - destruct Hl as [Hr _].
    pose proof (edge_cost_pos _ _ _ _ He) as Hw.
    destruct IH as (j & Hj & ->).
    + pose proof (reach_cardinal _ _ _ _ _ corridor_cardinal Hr) as Hcd.
      destruct He as [d p Hwall|d p Hwall|d p Hwall]; simpl in *;
        unfold COST_FORWARD, COST_ROTATE in *; [|lia..].
      apply cardinal_cases in Hcd. destruct p as [a b]. simpl in *.
      destruct Hcd as [-> | [-> | [-> | ->]]]; simpl in *; lia.
    + exists j. simpl in *. split; [lia|done].
Qed.

Lemma corridor_merged_complete i j :
  0 ≤ j ≤ i → i ≤ n →
  merged_trail (shift reindeer direction_default i, i) (shift reindeer direction_default j).
Proof.
  destruct Hcorridor as (Hd & Hn & Hend & Hopen).
  intros [Hj Hji] Hi. assert (Hi0 : 0 ≤ i) by lia.
  revert j Hj Hji Hi. pattern i. apply natlike_ind; [| |done].
  - intros j Hj Hji _. assert (j = 0) as -> by lia. rewrite shift_0. constructor.
  - intros k Hk IH j Hj Hji Hle. unfold Z.succ in *.
    assert (He : edge maze (direction_default, shift reindeer direction_default k)
                   COST_FORWARD
                   (direction_default, shift reindeer direction_default (k + 1))).
    { rewrite <- shift_add. constructor. apply Hopen. lia. }
    assert (Hl : least_cost (direction_default, shift reindeer direction_default k) k).
    { apply corridor_least_cost. lia. }
    destruct (decide (j = k + 1)) as [->|Hne].
    + apply (merged_here _ _ _ _ _ _ _ Hl He).
    + apply (merged_before _ _ _ _ _ _ _ _ Hl He). simpl. apply IH; lia.
Qed.
(** On a corridor [find_astar] returns, and returns the length. *)
Lemma corridor_find_astar (QA : PriorityQueue NodeAStar.t NodeAStar.lt) :
  (∃ fuel trail, find_astar QA fuel maze reindeer direction_default = Returned (n, trail))
  ∧ (∀ fuel cost trail,
       find_astar QA fuel maze reindeer direction_default = Returned (cost, trail) →
       cost = n).
Proof.
  assert (HA : ∀ fuel cost trail,
    find_astar QA fuel maze reindeer direction_default = Returned (cost, trail) →
    cost = n).
  { intros fuel cost trail H. eapply best_cost_unique; [|exact corridor_best_cost].
    eapply find_astar_best_cost; [apply corridor_cardinal|done]. }
  split; [|done].
  destruct (find_astar_returns maze reindeer direction_default corridor_cardinal
              _ _ corridor_reach_end QA) as (fuel & cost & trail & H).
  exists fuel, trail. by rewrite <- (HA _ _ _ H).
Qed.

(** On a corridor [find_djikstra] returns, and returns the length and
    the cells of the corridor. *)
Lemma corridor_find_djikstra (QD : PriorityQueue NodeDjikstra.t NodeDjikstra.lt) :
  (∃ fuel, find_djikstra QD fuel maze reindeer direction_default
           = Returned (n, corridor_cells reindeer direction_default n))
  ∧ (∀ fuel cost cells,
       find_djikstra QD fuel maze reindeer direction_default = Returned (cost, cells) →
       cost = n ∧ cells = corridor_cells reindeer direction_default n).
Proof.
  destruct Hcorridor as (Hd & Hn & Hend & Hopen).
  assert (HD : ∀ fuel cost cells,
    find_djikstra QD fuel maze reindeer direction_default = Returned (cost, cells) →
    cost = n ∧ cells = corridor_cells reindeer direction_default n).
  { intros fuel cost cells H.
    assert (cost = n) as ->.
    { eapply best_cost_unique; [|exact corridor_best_cost].
      by eapply find_djikstra_best_cost. }
    split; [done|]. apply set_eq. intros cell.
    rewrite (find_djikstra_cells _ _ _ _ _ _ _ H cell), elem_of_corridor_cells.
    split.
    - intros Hm. apply corridor_merged_sound in Hm; [done|].
      cbn [fst snd]. rewrite Hend, shift_distance by done. lia.
    - intros (j & Hj & ->). rewrite Hend. apply corridor_merged_complete; lia. }
  split; [|done].
  destruct (find_djikstra_returns maze reindeer direction_default Hd
              _ _ corridor_reach_end QD) as (fuel & cost & cells & H).
  exists fuel. destruct (HD _ _ _ H) as [<- <-]. done.
Qed.
End corridor.

(** C4: when the end lies [n] cells straight ahead of the start and no
    cell on the way is a wall, [find_astar] returns cost [n], and
    [find_djikstra] returns cost [n] with exactly the [n + 1] cells from
    the start to the end; no run returns anything else. *)
Theorem straight_corridor
    (QA : PriorityQueue NodeAStar.t NodeAStar.lt)
    (QD : PriorityQueue NodeDjikstra.t NodeDjikstra.lt)
    (maze : Maze.t) (reindeer : Point.t) (direction_default : Direction.t) (n : Z) :
  corridor maze reindeer direction_default n →
  (∃ fuel trail, find_astar QA fuel maze reindeer direction_default = Returned (n, trail))
  ∧ (∀ fuel cost trail,
       find_astar QA fuel maze reindeer direction_default = Returned (cost, trail) →
       cost = n)
  ∧ (∃ fuel, find_djikstra QD fuel maze reindeer direction_default
             = Returned (n, corridor_cells reindeer direction_default n))
  ∧ (∀ fuel cost cells,
       find_djikstra QD fuel maze reindeer direction_default = Returned (cost, cells) →
       cost = n ∧ cells = corridor_cells reindeer direction_default n)
  ∧ size (corridor_cells reindeer direction_default n) = Z.to_nat (n + 1).
Proof.
  intros Hcor.
  destruct (corridor_find_astar _ _ _ _ Hcor QA) as [HA1 HA2].
  destruct (corridor_find_djikstra _ _ _ _ Hcor QD) as [HD1 HD2].
  split; [done|]. split; [done|]. split; [done|]. split; [done|].
  apply size_corridor_cells; apply Hcor.
Qed.

(** The 3x3 corridor: the end two cells east of the start, the reindeer
    facing east; the cost is 2 and the cells are start, middle and end. *)
Lemma straight_corridor_witness :
  corridor corridor3 (Point.mk 0 1) East 2
  ∧ corridor_cells (Point.mk 0 1) East 2 = cells_of [(0, 1); (1, 1); (2, 1)]
  ∧ (∃ fuel trail,
       find_astar astar_queue fuel corridor3 (Point.mk 0 1) East = Returned (2, trail))
  ∧ (∃ fuel,
       find_djikstra djikstra_queue fuel corridor3 (Point.mk 0 1) East
       = Returned (2, corridor_cells (Point.mk 0 1) East 2))
  ∧ size (corridor_cells (Point.mk 0 1) East 2) = 3%nat.
Proof.
  assert (Hcor : corridor corridor3 (Point.mk 0 1) East 2).
  { split; [apply cardinal_East|]. split; [lia|]. split; [reflexivity|].
    intros i _. reflexivity. }
  split; [exact Hcor|]. split; [by vm_compute|].
  destruct (straight_corridor astar_queue djikstra_queue corridor3 (Point.mk 0 1) East 2 Hcor)
    as (HA & _ & HD & _ & Hsize).
  split; [exact HA|]. split; [exact HD|exact Hsize].
Defined.

(** ** The end test comes first *)

Lemma wall_end_corridor : corridor wall_end (Point.mk 0 0) East 1.
Proof.
  split; [apply cardinal_East|]. split; [lia|]. split; [reflexivity|].
  intros i Hi. assert (i = 0) as -> by lia. reflexivity.
Qed.

(** C10: a popped node at the end cell makes either loop return at once,
    before [closed] and the walls are looked at; so on [wall_end], whose
    end cell is a wall one step ahead of the start, both searches return
    cost 1, whatever the queue. *)
Theorem end_test_precedes_closed_and_wall
    (QA : PriorityQueue NodeAStar.t NodeAStar.lt)
    (QD : PriorityQueue NodeDjikstra.t NodeDjikstra.lt) :
  (∀ maze st current open,
     pq_get QA (astar_open QA st) = Some (current, open) →
     NodeAStar.point current = Maze.end_ maze →
     astar_step QA maze st = Return (NodeAStar.g current, NodeAStar.trail current))
  ∧ (∀ maze st current open cells,
       pq_get QD (djikstra_open QD st) = Some (current, open) →
       NodeDjikstra.point current = Maze.end_ maze →
       djikstra_trails QD st !! (NodeDjikstra.point current, NodeDjikstra.cost current)
         = Some cells →
       djikstra_step QD maze st = Return (NodeDjikstra.cost current, cells))
  ∧ is_wall wall_end (Maze.end_ wall_end) = true
  ∧ is_wall wall_end (Point.mk 0 0) = false
  ∧ Maze.end_ wall_end = Point.add (Point.mk 0 0) East
  ∧ (∃ fuel trail,
       find_astar QA fuel wall_end (Point.mk 0 0) East = Returned (1, trail))
  ∧ (∃ fuel cells,
       find_djikstra QD fuel wall_end (Point.mk 0 0) East = Returned (1, cells)).
Proof.
  split; [intros; by eapply astar_step_end|].
  split; [intros; by eapply djikstra_step_end|].
  split; [by vm_compute|]. split; [by vm_compute|]. split; [by vm_compute|].
  split.
  - apply (corridor_find_astar _ _ _ _ wall_end_corridor QA).
  - destruct (corridor_find_djikstra _ _ _ _ wall_end_corridor QD) as [[fuel H] _].
    eauto.
Qed.

(** ** Further properties of the searches *)

Lemma corridor3_corridor : corridor corridor3 (Point.mk 0 1) East 2.
Proof.
  split; [apply cardinal_East|]. split; [lia|]. split; [reflexivity|].
  intros i _. reflexivity.
Qed.

(** X1: the cost [find_astar] returns is the cost of some walk from the
    start state to the end cell, and no walk to the end cell costs less. *)
Theorem find_astar_optimal
    (QA : PriorityQueue NodeAStar.t NodeAStar.lt)
    (maze : Maze.t) (reindeer : Point.t) (direction_default : Direction.t)
    (fuel : nat) (cost : Z) (trail : Trail) :
  cardinal direction_default →
  find_astar QA fuel maze reindeer direction_default = Returned (cost, trail) →
  (∃ d, reach maze reindeer direction_default (d, Maze.end_ maze) cost)
  ∧ ∀ d c, reach maze reindeer direction_default (d, Maze.end_ maze) c → cost ≤ c.
Proof. intros Hd H. by eapply find_astar_best_cost. Qed.

Lemma find_astar_optimal_witness :
  ∃ trail,
    find_astar astar_queue 4 corridor3 (Point.mk 0 1) East = Returned (2, trail)
    ∧ (∃ d, reach corridor3 (Point.mk 0 1) East (d, Maze.end_ corridor3) 2)
    ∧ ∀ d c, reach corridor3 (Point.mk 0 1) East (d, Maze.end_ corridor3) c → 2 ≤ c.
Proof.
  eexists. split; [vm_compute; reflexivity|].
  eapply (find_astar_optimal astar_queue corridor3 (Point.mk 0 1) East 4 2).
  - apply cardinal_East.
  - vm_compute; reflexivity.
Defined.

(** X2: the same for [find_djikstra], under any start heading. *)
Theorem find_djikstra_optimal
    (QD : PriorityQueue NodeDjikstra.t NodeDjikstra.lt)
    (maze : Maze.t) (reindeer : Point.t) (direction_default : Direction.t)
    (fuel : nat) (cost : Z) (cells : gset Point.t) :
  find_djikstra QD fuel maze reindeer direction_default = Returned (cost, cells) →
  (∃ d, reach maze reindeer direction_default (d, Maze.end_ maze) cost)
  ∧ ∀ d c, reach maze reindeer direction_default (d, Maze.end_ maze) c → cost ≤ c.
Proof. intros H. by eapply find_djikstra_best_cost. Qed.

Lemma find_djikstra_optimal_witness :
  ∃ cells,
    find_djikstra djikstra_queue 4 corridor3 (Point.mk 0 1) East = Returned (2, cells)
    ∧ (∃ d, reach corridor3 (Point.mk 0 1) East (d, Maze.end_ corridor3) 2)
    ∧ ∀ d c, reach corridor3 (Point.mk 0 1) East (d, Maze.end_ corridor3) c → 2 ≤ c.
Proof.
  eexists. split; [vm_compute; reflexivity|].
  eapply (find_djikstra_optimal djikstra_queue corridor3 (Point.mk 0 1) East 4 2).
  vm_compute; reflexivity.
Defined.

(** X3: when some walk leads from the start state to the end cell, both
    searches return, given enough fuel, whatever the queue. *)
Theorem searches_return_when_reachable
    (QA : PriorityQueue NodeAStar.t NodeAStar.lt)
    (QD : PriorityQueue NodeDjikstra.t NodeDjikstra.lt)
    (maze : Maze.t) (reindeer : Point.t) (direction_default : Direction.t)
    (d : Direction.t) (c : Z) :
  cardinal direction_default →
  reach maze reindeer direction_default (d, Maze.end_ maze) c →
  (∃ fuel cost trail,
     find_astar QA fuel maze reindeer direction_default = Returned (cost, trail))
  ∧ (∃ fuel cost cells,
       find_djikstra QD fuel maze reindeer direction_default = Returned (cost, cells)).
Proof.
  intros Hd Hr. split.
  - by eapply find_astar_returns.
  - by eapply find_djikstra_returns.
Qed.

Lemma searches_return_when_reachable_witness :
  (∃ fuel cost trail,
     find_astar astar_stack fuel corridor3 (Point.mk 0 1) East = Returned (cost, trail))
  ∧ (∃ fuel cost cells,
       find_djikstra djikstra_stack fuel corridor3 (Point.mk 0 1) East
       = Returned (cost, cells)).
Proof.
  apply (searches_return_when_reachable astar_stack djikstra_stack corridor3
           (Point.mk 0 1) East East 2 cardinal_East).
  apply (corridor_reach_end _ _ _ _ corridor3_corridor).
Defined.

(** X4: the set [find_djikstra] returns is the merged trail of the key
    (end cell, cost returned). *)
Theorem find_djikstra_cells_merged
    (QD : PriorityQueue NodeDjikstra.t NodeDjikstra.lt)
    (maze : Maze.t) (reindeer : Point.t) (direction_default : Direction.t)
    (fuel : nat) (cost : Z) (cells : gset Point.t) (cell : Point.t) :
  find_djikstra QD fuel maze reindeer direction_default = Returned (cost, cells) →
  cell ∈ cells ↔ merged_trail maze reindeer direction_default (Maze.end_ maze, cost) cell.
Proof. intros H. by eapply find_djikstra_cells. Qed.

Lemma find_djikstra_cells_merged_witness :
  Point.mk 1 1 ∈ fork_cells
  ↔ merged_trail fork (Point.mk 2 3) North (Maze.end_ fork, 3004) (Point.mk 1 1).
Proof.
  apply (find_djikstra_cells_merged djikstra_queue fork (Point.mk 2 3) North 200 3004).
  vm_compute; reflexivity.
Defined.

(** X5: when the start state lies in a finite region that is closed under
    the moves and has no state on the end cell, both searches raise
    "Route is not found", given enough fuel, whatever the queue. *)
Theorem searches_raise_when_enclosed
    (QA : PriorityQueue NodeAStar.t NodeAStar.lt)
    (QD : PriorityQueue NodeDjikstra.t NodeDjikstra.lt)
    (maze : Maze.t) (reindeer : Point.t) (direction_default : Direction.t)
    (region : list State) :
  cardinal direction_default →
  (direction_default, reindeer) ∈ region →
  (∀ s w t, s ∈ region → edge maze s w t → t ∈ region) →
  (∀ s, s ∈ region → s.2 ≠ Maze.end_ maze) →
  (∃ fuel, find_astar QA fuel maze reindeer direction_default = Raised RouteNotFound)
  ∧ (∃ fuel, find_djikstra QD fuel maze reindeer direction_default = Raised RouteNotFound).
Proof.
  intros Hd Hstart Hmoves Hno_end. split.
  - by eapply find_astar_raises.
  - by eapply find_djikstra_raises.
Qed.

Lemma searches_raise_when_enclosed_witness :
  (∃ fuel, find_astar astar_queue fuel walled_in (Point.mk 1 1) East
           = Raised RouteNotFound)
  ∧ (∃ fuel, find_djikstra djikstra_queue fuel walled_in (Point.mk 1 1) East
             = Raised RouteNotFound).
Proof.
  apply (searches_raise_when_enclosed astar_queue djikstra_queue walled_in
           (Point.mk 1 1) East walled_in_region cardinal_East).
  - unfold walled_in_region, cardinals. simpl. repeat constructor.
  - apply walled_in_region_moves.
  - apply walled_in_region_no_end.
Defined.

(** ** The trail [find_astar] returns *)

Section astar_trail.
Context (Q : PriorityQueue NodeAStar.t NodeAStar.lt).
Context (maze : Maze.t) (reindeer : Point.t) (direction_default : Direction.t).

Local Abbreviation walk := (walk maze reindeer direction_default).
Local Abbreviation reach := (reach maze reindeer direction_default).
Local Abbreviation astar_trail_inv := (astar_trail_inv maze reindeer direction_default Q).

Lemma walk_reach s c cells : walk s c cells → reach s c.
Proof.
  induction 1 as [|s c cells w t _ IH He]; [constructor|].
  by econstructor.
Qed.

Lemma reach_walk s c : reach s c → ∃ cells, walk s c cells.
Proof.
  induction 1 as [|s c w t _ [cells IH] He].
  - eexists. constructor.
  - eexists. by econstructor.
Qed.

(** A walk passes over the start cell and over the cell it stops on; no
    cell it left is a wall; and it passes over at most one cell more
    than it costs. *)
Lemma walk_cells s c cells :
  walk s c cells →
  reindeer ∈ cells ∧ s.2 ∈ cells
  ∧ (∀ p, p ∈ cells → p ≠ s.2 → is_wall maze p = false)
  ∧ Z.of_nat (size cells) ≤ c + 1.
Proof.
  induction 1 as [|s c cells w t _ (IHs & IHe & IHw & IHn) He].
  - cbn [snd]. split; [set_solver|]. split; [set_solver|].
    split; [set_solver|]. rewrite size_singleton. lia.
  - split; [set_solver|]. split; [set_solver|]. split.
    + intros p Hp Hne. apply elem_of_union in Hp as [Hp|Hp]; [set_solver|].
      destruct (decide (p = s.2)) as [->|Hps]; [|by apply IHw].
      by destruct He.
    + pose proof (edge_cost_pos _ _ _ _ He) as Hpos.
      destruct He as [d p Hw|d p Hw|d p Hw]; simpl in *.
      * pose proof (size_union_alt {[Point.add p d]} cells) as Hsz.
        pose proof (subseteq_size (cells ∖ {[Point.add p d]}) cells) as Hle.
        rewrite size_singleton in Hsz.
        assert (size (cells ∖ {[Point.add p d]}) ≤ size cells)%nat
          by (apply Hle, subseteq_difference_l; done).
        unfold COST_FORWARD. lia.
      * assert ({[p]} ∪ cells = cells) as ->
          by (by apply subseteq_union_1_L, singleton_subseteq_l).
        unfold COST_ROTATE. lia.
      * assert ({[p]} ∪ cells = cells) as ->
          by (by apply subseteq_union_1_L, singleton_subseteq_l).
        unfold COST_ROTATE. lia.
Qed.

Lemma astar_trail_init_inv : astar_trail_inv (astar_init Q maze reindeer direction_default).
Proof.
  intros n Hn. unfold astar_init in Hn. simpl in Hn.
  rewrite pq_items_put, pq_items_new in Hn.
  apply list_elem_of_singleton in Hn as ->. simpl. split.
  - rewrite dom_singleton_L. constructor.
  - intros p v Hpv. apply lookup_singleton_Some in Hpv. by destruct Hpv.
Qed.

Lemma astar_trail_step_inv st st' :
  astar_trail_inv st → astar_step Q maze st = Next st' → astar_trail_inv st'.
Proof.
  intros Hinv. unfold astar_step.
  destruct (pq_get Q (astar_open Q st)) as [[current open]|] eqn:Hget; [|done].
  destruct (pq_get_Some Q _ _ _ Hget) as [Hperm _].
  destruct (decide _) as [?|_]; [done|].
  assert (Hopen : ∀ n, n ∈ pq_items Q open → n ∈ pq_items Q (astar_open Q st)).
  { intros n Hn. rewrite Hperm. by right. }
  destruct (default false _).
  { intros [= <-] n Hn. simpl in Hn. auto. }
  intros [= <-] n Hn. simpl in Hn.
  rewrite foldl_pq_put_items in Hn. apply elem_of_app in Hn as [Hn|Hn]; [|auto].
  destruct (Hinv current) as [Hwalk Hone]; [rewrite Hperm; by left|].
  unfold astar_successors in Hn.
  destruct (is_wall maze (NodeAStar.point current)) eqn:Hw; simpl in Hn;
    [by apply elem_of_nil in Hn|].
  apply elem_of_cons in Hn as [->|Hn]; [|apply elem_of_cons in Hn as [->|Hn];
    [|apply list_elem_of_singleton in Hn as ->]].
  - simpl. split.
    + unfold merge. rewrite dom_union_L, dom_singleton_L.
      apply (walk_edge _ _ _ (astar_node_state current) _ _ COST_FORWARD
               (NodeAStar.direction current,
                Point.add (NodeAStar.point current) (NodeAStar.direction current)) Hwalk).
      by constructor.
    + intros p v. unfold merge. rewrite lookup_union_Some_raw.
      intros [Hpv|[_ Hpv]]; [|eauto].
      apply lookup_singleton_Some in Hpv. by destruct Hpv.
  - simpl. split; [|done].
    assert (dom (NodeAStar.trail current)
            = {[NodeAStar.point current]} ∪ dom (NodeAStar.trail current)) as ->.
    { apply walk_cells in Hwalk as (_ & He & _).
      symmetry. by apply subseteq_union_1_L, singleton_subseteq_l. }
    apply (walk_edge _ _ _ (astar_node_state current) _ _ COST_ROTATE
             (Direction.mul (NodeAStar.direction current) RotateLeft,
              NodeAStar.point current) Hwalk).
    by constructor.
  - simpl. split; [|done].
    assert (dom (NodeAStar.trail current)
            = {[NodeAStar.point current]} ∪ dom (NodeAStar.trail current)) as ->.
    { apply walk_cells in Hwalk as (_ & He & _).
      symmetry. by apply subseteq_union_1_L, singleton_subseteq_l. }
    apply (walk_edge _ _ _ (astar_node_state current) _ _ COST_ROTATE
             (Direction.mul (NodeAStar.direction current) RotateRight,
              NodeAStar.point current) Hwalk).
    by constructor.
Qed.

Lemma find_astar_trail_walk fuel cost trail :
  find_astar Q fuel maze reindeer direction_default = Returned (cost, trail) →
  (∃ d, walk (d, Maze.end_ maze) cost (dom trail))
  ∧ ∀ p v, trail !! p = Some v → v = 1.
Proof.
  unfold find_astar. rewrite run_Returned.
  intros (k & st & _ & Hit & Hret).
  assert (Hinv : astar_trail_inv st).
  { eapply iterate_invariant; [|apply astar_trail_init_inv|exact Hit].
    apply astar_trail_step_inv. }
  unfold astar_step in Hret.
  destruct (pq_get Q (astar_open Q st)) as [[current open]|] eqn:Hget; [|done].
  destruct (pq_get_Some Q _ _ _ Hget) as [Hperm _].
  destruct (decide _) as [Hend|?]; [|by destruct (default false _)].
  injection Hret as <- <-.
  destruct (Hinv current) as [Hwalk Hone]; [rewrite Hperm; by left|].
  split; [|done]. exists (NodeAStar.direction current). by rewrite <-Hend.
Qed.
End astar_trail.

(** ** The cells [find_djikstra] returns, against the walks *)

Section djikstra_walks.
Context (maze : Maze.t) (reindeer : Point.t) (direction_default : Direction.t).

Local Abbreviation walk := (walk maze reindeer direction_default).
Local Abbreviation reach := (reach maze reindeer direction_default).
Local Abbreviation least_cost := (least_cost maze reindeer direction_default).
Local Abbreviation merged_trail := (merged_trail maze reindeer direction_default).

(** A cheapest walk is cheapest up to each of its states. *)
Lemma least_cost_before s c w t :
  reach s c → edge maze s w t → least_cost t (c + w) → least_cost s c.
Proof.
  intros Hs He [_ Hmin]. split; [done|]. intros c' Hs'.
  specialize (Hmin (c' + w) (reach_edge _ _ _ _ _ _ _ Hs' He)). lia.
Qed.

(** The entry of (cell, cost) holds every cell of every cheapest walk
    that stops on the cell. *)
Lemma walk_merged t c cells :
  walk t c cells → least_cost t c → ∀ cell, cell ∈ cells → merged_trail (t.2, c) cell.
Proof.
  induction 1 as [|s c cells w t Hw IH He]; intros Hl cell Hcell.
  - apply elem_of_singleton in Hcell as ->. constructor.
  - pose proof (least_cost_before _ _ _ _ (walk_reach _ _ _ _ _ _ Hw) He Hl) as Hls.
    apply elem_of_union in Hcell as [Hcell|Hcell].
    + apply elem_of_singleton in Hcell as ->. by eapply merged_here.
    + eapply merged_before; eauto.
Qed.

(** Every cell of an entry can be walked to at no more than the cost of
    the key. *)
Lemma merged_trail_reach key cell :
  merged_trail key cell → ∃ d c, reach (d, cell) c ∧ c ≤ key.2.
Proof.
  induction 1 as [|s c w [d p] [Hs _] He|s c w t cell _ He _ (d & c' & Hr & Hle)].
  - exists direction_default, 0. split; [constructor|done].
  - exists d, (c + w). split; [by econstructor|done].
  - exists d, c'. split; [done|]. apply edge_cost_pos in He. simpl in *. lia.
Qed.

(** No cell of an entry but the cell of its key is a wall. *)
Lemma merged_trail_not_wall key cell :
  merged_trail key cell → cell ≠ key.1 → is_wall maze cell = false.
Proof.
  induction 1 as [|s c w t _ He|s c w t cell _ He _ IH]; simpl; [done..|].
  intros _. destruct (decide (cell = s.2)) as [->|Hne]; [|by apply IH].
  by eapply edge_not_wall.
Qed.
End djikstra_walks.

(** ** Trails and walks *)

(** X6: the trail [find_astar] returns holds exactly the cells of one
    walk from the start state to the end cell, a walk of the cost
    returned, and marks each of them 1. *)
Theorem find_astar_trail_is_walk
    (QA : PriorityQueue NodeAStar.t NodeAStar.lt)
    (maze : Maze.t) (reindeer : Point.t) (direction_default : Direction.t)
    (fuel : nat) (cost : Z) (trail : Trail) :
  find_astar QA fuel maze reindeer direction_default = Returned (cost, trail) →
  (∃ d, walk maze reindeer direction_default (d, Maze.end_ maze) cost (dom trail))
  ∧ ∀ p v, trail !! p = Some v → v = 1.
Proof. intros H. by eapply find_astar_trail_walk. Qed.

Lemma find_astar_trail_is_walk_witness :
  ∃ trail,
    find_astar astar_queue 8 wall_ahead (Point.mk 0 0) East = Returned (1002, trail)
    ∧ (∃ d, walk wall_ahead (Point.mk 0 0) East (d, Maze.end_ wall_ahead) 1002 (dom trail))
    ∧ ∀ p v, trail !! p = Some v → v = 1.
Proof.
  eexists. split; [vm_compute; reflexivity|].
  eapply (find_astar_trail_is_walk astar_queue wall_ahead (Point.mk 0 0) East 8 1002).
  vm_compute; reflexivity.
Defined.

(** X7: the trail [find_astar] returns holds the cell the search started
    from and the end cell, no wall besides (possibly) the end cell, and
    at most one cell more than the cost returned. *)
Theorem find_astar_trail_cells
    (QA : PriorityQueue NodeAStar.t NodeAStar.lt)
    (maze : Maze.t) (reindeer : Point.t) (direction_default : Direction.t)
    (fuel : nat) (cost : Z) (trail : Trail) :
  find_astar QA fuel maze reindeer direction_default = Returned (cost, trail) →
  is_Some (trail !! reindeer)
  ∧ is_Some (trail !! Maze.end_ maze)
  ∧ (∀ p, is_Some (trail !! p) → p ≠ Maze.end_ maze → is_wall maze p = false)
  ∧ Z.of_nat (size trail) ≤ cost + 1.
Proof.
  intros H. apply find_astar_trail_walk in H as [[d Hwalk] _].
  apply walk_cells in Hwalk as (Hs & He & Hw & Hn). simpl in *.
  rewrite size_dom in Hn. rewrite <- !elem_of_dom.
  split; [done|]. split; [done|]. split; [|done].
  intros p Hp. apply Hw. by apply elem_of_dom.
Qed.

Lemma find_astar_trail_cells_witness :
  ∃ trail,
    find_astar astar_stack 8 wall_ahead (Point.mk 0 0) East = Returned (1002, trail)
    ∧ is_Some (trail !! Point.mk 0 0)
    ∧ is_Some (trail !! Maze.end_ wall_ahead)
    ∧ (∀ p, is_Some (trail !! p) → p ≠ Maze.end_ wall_ahead → is_wall wall_ahead p = false)
    ∧ Z.of_nat (size trail) ≤ 1002 + 1.
Proof.
  eexists. split; [vm_compute; reflexivity|].
  eapply (find_astar_trail_cells astar_stack wall_ahead (Point.mk 0 0) East 8 1002).
  vm_compute; reflexivity.
Defined.

(** X8: the set [find_djikstra] returns holds every cell of every walk
    from the start state to the end cell that costs what the search
    returns, that is of every cheapest walk. *)
Theorem find_djikstra_cells_cover_cheapest_walks
    (QD : PriorityQueue NodeDjikstra.t NodeDjikstra.lt)
    (maze : Maze.t) (reindeer : Point.t) (direction_default : Direction.t)
    (fuel : nat) (cost : Z) (cells : gset Point.t)
    (d : Direction.t) (passed : gset Point.t) :
  find_djikstra QD fuel maze reindeer direction_default = Returned (cost, cells) →
  walk maze reindeer direction_default (d, Maze.end_ maze) cost passed →
  passed ⊆ cells.
Proof.
  intros H Hwalk cell Hcell.
  apply (find_djikstra_cells _ _ _ _ _ _ _ H).
  apply (walk_merged _ _ _ _ _ _ Hwalk); [|done].
  split; [by eapply walk_reach|].
  apply find_djikstra_best_cost in H as [_ Hmin]. apply Hmin.
Qed.

Lemma find_djikstra_cells_cover_cheapest_walks_witness :
  ∃ cells,
    find_djikstra djikstra_queue 4 corridor3 (Point.mk 0 1) East = Returned (2, cells)
    ∧ {[Point.mk 2 1]} ∪ ({[Point.mk 1 1]} ∪ {[Point.mk 0 1]}) ⊆ cells.
Proof.
  eexists. split; [vm_compute; reflexivity|].
  eapply (find_djikstra_cells_cover_cheapest_walks djikstra_queue corridor3
            (Point.mk 0 1) East 4 2 _ East).
  - vm_compute; reflexivity.
  - apply (walk_edge corridor3 (Point.mk 0 1) East (East, Point.mk 1 1) 1 _ 1
             (East, Point.mk 2 1)).
    + apply (walk_edge corridor3 (Point.mk 0 1) East (East, Point.mk 0 1) 0 _ 1
               (East, Point.mk 1 1)).
      * apply walk_start.
      * by apply (edge_forward corridor3 East (Point.mk 0 1)).
    + by apply (edge_forward corridor3 East (Point.mk 1 1)).
Defined.

(** X9: each cell of the set [find_djikstra] returns can be walked to
    from the start state at no more than the cost returned, and none of
    them besides (possibly) the end cell is a wall. *)
Theorem find_djikstra_cells_sound
    (QD : PriorityQueue NodeDjikstra.t NodeDjikstra.lt)
    (maze : Maze.t) (reindeer : Point.t) (direction_default : Direction.t)
    (fuel : nat) (cost : Z) (cells : gset Point.t) (cell : Point.t) :
  find_djikstra QD fuel maze reindeer direction_default = Returned (cost, cells) →
  cell ∈ cells →
  (∃ d c, reach maze reindeer direction_default (d, cell) c ∧ c ≤ cost)
  ∧ (cell ≠ Maze.end_ maze → is_wall maze cell = false).
Proof.
  intros H Hcell. apply (find_djikstra_cells _ _ _ _ _ _ _ H) in Hcell. split.
  - apply merged_trail_reach in Hcell as (d & c & Hr & Hle). by exists d, c.
  - intros Hne. by apply (merged_trail_not_wall _ _ _ _ _ Hcell).
Qed.

Lemma find_djikstra_cells_sound_witness :
  (∃ d c, reach fork (Point.mk 2 3) North (d, Point.mk 1 1) c ∧ c ≤ 3004)
  ∧ (Point.mk 1 1 ≠ Maze.end_ fork → is_wall fork (Point.mk 1 1) = false).
Proof.
  apply (find_djikstra_cells_sound djikstra_queue fork (Point.mk 2 3) North 200 3004
           fork_cells (Point.mk 1 1)).
  - vm_compute; reflexivity.
  - vm_compute; reflexivity.
Defined.

(** X10: started on a cardinal heading, the trail [find_astar] returns
    lies within the set [find_djikstra] returns. *)
Theorem find_astar_trail_in_find_djikstra_cells
    (QA : PriorityQueue NodeAStar.t NodeAStar.lt)
    (QD : PriorityQueue NodeDjikstra.t NodeDjikstra.lt)
    (maze : Maze.t) (reindeer : Point.t) (direction_default : Direction.t)
    (fuelA fuelD : nat) (costA costD : Z) (trail : Trail) (cells : gset Point.t) :
  cardinal direction_default →
  find_astar QA fuelA maze reindeer direction_default = Returned (costA, trail) →
  find_djikstra QD fuelD maze reindeer direction_default = Returned (costD, cells) →
  ∀ p, is_Some (trail !! p) → p ∈ cells.
Proof.
  intros Hd HA HD p Hp. apply elem_of_dom in Hp.
  assert (costA = costD) as ->.
  { eapply best_cost_unique.
    - eapply find_astar_best_cost; eauto.
    - eapply find_djikstra_best_cost; eauto. }
  apply find_astar_trail_walk in HA as [[d Hwalk] _].
  apply (find_djikstra_cells _ _ _ _ _ _ _ HD).
  apply (walk_merged _ _ _ _ _ _ Hwalk); [|done].
  split; [by eapply walk_reach|].
  apply find_djikstra_best_cost in HD as [_ Hmin]. apply Hmin.
Qed.

Lemma find_astar_trail_in_find_djikstra_cells_witness :
  ∃ trail,
    find_astar astar_queue 200 fork (Point.mk 2 3) North = Returned (3004, trail)
    ∧ ∀ p, is_Some (trail !! p) → p ∈ fork_cells.
Proof.
  eexists. split; [vm_compute; reflexivity|].
  eapply (find_astar_trail_in_find_djikstra_cells astar_queue djikstra_queue fork
            (Point.mk 2 3) North 200 200 3004 3004).
  - unfold cardinal, cardinals. repeat constructor.
  - vm_compute; reflexivity.
  - vm_compute; reflexivity.
Defined.

(** ** Degenerate starts *)

Section first_pop.
Context {A : Type} {lt : A → A → bool} (Q : PriorityQueue A lt).

(** A queue that holds one entry gives it back and is empty afterwards. *)
Lemma pq_get_singleton a :
  ∃ q, pq_get Q (pq_put Q (pq_new Q) a) = Some (a, q) ∧ pq_get Q q = None.
Proof.
  assert (Hitems : pq_items Q (pq_put Q (pq_new Q) a) ≡ₚ [a]).
  { by rewrite pq_items_put, pq_items_new. }
  destruct (pq_get Q (pq_put Q (pq_new Q) a)) as [[b q]|] eqn:Hget.
  - destruct (pq_get_Some Q _ _ _ Hget) as [Hperm _].
    rewrite Hitems in Hperm. apply Permutation_singleton_l in Hperm.
    injection Hperm as <- Hq. exists q. split; [done|]. by apply pq_get_None.
  - apply pq_get_None in Hget. rewrite Hget in Hitems.
    by apply Permutation_nil_l in Hitems.
Qed.
End first_pop.

Section degenerate.
Context (QA : PriorityQueue NodeAStar.t NodeAStar.lt).
Context (QD : PriorityQueue NodeDjikstra.t NodeDjikstra.lt).
Context (maze : Maze.t) (reindeer : Point.t) (direction_default : Direction.t).

Lemma find_astar_on_end fuel :
  reindeer = Maze.end_ maze →
  find_astar QA (S fuel) maze reindeer direction_default
  = Returned (0, {[ reindeer := 1 ]}).
Proof.
  intros Hend. unfold find_astar, astar_init. simpl. unfold astar_step. simpl.
  destruct (pq_get_singleton QA
              (NodeAStar.mk direction_default reindeer 0 (distance_to_end maze reindeer)
                 {[ reindeer := 1 ]})) as (q & -> & _).
  simpl. by rewrite decide_True.
Qed.

Lemma find_djikstra_on_end fuel :
  reindeer = Maze.end_ maze →
  find_djikstra QD (S fuel) maze reindeer direction_default
  = Returned (0, {[ reindeer ]}).
Proof.
  intros Hend. unfold find_djikstra, djikstra_init. simpl. unfold djikstra_step. simpl.
  destruct (pq_get_singleton QD (NodeDjikstra.mk 0 direction_default reindeer))
    as (q & -> & _).
  simpl. rewrite decide_True by done. by rewrite lookup_singleton_eq.
Qed.

Lemma find_astar_on_wall fuel :
  reindeer ≠ Maze.end_ maze → is_wall maze reindeer = true →
  find_astar QA (S (S fuel)) maze reindeer direction_default = Raised RouteNotFound.
Proof.
  intros Hend Hwall. unfold find_astar, astar_init. simpl. unfold astar_step at 1. simpl.
  destruct (pq_get_singleton QA
              (NodeAStar.mk direction_default reindeer 0 (distance_to_end maze reindeer)
                 {[ reindeer := 1 ]})) as (q & -> & Hq).
  simpl. rewrite decide_False by done. rewrite lookup_empty. simpl.
  unfold astar_successors. simpl. rewrite Hwall. simpl.
  unfold astar_step. simpl. by rewrite Hq.
Qed.

Lemma find_djikstra_on_wall fuel :
  reindeer ≠ Maze.end_ maze → is_wall maze reindeer = true →
  find_djikstra QD (S (S fuel)) maze reindeer direction_default = Raised RouteNotFound.
Proof.
  intros Hend Hwall. unfold find_djikstra, djikstra_init. simpl.
  unfold djikstra_step at 1. simpl.
  destruct (pq_get_singleton QD (NodeDjikstra.mk 0 direction_default reindeer))
    as (q & -> & Hq).
  simpl. rewrite decide_False by done. rewrite lookup_empty. simpl.
  unfold djikstra_successors. simpl. rewrite Hwall. simpl.
  unfold djikstra_step. simpl. by rewrite Hq.
Qed.
End degenerate.

(** ** Walls given by a list *)

Lemma walls_lookup cells p :
  walls cells !! p = if decide ((Point.x p, Point.y p) ∈ cells) then Some Wall else None.
Proof.
  assert (Hcons : ∀ a b l, walls ((a, b) :: l) = <[Point.mk a b := Wall]> (walls l)) by done.
  destruct (decide _) as [Hin|Hnin].
  - induction cells as [|[a b] cells IH]; [by apply elem_of_nil in Hin|].
    rewrite Hcons. destruct (decide (p = Point.mk a b)) as [->|Hne].
    + by rewrite lookup_insert_eq.
    + rewrite lookup_insert_ne by done. apply IH.
      apply elem_of_cons in Hin as [Heq|?]; [|done].
      destruct p as [x y]. simpl in Heq. by injection Heq as -> ->.
  - induction cells as [|[a b] cells IH]; [apply lookup_empty|].
    rewrite Hcons. rewrite not_elem_of_cons in Hnin. destruct Hnin as [Hne Hnin].
    rewrite lookup_insert_ne; [by apply IH|].
    intros <-. by apply Hne.
Qed.

Lemma is_wall_walls start end_ cells width height p :
  is_wall (Maze.mk start end_ (walls cells) width height) p
  = bool_decide ((Point.x p, Point.y p) ∈ cells).
Proof.
  unfold is_wall. simpl. rewrite walls_lookup.
  destruct (decide _) as [Hin|Hnin]; simpl.
  - by rewrite bool_decide_eq_true_2.
  - by rewrite bool_decide_eq_false_2.
Qed.

(** ** The open plane *)

Section open_plane.
Context (maze : Maze.t) (reindeer : Point.t) (direction_default : Direction.t).

Local Abbreviation reach := (reach maze reindeer direction_default).

(** The finitely many closed states lie within some distance of the
    origin. *)
Lemma closed_bounded (closed : gmap State bool) :
  ∃ bound, ∀ s, is_closed closed s →
    Z.abs (Point.x s.2) + Z.abs (Point.y s.2) ≤ bound.
Proof.
  induction closed as [|s b closed Hs _ [bound IH]] using map_first_key_ind.
  - exists 0. intros s. unfold is_closed. by rewrite lookup_empty.
  - exists (Z.max bound (Z.abs (Point.x s.2) + Z.abs (Point.y s.2))).
    intros t. unfold is_closed. destruct (decide (t = s)) as [->|Hne].
    + intros _. lia.
    + rewrite lookup_insert_ne by done. intros Ht. specialize (IH t Ht). lia.
Qed.

(** Walking straight on over cells that are no walls. *)
Lemma reach_ahead n :
  0 ≤ n →
  (∀ i, 0 ≤ i < n → is_wall maze (shift reindeer direction_default i) = false) →
  reach (direction_default, shift reindeer direction_default n) n.
Proof.
  intros Hn. pattern n. apply natlike_ind; [| |done].
  - intros _. rewrite shift_0. constructor.
  - intros k Hk IH Hopen. unfold Z.succ. rewrite <- shift_add.
    apply (reach_edge _ _ _ (direction_default, shift reindeer direction_default k)
             k COST_FORWARD).
    + apply IH. intros i Hi. apply Hopen. lia.
    + constructor. apply Hopen. lia.
Qed.

(** The end cell cannot be walked to when every cell next to it is a
    wall and the walk starts elsewhere. *)
Lemma reach_end_enclosed d c :
  cardinal direction_default →
  reindeer ≠ Maze.end_ maze →
  (∀ p d', cardinal d' → Point.add p d' = Maze.end_ maze → is_wall maze p = true) →
  ¬ reach (d, Maze.end_ maze) c.
Proof.
  intros Hd Hne Hwalls Hr. remember (d, Maze.end_ maze) as t eqn:Ht.
  revert d Ht. induction Hr as [|s c w t Hs IH He]; intros d0 Ht.
  - by injection Ht as _ ->.
  - pose proof (reach_cardinal _ _ _ _ _ Hd Hs) as Hcard.
    destruct He as [d p Hw|d p Hw|d p Hw]; injection Ht as _ Hp; simpl in *.
    + rewrite (Hwalls p d Hcard Hp) in Hw. done.
    + by eapply IH; rewrite Hp.
    + by eapply IH; rewrite Hp.
Qed.

Context (Hcardinal : cardinal direction_default).
Context (Hopen : ∀ bound, ∃ s c,
           reach s c ∧ bound < Z.abs (Point.x s.2) + Z.abs (Point.y s.2)).

Lemma find_djikstra_not_Raised (Q : PriorityQueue NodeDjikstra.t NodeDjikstra.lt) fuel e :
  find_djikstra Q fuel maze reindeer direction_default ≠ Raised e.
Proof.
  intros H. apply find_djikstra_Raised in H as [_ (k & st & Hit & Hget)].
  pose proof (djikstra_iterate_inv _ _ _ _ _ _ Hit) as Hinv.
  apply pq_get_None in Hget.
  destruct (closed_bounded (djikstra_closed Q st)) as [bound Hb].
  destruct (Hopen bound) as (s & c & Hr & Hfar).
  destruct (djikstra_frontier _ _ _ _ _ _ _ Hinv Hr) as [Hcl|(n & Hn & _)].
  - specialize (Hb _ Hcl). lia.
  - rewrite Hget in Hn. by apply elem_of_nil in Hn.
Qed.

Lemma find_astar_not_Raised (Q : PriorityQueue NodeAStar.t NodeAStar.lt) fuel e :
  find_astar Q fuel maze reindeer direction_default ≠ Raised e.
Proof.
  intros H. apply find_astar_Raised in H as [_ (k & st & Hit & Hget)].
  pose proof (astar_iterate_inv _ _ _ _ Hcardinal _ _ Hit) as Hinv.
  apply pq_get_None in Hget.
  destruct (closed_bounded (astar_closed Q st)) as [bound Hb].
  destruct (Hopen bound) as (s & c & Hr & Hfar).
  destruct (astar_frontier _ _ _ _ Hcardinal _ _ _ Hinv Hr) as [Hcl|(n & Hn & _)].
  - specialize (Hb _ Hcl). lia.
  - rewrite Hget in Hn. by apply elem_of_nil in Hn.
Qed.
End open_plane.

Lemma end_enclosed_open bound :
  ∃ s c, reach end_enclosed (Point.mk 0 0) East s c
         ∧ bound < Z.abs (Point.x s.2) + Z.abs (Point.y s.2).
Proof.
  exists (East, shift (Point.mk 0 0) East (Z.max 0 bound + 1)), (Z.max 0 bound + 1).
  split.
  - apply reach_ahead; [lia|]. intros i Hi. unfold end_enclosed.
    rewrite is_wall_walls. apply bool_decide_eq_false_2. simpl.
    rewrite !elem_of_cons, elem_of_nil. intros [H|[H|[H|[H|[]]]]]; injection H; lia.
  - simpl. lia.
Qed.

Lemma end_enclosed_walls p d :
  cardinal d → Point.add p d = Maze.end_ end_enclosed → is_wall end_enclosed p = true.
Proof.
  intros Hd Hp. unfold end_enclosed. rewrite is_wall_walls.
  apply bool_decide_eq_true_2. destruct p as [x y].
  apply cardinal_cases in Hd. rewrite !elem_of_cons.
  destruct Hd as [-> | [-> | [-> | ->]]]; injection Hp as Hx Hy; simpl in *.
  - right; left. f_equal; lia.
  - left. f_equal; lia.
  - right; right; left. f_equal; lia.
  - right; right; right; left. f_equal; lia.
Qed.

(** ** The heuristic, the open plane and degenerate starts *)

(** X11: the heuristic of [find_astar] never overestimates.  A walk that
    starts at [point] on a cardinal heading and stops on the end cell
    costs at least [distance_to_end maze point], and no move from a
    state with that heading lowers the heuristic by more than it costs. *)
Theorem distance_to_end_admissible
    (maze : Maze.t) (point : Point.t) (d : Direction.t) :
  cardinal d →
  (∀ d' c, reach maze point d (d', Maze.end_ maze) c → distance_to_end maze point ≤ c)
  ∧ (∀ w t, edge maze (d, point) w t →
       distance_to_end maze point ≤ w + distance_to_end maze t.2).
Proof.
  intros Hd. split.
  - intros d' c Hr. pose proof (reach_lower_bound _ _ _ _ _ Hd Hr) as Hlb.
    unfold distance_to_end. simpl in Hlb. destruct (decide _); lia.
  - intros w t He. by apply (distance_to_end_edge maze (d, point) w t).
Qed.

Lemma distance_to_end_admissible_witness :
  (∀ d' c, reach corridor3 (Point.mk 0 1) East (d', Maze.end_ corridor3) c →
           distance_to_end corridor3 (Point.mk 0 1) ≤ c)
  ∧ (∀ w t, edge corridor3 (East, Point.mk 0 1) w t →
       distance_to_end corridor3 (Point.mk 0 1) ≤ w + distance_to_end corridor3 t.2).
Proof. apply (distance_to_end_admissible corridor3 (Point.mk 0 1) East cardinal_East). Defined.

(** X12: the grid has no border.  When no walk leads to the end cell
    while walks from the start lead arbitrarily far, neither search ever
    leaves its loop: whatever the fuel, neither returns nor raises. *)
Theorem searches_run_forever
    (QA : PriorityQueue NodeAStar.t NodeAStar.lt)
    (QD : PriorityQueue NodeDjikstra.t NodeDjikstra.lt)
    (maze : Maze.t) (reindeer : Point.t) (direction_default : Direction.t) :
  cardinal direction_default →
  (∀ d c, ¬ reach maze reindeer direction_default (d, Maze.end_ maze) c) →
  (∀ bound, ∃ s c,
     reach maze reindeer direction_default s c
     ∧ bound < Z.abs (Point.x s.2) + Z.abs (Point.y s.2)) →
  ∀ fuel,
    find_astar QA fuel maze reindeer direction_default = OutOfFuel
    ∧ find_djikstra QD fuel maze reindeer direction_default = OutOfFuel.
Proof.
  intros Hd Hno Hopen fuel. split.
  - destruct (find_astar QA fuel maze reindeer direction_default) as [[c trail]|e|] eqn:H;
      [|by apply find_astar_not_Raised in H|done].
    apply find_astar_best_cost in H as [[d Hr] _]; [|done]. by apply Hno in Hr.
  - destruct (find_djikstra QD fuel maze reindeer direction_default) as [[c cells]|e|] eqn:H;
      [|by apply find_djikstra_not_Raised in H|done].
    apply find_djikstra_best_cost in H as [[d Hr] _]. by apply Hno in Hr.
Qed.

Lemma end_enclosed_unreachable d c :
  ¬ reach end_enclosed (Point.mk 0 0) East (d, Maze.end_ end_enclosed) c.
Proof.
  apply reach_end_enclosed; [apply cardinal_East|done|]. apply end_enclosed_walls.
Qed.

Lemma searches_run_forever_witness :
  find_astar astar_queue 1000 end_enclosed (Point.mk 0 0) East = OutOfFuel
  ∧ find_djikstra djikstra_queue 1000 end_enclosed (Point.mk 0 0) East = OutOfFuel.
Proof.
  exact (searches_run_forever astar_queue djikstra_queue end_enclosed (Point.mk 0 0) East
           cardinal_East end_enclosed_unreachable end_enclosed_open 1000%nat).
Defined.

(** X13: started on the end cell, both searches return at the first pass
    of the loop: cost 0 and the start cell alone, whatever the heading,
    the queue and the walls. *)
Theorem searches_start_on_end
    (QA : PriorityQueue NodeAStar.t NodeAStar.lt)
    (QD : PriorityQueue NodeDjikstra.t NodeDjikstra.lt)
    (maze : Maze.t) (direction_default : Direction.t) (fuel : nat) :
  find_astar QA (S fuel) maze (Maze.end_ maze) direction_default
  = Returned (0, {[ Maze.end_ maze := 1 ]})
  ∧ find_djikstra QD (S fuel) maze (Maze.end_ maze) direction_default
    = Returned (0, {[ Maze.end_ maze ]}).
Proof.
  split; [by apply find_astar_on_end|by apply find_djikstra_on_end].
Qed.

(** X14: started on a wall that is not the end cell, both searches
    raise "Route is not found" at the second pass of the loop: the start
    state is closed and nothing is put on [open]. *)
Theorem searches_start_on_wall
    (QA : PriorityQueue NodeAStar.t NodeAStar.lt)
    (QD : PriorityQueue NodeDjikstra.t NodeDjikstra.lt)
    (maze : Maze.t) (reindeer : Point.t) (direction_default : Direction.t) (fuel : nat) :
  reindeer ≠ Maze.end_ maze →
  is_wall maze reindeer = true →
  find_astar QA (S (S fuel)) maze reindeer direction_default = Raised RouteNotFound
  ∧ find_djikstra QD (S (S fuel)) maze reindeer direction_default = Raised RouteNotFound.
Proof.
  intros Hend Hwall.
  split; [by apply find_astar_on_wall|by apply find_djikstra_on_wall].
Qed.

Lemma searches_start_on_wall_witness :
  find_astar astar_queue 2 wall_ahead (Point.mk 1 0) East = Raised RouteNotFound
  ∧ find_djikstra djikstra_queue 2 wall_ahead (Point.mk 1 0) East = Raised RouteNotFound.
Proof.
  apply (searches_start_on_wall astar_queue djikstra_queue wall_ahead (Point.mk 1 0) East 0).
  - done.
  - reflexivity.
Defined.

(** ** [search] *)

Section enumerate.
Context {A : Type}.

Lemma enumerate_snoc (l : list A) a :
  enumerate (l ++ [a]) = enumerate l ++ [(Z.of_nat (length l), a)].
Proof.
  unfold enumerate. rewrite imap_app. simpl. by rewrite Nat.add_0_r.
Qed.

Lemma elem_of_enumerate (l : list A) z a :
  (z, a) ∈ enumerate l ↔ 0 ≤ z ∧ l !! Z.to_nat z = Some a.
Proof.
  unfold enumerate. rewrite elem_of_lookup_imap. split.
  - intros (i & b & [= -> ->] & Hi). split; [lia|]. by rewrite Nat2Z.id.
  - intros [Hz Hl]. exists (Z.to_nat z), a. split; [|done]. f_equal. lia.
Qed.

(** Parts made from the entries of a list in turn are in order when each
    part is and parts of later entries come after parts of earlier ones. *)
Lemma enumerate_bind_sorted {B : Type} (R : relation B) (f : Z * A → list B) (l : list A) :
  (∀ za, StronglySorted R (f za)) →
  (∀ z1 a1 z2 a2 x y, z1 < z2 → x ∈ f (z1, a1) → y ∈ f (z2, a2) → R x y) →
  StronglySorted R (enumerate l ≫= f).
Proof.
  intros Hpart Hacross. induction l as [|a l IH] using rev_ind; [constructor|].
  rewrite enumerate_snoc, bind_app. simpl. rewrite app_nil_r.
  apply StronglySorted_app. split; [|split; [done|apply Hpart]].
  intros x y Hx Hy. apply list_elem_of_bind in Hx as ([z b] & Hx & Hzb).
  apply elem_of_enumerate in Hzb as [Hz Hb]. apply lookup_lt_Some in Hb.
  apply (Hacross z b (Z.of_nat (length l)) a); [lia|done..].
Qed.
End enumerate.

Lemma elem_of_search input symbol p :
  p ∈ search input symbol ↔ char_at input p = Some (Symbol.value symbol).
Proof.
  unfold search, char_at. rewrite list_elem_of_bind. split.
  - intros ([y row] & Hp & Hrow). apply elem_of_enumerate in Hrow as [Hy Hrow].
    apply list_elem_of_bind in Hp as ([x item] & Hp & Hitem).
    apply elem_of_enumerate in Hitem as [Hx Hitem]. simpl in *.
    destruct (decide (item = _)) as [->|]; [|by apply elem_of_nil in Hp].
    apply list_elem_of_singleton in Hp as ->. simpl.
    rewrite decide_True by done. rewrite Hrow. simpl. done.
  - destruct (decide _) as [[Hx Hy]|]; [|done].
    destruct (input !! Z.to_nat (Point.y p)) as [row|] eqn:Hrow; [|done]. simpl.
    intros Hitem. exists (Point.y p, row). split; [|by apply elem_of_enumerate].
    apply list_elem_of_bind. exists (Point.x p, Symbol.value symbol).
    split; [|by apply elem_of_enumerate]. simpl.
    rewrite decide_True by done. destruct p. simpl. by left.
Qed.

Lemma search_sorted input symbol : StronglySorted before (search input symbol).
Proof.
  unfold search. apply enumerate_bind_sorted.
  - intros [y row]. apply enumerate_bind_sorted.
    + intros [x item]. simpl. destruct (decide _); repeat constructor.
    + intros x1 a1 x2 a2 p q Hlt. simpl.
      destruct (decide _); [|by intros H; apply elem_of_nil in H].
      destruct (decide _); [|by intros _ H; apply elem_of_nil in H].
      intros ->%list_elem_of_singleton ->%list_elem_of_singleton.
      right. simpl. done.
  - intros y1 row1 y2 row2 p q Hlt Hp Hq.
    apply list_elem_of_bind in Hp as ([x1 a1] & Hp & _).
    apply list_elem_of_bind in Hq as ([x2 a2] & Hq & _). simpl in *.
    destruct (decide _); [|by apply elem_of_nil in Hp].
    destruct (decide _); [|by apply elem_of_nil in Hq].
    apply list_elem_of_singleton in Hp as ->. apply list_elem_of_singleton in Hq as ->.
    left. simpl. done.
Qed.

Lemma before_irrefl p : ¬ before p p.
Proof. unfold before. lia. Qed.

(** [next(search(...))] is the place where the character comes first. *)
Lemma head_search_Some input symbol p :
  head (search input symbol) = Some p ↔ first_at input (Symbol.value symbol) p.
Proof.
  pose proof (search_sorted input symbol) as Hsorted.
  pose proof (elem_of_search input symbol) as Hin.
  destruct (search input symbol) as [|p0 l]; simpl.
  - split; [done|]. intros [Hp _]. apply Hin in Hp. by apply elem_of_nil in Hp.
  - apply StronglySorted_cons in Hsorted as [Hall _]. rewrite Forall_forall in Hall.
    split.
    + intros [= ->]. split; [apply Hin; by left|].
      intros q Hq. apply Hin, elem_of_cons in Hq as [->|Hq]; [by left|right; auto].
    + intros [Hp Hfirst]. f_equal.
      apply Hin, elem_of_cons in Hp as [->|Hp]; [done|].
      destruct (Hfirst p0) as [->|Hb]; [apply Hin; by left|done|].
      exfalso. apply (before_irrefl p). specialize (Hall _ Hp).
      unfold before in *. lia.
Qed.

Lemma head_search_None input symbol :
  head (search input symbol) = None ↔ ∀ p, char_at input p ≠ Some (Symbol.value symbol).
Proof.
  pose proof (elem_of_search input symbol) as Hin.
  destruct (search input symbol) as [|p0 l]; simpl.
  - split; [|done]. intros _ p Hp. apply Hin in Hp. by apply elem_of_nil in Hp.
  - split; [done|]. intros Hno. exfalso. apply (Hno p0), Hin. by left.
Qed.

(** ** [parse] *)

Lemma wall_tiles_lookup points p :
  wall_tiles points !! p = if decide (p ∈ points) then Some Wall else None.
Proof.
  assert (Hsnoc : ∀ l q, wall_tiles (l ++ [q]) = <[q := Wall]> (wall_tiles l)).
  { intros l q. unfold wall_tiles. by rewrite foldl_app. }
  induction points as [|q points IH] using rev_ind.
  - rewrite decide_False by apply not_elem_of_nil. apply lookup_empty.
  - rewrite Hsnoc. destruct (decide (p = q)) as [->|Hne].
    + rewrite lookup_insert_eq. rewrite decide_True; [done|].
      apply elem_of_app. right. by left.
    + rewrite lookup_insert_ne by done. rewrite IH.
      destruct (decide (p ∈ points)) as [Hin|Hnin].
      * rewrite decide_True; [done|]. apply elem_of_app. by left.
      * rewrite decide_False; [done|]. rewrite elem_of_app, list_elem_of_singleton. tauto.
Qed.

Lemma char_at_Some_row input p c :
  char_at input p = Some c → is_Some (input !! 0%nat).
Proof.
  unfold char_at. destruct (decide _); [|done].
  destruct (input !! Z.to_nat (Point.y p)) as [row|] eqn:Hrow; [|done].
  intros _. apply lookup_lt_is_Some. apply lookup_lt_Some in Hrow. lia.
Qed.

Section parse_correct.
Context (strip_splitlines : str → list str) (input : str).

Local Abbreviation rows := (strip_splitlines input).

Lemma parse_inl e :
  parse strip_splitlines input = inl e ↔
  e = StopIteration
  ∧ ((∀ p, char_at rows p ≠ Some (Symbol.value Symbol.Start))
     ∨ (∀ p, char_at rows p ≠ Some (Symbol.value Symbol.End))).
Proof.
  unfold parse.
  destruct (head (search rows Symbol.Start)) as [start|] eqn:Hs.
  - apply head_search_Some in Hs as Hfs.
    destruct (head (search rows Symbol.End)) as [end_|] eqn:He.
    + apply head_search_Some in He as Hfe.
      destruct (char_at_Some_row _ _ _ (proj1 Hfs)) as [row ->].
      split; [done|]. intros [_ [Hno|Hno]].
      * by destruct (Hno start), Hfs.
      * by destruct (Hno end_), Hfe.
    + rewrite head_search_None in He. split; [|by intros [-> _]].
      intros [= <-]. split; [done|by right].
  - rewrite head_search_None in Hs. split; [|by intros [-> _]].
    intros [= <-]. split; [done|by left].
Qed.

Lemma parse_inr maze start :
  parse strip_splitlines input = inr (maze, start) →
  start = Maze.start maze
  ∧ first_at rows (Symbol.value Symbol.Start) (Maze.start maze)
  ∧ first_at rows (Symbol.value Symbol.End) (Maze.end_ maze)
  ∧ (∀ p, is_wall maze p = true ↔ char_at rows p = Some (Symbol.value Symbol.Wall))
  ∧ (∃ row, rows !! 0%nat = Some row ∧ Maze.width maze = Z.of_nat (length row))
  ∧ Maze.height maze = Z.of_nat (length rows).
Proof.
  unfold parse.
  destruct (head (search rows Symbol.Start)) as [start'|] eqn:Hs; [|done].
  destruct (head (search rows Symbol.End)) as [end_|] eqn:He; [|done].
  destruct (rows !! 0%nat) as [row|] eqn:Hrow; [|done].
  intros [= <- <-].
  split; [done|]. split; [apply head_search_Some; exact Hs|].
  split; [apply head_search_Some; exact He|]. split; [|split; [by exists row|done]].
  intros p. unfold is_wall. cbn [Maze.tiles].
  rewrite wall_tiles_lookup, <- elem_of_search.
  destruct (decide _); simpl; split; done.
Qed.

(** The start and the end of a parsed maze are two cells, neither a
    wall. *)
Lemma parse_inr_cells maze start :
  parse strip_splitlines input = inr (maze, start) →
  Maze.start maze ≠ Maze.end_ maze
  ∧ is_wall maze (Maze.start maze) = false
  ∧ is_wall maze (Maze.end_ maze) = false.
Proof.
  intros H. apply parse_inr in H as (_ & [Hs _] & [He _] & Hw & _).
  split; [|split].
  - intros Heq. rewrite Heq, He in Hs. done.
  - apply not_true_is_false. rewrite Hw, Hs. done.
  - apply not_true_is_false. rewrite Hw, He. done.
Qed.
End parse_correct.

(** ** The two searches share their fate *)

(** The states closed, as a list. *)
Lemma closed_region (closed : gmap State bool) :
  ∃ region : list State, ∀ s, s ∈ region ↔ is_closed closed s.
Proof.
  exists (filter (λ s, is_closed closed s) (map_to_list closed).*1).
  intros s. rewrite list_elem_of_filter. split; [by intros [? _]|].
  intros Hs. split; [done|]. unfold is_closed in Hs.
  destruct (closed !! s) as [b|] eqn:Hb; [|done].
  apply list_elem_of_fmap. exists (s, b). split; [done|].
  by apply elem_of_map_to_list.
Qed.

Section same_fate.
Context (QA : PriorityQueue NodeAStar.t NodeAStar.lt).
Context (QD : PriorityQueue NodeDjikstra.t NodeDjikstra.lt).
Context (maze : Maze.t) (reindeer : Point.t) (direction_default : Direction.t).
Context (Hcardinal : cardinal direction_default).

(** When [find_astar] raises, the states it closed are all that can be
    walked to, and none of them is on the end cell. *)
Lemma find_astar_Raised_region fuel e :
  find_astar QA fuel maze reindeer direction_default = Raised e →
  ∃ region : list State,
    (direction_default, reindeer) ∈ region
    ∧ (∀ s w t, s ∈ region → edge maze s w t → t ∈ region)
    ∧ (∀ s, s ∈ region → s.2 ≠ Maze.end_ maze).
Proof.
  intros H. apply find_astar_Raised in H as [_ (k & st & Hit & Hget)].
  pose proof (astar_iterate_inv _ _ _ _ Hcardinal _ _ Hit) as Hinv.
  apply pq_get_None in Hget.
  destruct (closed_region (astar_closed QA st)) as [region Hregion].
  exists region. split; [|split].
  - apply Hregion. destruct (ainv_start Hinv) as [?|(n & Hn & _)]; [done|].
    rewrite Hget in Hn. by apply elem_of_nil in Hn.
  - intros s w t Hs He. apply Hregion. apply Hregion in Hs.
    destruct (ainv_closed_least Hinv _ Hs) as (c & _ & Hcov).
    destruct (Hcov _ _ He) as [?|(n & Hn & _)]; [done|].
    rewrite Hget in Hn. by apply elem_of_nil in Hn.
  - intros s Hs. apply Hregion in Hs. by apply (ainv_closed_end Hinv).
Qed.

Lemma find_djikstra_Raised_region fuel e :
  find_djikstra QD fuel maze reindeer direction_default = Raised e →
  ∃ region : list State,
    (direction_default, reindeer) ∈ region
    ∧ (∀ s w t, s ∈ region → edge maze s w t → t ∈ region)
    ∧ (∀ s, s ∈ region → s.2 ≠ Maze.end_ maze).
Proof.
  intros H. apply find_djikstra_Raised in H as [_ (k & st & Hit & Hget)].
  pose proof (djikstra_iterate_inv _ _ _ _ _ _ Hit) as Hinv.
  apply pq_get_None in Hget.
  destruct (closed_region (djikstra_closed QD st)) as [region Hregion].
  exists region. split; [|split].
  - apply Hregion. destruct (inv_start Hinv) as [?|(n & Hn & _)]; [done|].
    rewrite Hget in Hn. by apply elem_of_nil in Hn.
  - intros s w t Hs He. apply Hregion. apply Hregion in Hs.
    destruct (inv_closed_least Hinv _ Hs) as (c & _ & Hcov).
    destruct (Hcov _ _ He) as [?|(n & Hn & _)]; [done|].
    rewrite Hget in Hn. by apply elem_of_nil in Hn.
  - intros s Hs. apply Hregion in Hs. by apply (inv_closed_end Hinv).
Qed.

Lemma searches_return_together :
  (∃ fuel r, find_astar QA fuel maze reindeer direction_default = Returned r)
  ↔ (∃ fuel r, find_djikstra QD fuel maze reindeer direction_default = Returned r).
Proof.
  split.
  - intros (fuel & [c trail] & H).
    apply find_astar_best_cost in H as [[d Hr] _]; [|done].
    destruct (find_djikstra_returns maze reindeer direction_default Hcardinal d c Hr QD)
      as (fuel' & c' & cells & H').
    by exists fuel', (c', cells).
  - intros (fuel & [c cells] & H).
    apply find_djikstra_best_cost in H as [[d Hr] _].
    destruct (find_astar_returns maze reindeer direction_default Hcardinal d c Hr QA)
      as (fuel' & c' & trail & H').
    by exists fuel', (c', trail).
Qed.

Lemma searches_raise_together :
  (∃ fuel e, find_astar QA fuel maze reindeer direction_default = Raised e)
  ↔ (∃ fuel e, find_djikstra QD fuel maze reindeer direction_default = Raised e).
Proof.
  split.
  - intros (fuel & e & H).
    apply find_astar_Raised_region in H as (region & Hs & Hm & Hn).
    destruct (find_djikstra_raises maze reindeer direction_default region Hs Hm Hn QD)
      as [fuel' H'].
    by exists fuel', RouteNotFound.
  - intros (fuel & e & H).
    apply find_djikstra_Raised_region in H as (region & Hs & Hm & Hn).
    destruct (find_astar_raises maze reindeer direction_default region Hs Hm Hn QA Hcardinal)
      as [fuel' H'].
    by exists fuel', RouteNotFound.
Qed.
End same_fate.

(** ** The text, the parser and the two parts *)

(** X15: [search] yields the places of the symbol's character and no
    others, in reading order, each once. *)
Theorem search_reading_order (input : list str) (symbol : Symbol.t) :
  (∀ p, p ∈ search input symbol ↔ char_at input p = Some (Symbol.value symbol))
  ∧ StronglySorted before (search input symbol)
  ∧ NoDup (search input symbol).
Proof.
  split; [apply elem_of_search|]. split; [apply search_sorted|].
  pose proof (search_sorted input symbol) as Hsorted.
  induction Hsorted as [|p l _ IH Hall]; constructor; [|done].
  intros Hp. rewrite Forall_forall in Hall. by apply (before_irrefl p), Hall.
Qed.

(** X16: [parse] raises exactly when the text has no [S] or no [E], and
    what it raises then is [StopIteration]; [maze[0]] never raises
    [IndexError], for a text with an [S] has a first row. *)
Theorem parse_raises_iff_marker_missing
    (strip_splitlines : str → list str) (input : str) (e : parse_exn) :
  parse strip_splitlines input = inl e ↔
  e = StopIteration
  ∧ ((∀ p, char_at (strip_splitlines input) p ≠ Some (Symbol.value Symbol.Start))
     ∨ (∀ p, char_at (strip_splitlines input) p ≠ Some (Symbol.value Symbol.End))).
Proof. apply parse_inl. Qed.

(** X17: the maze [parse] returns.  Its start is the first [S] of the
    text in reading order and is returned a second time beside the
    maze, its end is the first [E], its walls are the places of the
    [#]s, its width is the length of the first row and its height the
    number of rows; start and end are two cells and neither is a wall. *)
Theorem parse_returns
    (strip_splitlines : str → list str) (input : str) (maze : Maze.t) (start : Point.t) :
  parse strip_splitlines input = inr (maze, start) →
  start = Maze.start maze
  ∧ first_at (strip_splitlines input) (Symbol.value Symbol.Start) (Maze.start maze)
  ∧ first_at (strip_splitlines input) (Symbol.value Symbol.End) (Maze.end_ maze)
  ∧ (∀ p, is_wall maze p = true
          ↔ char_at (strip_splitlines input) p = Some (Symbol.value Symbol.Wall))
  ∧ (∃ row, strip_splitlines input !! 0%nat = Some row
            ∧ Maze.width maze = Z.of_nat (length row))
  ∧ Maze.height maze = Z.of_nat (length (strip_splitlines input))
  ∧ Maze.start maze ≠ Maze.end_ maze
  ∧ is_wall maze (Maze.start maze) = false
  ∧ is_wall maze (Maze.end_ maze) = false.
Proof.
  intros H. pose proof (parse_inr_cells _ _ _ _ H) as (Hne & Hs & He).
  apply parse_inr in H as (H1 & H2 & H3 & H4 & H5 & H6).
  repeat (split; [assumption|]). assumption.
Qed.

Lemma parse_fork_text : parse lines fork_text = inr (fork, Point.mk 2 3).
Proof. vm_compute. reflexivity. Qed.

Lemma parse_returns_witness :
  Point.mk 2 3 = Maze.start fork
  ∧ first_at (lines fork_text) (Symbol.value Symbol.Start) (Maze.start fork)
  ∧ first_at (lines fork_text) (Symbol.value Symbol.End) (Maze.end_ fork)
  ∧ (∀ p, is_wall fork p = true
          ↔ char_at (lines fork_text) p = Some (Symbol.value Symbol.Wall))
  ∧ (∃ row, lines fork_text !! 0%nat = Some row
            ∧ Maze.width fork = Z.of_nat (length row))
  ∧ Maze.height fork = Z.of_nat (length (lines fork_text))
  ∧ Maze.start fork ≠ Maze.end_ fork
  ∧ is_wall fork (Maze.start fork) = false
  ∧ is_wall fork (Maze.end_ fork) = false.
Proof.
  apply (parse_returns lines fork_text fork (Point.mk 2 3)).
  apply parse_fork_text.
Defined.

(** X18: when [part1] returns a number, the text was parsed and the
    number is the least cost of a walk from the first [S], facing east,
    to the first [E]; it is positive. *)
Theorem part1_least_cost
    (strip_splitlines : str → list str)
    (QA : PriorityQueue NodeAStar.t NodeAStar.lt)
    (fuel : nat) (input : str) (cost : Z) :
  part1 strip_splitlines QA fuel input = Value cost →
  ∃ maze start,
    parse strip_splitlines input = inr (maze, start)
    ∧ (∃ d, reach maze start DIRECTION_START (d, Maze.end_ maze) cost)
    ∧ (∀ d c, reach maze start DIRECTION_START (d, Maze.end_ maze) c → cost ≤ c)
    ∧ 0 < cost.
Proof.
  unfold part1.
  destruct (parse strip_splitlines input) as [e|[maze start]] eqn:Hparse; [done|].
  destruct (find_astar _ _ _ _ _) as [[c trail]|e|] eqn:H; [|done..].
  intros [= <-]. simpl. exists maze, start. split; [done|].
  pose proof (find_astar_best_cost QA maze start DIRECTION_START cardinal_East _ _ _ H)
    as [[d Hr] Hmin].
  split; [by exists d|]. split; [done|].
  pose proof (reach_lower_bound _ _ _ _ _ cardinal_East Hr) as Hlb.
  pose proof (parse_inr_cells _ _ _ _ Hparse) as [Hne _].
  apply parse_inr in Hparse as [-> _].
  assert (Maze.end_ maze ≠ Maze.start maze) as Hne' by done.
  destruct (Maze.end_ maze) as [ex ey], (Maze.start maze) as [sx sy]. simpl in Hlb.
  destruct (decide _); destruct (decide (ex = sx)), (decide (ey = sy)); subst; try lia; done.
Qed.

Lemma part1_least_cost_witness :
  ∃ maze start,
    parse lines fork_text = inr (maze, start)
    ∧ (∃ d, reach maze start DIRECTION_START (d, Maze.end_ maze) 2004)
    ∧ (∀ d c, reach maze start DIRECTION_START (d, Maze.end_ maze) c → 2004 ≤ c)
    ∧ 0 < 2004.
Proof.
  apply (part1_least_cost lines astar_queue 200 fork_text 2004).
  vm_compute. reflexivity.
Defined.



(** X20: started on a cardinal heading, the two searches share their
    fate, whatever their queues: one returns on some fuel exactly when
    the other does, and one raises on some fuel exactly when the other
    does. *)
Theorem searches_same_fate
    (QA : PriorityQueue NodeAStar.t NodeAStar.lt)
    (QD : PriorityQueue NodeDjikstra.t NodeDjikstra.lt)
    (maze : Maze.t) (reindeer : Point.t) (direction_default : Direction.t) :
  cardinal direction_default →
  ((∃ fuel r, find_astar QA fuel maze reindeer direction_default = Returned r)
   ↔ (∃ fuel r, find_djikstra QD fuel maze reindeer direction_default = Returned r))
  ∧ ((∃ fuel e, find_astar QA fuel maze reindeer direction_default = Raised e)
     ↔ (∃ fuel e, find_djikstra QD fuel maze reindeer direction_default = Raised e)).
Proof.
  intros Hd. split.
  - by apply searches_return_together.
  - by apply searches_raise_together.
Qed.

Lemma searches_same_fate_witness :
  ((∃ fuel r, find_astar astar_queue fuel walled_in (Point.mk 1 1) East = Returned r)
   ↔ (∃ fuel r, find_djikstra djikstra_stack fuel walled_in (Point.mk 1 1) East = Returned r))
  ∧ ((∃ fuel e, find_astar astar_queue fuel walled_in (Point.mk 1 1) East = Raised e)
     ↔ (∃ fuel e, find_djikstra djikstra_stack fuel walled_in (Point.mk 1 1) East = Raised e)).
Proof.
  apply (searches_same_fate astar_queue djikstra_stack walled_in (Point.mk 1 1) East
           cardinal_East).
Defined.

(** X21: [part1] and [part2] share their fate on every text.  Both raise
    the parser's exception, whatever the fuel and the queues; or one
    returns on some fuel exactly when the other does; or one raises
    "Route is not found" on some fuel exactly when the other does.
    Neither ever raises [KeyError]. *)
Theorem parts_same_fate
    (strip_splitlines : str → list str)
    (QA : PriorityQueue NodeAStar.t NodeAStar.lt)
    (QD : PriorityQueue NodeDjikstra.t NodeDjikstra.lt)
    (input : str) :
  (∀ e fuelA fuelD,
     part1 strip_splitlines QA fuelA input = ParseRaised e
     ↔ part2 strip_splitlines QD fuelD input = ParseRaised e)
  ∧ ((∃ fuel cost, part1 strip_splitlines QA fuel input = Value cost)
     ↔ (∃ fuel n, part2 strip_splitlines QD fuel input = Value n))
  ∧ ((∃ fuel, part1 strip_splitlines QA fuel input = SearchRaised RouteNotFound)
     ↔ (∃ fuel, part2 strip_splitlines QD fuel input = SearchRaised RouteNotFound))
  ∧ (∀ fuelA fuelD,
       part1 strip_splitlines QA fuelA input ≠ SearchRaised KeyError
       ∧ part2 strip_splitlines QD fuelD input ≠ SearchRaised KeyError).
Proof.
  unfold part1, part2.
  destruct (parse strip_splitlines input) as [e|[maze start]] eqn:Hparse.
  - split; [done|]. split; [|split; [|done]]; split; by intros (? & ? & ?) || intros (? & ?).
  - pose proof (searches_return_together QA QD maze start DIRECTION_START cardinal_East)
      as Hret.
    pose proof (searches_raise_together QA QD maze start DIRECTION_START cardinal_East)
      as Hraise.
    split; [|split; [|split]].
    + intros e fuelA fuelD.
      destruct (find_astar _ _ _ _ _) as [[? ?]|?|], (find_djikstra _ _ _ _ _) as [[? ?]|?|];
        done.
    + split.
      * intros (fuel & cost & H).
        destruct (find_astar _ _ _ _ _) as [r|?|] eqn:HA; [|done..].
        destruct (proj1 Hret (ex_intro _ fuel (ex_intro _ r HA))) as (fuel' & r' & HD).
        exists fuel', (Z.of_nat (size r'.2)). by rewrite HD.
      * intros (fuel & n & H).
        destruct (find_djikstra _ _ _ _ _) as [r|?|] eqn:HD; [|done..].
        destruct (proj2 Hret (ex_intro _ fuel (ex_intro _ r HD))) as (fuel' & r' & HA).
        exists fuel', r'.1. by rewrite HA.
    + split.
      * intros (fuel & H).
        destruct (find_astar _ _ _ _ _) as [?|e|] eqn:HA; [done| |done].
        destruct (proj1 Hraise (ex_intro _ fuel (ex_intro _ e HA))) as (fuel' & e' & HD).
        exists fuel'. rewrite HD. by apply find_djikstra_Raised in HD as [-> _].
      * intros (fuel & H).
        destruct (find_djikstra _ _ _ _ _) as [?|e|] eqn:HD; [done| |done].
        destruct (proj2 Hraise (ex_intro _ fuel (ex_intro _ e HD))) as (fuel' & e' & HA).
        exists fuel'. rewrite HA. by apply find_astar_Raised in HA as [-> _].
    + intros fuelA fuelD. split.
      * destruct (find_astar _ _ _ _ _) as [?|e|] eqn:HA; [done| |done].
        by apply find_astar_Raised in HA as [-> _].
      * destruct (find_djikstra _ _ _ _ _) as [?|e|] eqn:HD; [done| |done].
        by apply find_djikstra_Raised in HD as [-> _].
Qed.

(** ** [visualize] *)

Lemma plain_visualize_tile maze p trail rest :
  plain (visualize_tile maze p trail ++ rest) = shown maze trail p :: plain rest.
Proof.
  unfold visualize_tile, shown, is_wall.
  destruct (decide (p = Maze.start maze)); [reflexivity|].
  destruct (decide (p = Maze.end_ maze)); [reflexivity|].
  destruct (decide (is_Some (trail !! p))) as [Hin|Hnin].
  - rewrite decide_True by (by apply elem_of_dom). reflexivity.
  - rewrite decide_False by (by rewrite elem_of_dom).
    destruct (default Space (Maze.tiles maze !! p)); reflexivity.
Qed.

Lemma plain_row maze trail y xs rest :
  plain (mjoin ((λ x, visualize_tile maze (Point.mk x y) trail) <$> xs) ++ rest)
  = ((λ x, shown maze trail (Point.mk x y)) <$> xs) ++ plain rest.
Proof.
  induction xs as [|x xs IH]; [done|].
  cbn [fmap list_fmap mjoin list_join]. rewrite <- app_assoc.
  rewrite plain_visualize_tile. cbn [app]. f_equal. apply IH.
Qed.

Lemma plain_visualize maze trail :
  plain (visualize maze trail) = join [newline] (shown_rows maze trail).
Proof.
  unfold visualize, shown_rows. generalize (range (Maze.height maze)) as ys.
  induction ys as [|y ys IH]; [done|].
  destruct ys as [|y' ys].
  - cbn [fmap list_fmap join].
    rewrite <- (app_nil_r (mjoin _)). rewrite plain_row. by rewrite app_nil_r.
  - cbn [fmap list_fmap join] in *. rewrite plain_row. f_equal.
    cbn [app]. change (plain (newline :: ?s)) with (newline :: plain s). f_equal.
    apply IH.
Qed.

Lemma char_at_lookup input (i j : nat) row c :
  input !! i = Some row → row !! j = Some c →
  char_at input (Point.mk (Z.of_nat j) (Z.of_nat i)) = Some c.
Proof.
  intros Hrow Hc. unfold char_at. simpl. rewrite decide_True by lia.
  rewrite !Nat2Z.id, Hrow. simpl. done.
Qed.

Section round_trip.
Context (strip_splitlines : str → list str) (input : str).
Context (maze : Maze.t) (start : Point.t).
Context (Hparse : parse strip_splitlines input = inr (maze, start)).
Context (Hwf : well_formed (strip_splitlines input)).

Local Abbreviation rows := (strip_splitlines input).

Lemma head_length_1 {A : Type} (l : list A) a :
  length l = 1%nat → head l = Some a → l = [a].
Proof. destruct l as [|b [|]]; simpl; [done| |done]. by intros _ [= ->]. Qed.

(** Without a trail, each cell shows the character the text has there. *)
Lemma shown_char_at p c :
  char_at rows p = Some c → shown maze ∅ p = c.
Proof.
  intros Hc. destruct Hwf as (_ & Hchars & HS & HE).
  pose proof Hparse as Hp. unfold parse in Hp.
  destruct (head (search rows Symbol.Start)) as [s|] eqn:Hs; [|done].
  destruct (head (search rows Symbol.End)) as [e|] eqn:He; [|done].
  destruct (rows !! 0%nat); [|done]. injection Hp as Hmaze _.
  apply (head_length_1 _ _ HS) in Hs. apply (head_length_1 _ _ HE) in He.
  pose proof (parse_inr _ _ _ _ Hparse) as (_ & _ & _ & Hwall & _).
  assert (HpS : p = Maze.start maze ↔ c = Symbol.value Symbol.Start).
  { rewrite <- Hmaze. simpl. rewrite <- (list_elem_of_singleton p s), <- Hs, elem_of_search, Hc.
    split; [by intros [= ->]|by intros ->]. }
  assert (HpE : p = Maze.end_ maze ↔ c = Symbol.value Symbol.End).
  { rewrite <- Hmaze. simpl. rewrite <- (list_elem_of_singleton p e), <- He, elem_of_search, Hc.
    split; [by intros [= ->]|by intros ->]. }
  assert (HpW : is_wall maze p = true ↔ c = Symbol.value Symbol.Wall).
  { rewrite Hwall, Hc. split; [by intros [= ->]|by intros ->]. }
  assert (Hcs : c ∈ [Symbol.value Symbol.Start; Symbol.value Symbol.End;
                     Symbol.value Symbol.Wall; Symbol.value Symbol.Space]).
  { unfold char_at in Hc. destruct (decide _); [|done].
    destruct (rows !! Z.to_nat (Point.y p)) as [row|] eqn:Hrow; [|done]. simpl in Hc.
    rewrite Forall_forall in Hchars.
    specialize (Hchars row (list_elem_of_lookup_2 _ _ _ Hrow)).
    rewrite Forall_forall in Hchars. apply Hchars. by eapply list_elem_of_lookup_2. }
  unfold shown. rewrite dom_empty_L.
  destruct (decide (p = Maze.start maze)) as [H|HnS]; [symmetry; by apply HpS|].
  destruct (decide (p = Maze.end_ maze)) as [H|HnE]; [symmetry; by apply HpE|].
  rewrite decide_False by apply not_elem_of_empty.
  destruct (is_wall maze p) eqn:Hw; [symmetry; by apply HpW|].
  rewrite !elem_of_cons, elem_of_nil in Hcs.
  destruct Hcs as [H|[H|[H|[H|[]]]]]; [by apply HpS in H|by apply HpE in H| |done].
  apply HpW in H. congruence.
Qed.

Lemma shown_rows_parse : shown_rows maze ∅ = rows.
Proof.
  destruct Hwf as (Hlen & _).
  pose proof (parse_inr _ _ _ _ Hparse) as (_ & _ & _ & _ & (row0 & Hrow0 & Hwidth) & Hheight).
  assert (Hw : ∀ row, row ∈ rows → Z.of_nat (length row) = Maze.width maze).
  { intros row Hrow. rewrite Forall_forall in Hlen. rewrite (Hlen row Hrow), Hwidth.
    rewrite head_lookup, Hrow0. done. }
  unfold shown_rows, range. apply list_eq. intros i. rewrite list_lookup_fmap.
  destruct (rows !! i) as [row|] eqn:Hrow.
  - pose proof (lookup_lt_Some _ _ _ Hrow) as Hi.
    rewrite lookup_seqZ_lt by lia. simpl. f_equal.
    specialize (Hw row (list_elem_of_lookup_2 _ _ _ Hrow)).
    apply list_eq. intros j. rewrite list_lookup_fmap.
    destruct (row !! j) as [c|] eqn:Hc.
    + pose proof (lookup_lt_Some _ _ _ Hc) as Hj.
      rewrite lookup_seqZ_lt by lia. simpl. f_equal.
      apply shown_char_at. by eapply char_at_lookup.
    + apply lookup_ge_None in Hc. rewrite lookup_seqZ_ge by lia. done.
  - apply lookup_ge_None in Hrow. rewrite lookup_seqZ_ge by lia. done.
Qed.
End round_trip.

(** X22: with its tags taken out, what [visualize] returns is [height]
    lines of [width] characters, joined by line feeds: line [y] shows at
    column [x] the start as [S], else the end as [E], else a cell of the
    trail as [@], else a wall as [#], else [.]. *)
Theorem visualize_shows (maze : Maze.t) (trail : Trail) :
  plain (visualize maze trail) = join [newline] (shown_rows maze trail)
  ∧ length (shown_rows maze trail) = Z.to_nat (Maze.height maze)
  ∧ Forall (λ row, length row = Z.to_nat (Maze.width maze)) (shown_rows maze trail).
Proof.
  split; [apply plain_visualize|]. unfold shown_rows, range. split.
  - by rewrite length_fmap, length_seqZ.
  - apply Forall_fmap, Forall_forall. intros y _. simpl.
    by rewrite length_fmap, length_seqZ.
Qed.

(** X23: parsing a well-formed text and rendering the maze without a
    trail gives the text back, once the tags are taken out. *)
Theorem parse_visualize_round_trip
    (strip_splitlines : str → list str) (input : str) (maze : Maze.t) (start : Point.t) :
  parse strip_splitlines input = inr (maze, start) →
  well_formed (strip_splitlines input) →
  plain (visualize maze ∅) = join [newline] (strip_splitlines input).
Proof.
  intros Hparse Hwf. rewrite plain_visualize.
  by rewrite (shown_rows_parse strip_splitlines input maze start).
Qed.

Lemma parse_visualize_round_trip_witness :
  plain (visualize fork ∅) = join [newline] (lines fork_text).
Proof.
  apply (parse_visualize_round_trip lines fork_text fork (Point.mk 2 3)).
  - apply parse_fork_text.
  - unfold well_formed. apply (bool_decide_unpack _). vm_compute. exact I.
Defined.

(** ** Walls all around *)

Section walled_around.
Context (maze : Maze.t) (reindeer : Point.t) (direction_default : Direction.t).
Context (Hcardinal : cardinal direction_default).
Context (Hwalled : walled_around maze).
Context (Hstart : in_grid maze reindeer).

(** No walk leaves the grid: it would have to leave a cell of the rim. *)
Lemma reach_in_grid s c :
  reach maze reindeer direction_default s c → in_grid maze s.2.
Proof.
  induction 1 as [|s c w t Hs IH He]; [done|].
  pose proof (reach_cardinal _ _ _ _ _ Hcardinal Hs) as Hcard.
  destruct He as [d p Hw|d p Hw|d p Hw]; simpl in *; [|done..].
  assert (Hrim : ¬ (Point.x p = 0 ∨ Point.x p = Maze.width maze - 1
                    ∨ Point.y p = 0 ∨ Point.y p = Maze.height maze - 1)).
  { intros Hrim. by rewrite (Hwalled p IH Hrim) in Hw. }
  apply cardinal_cases in Hcard. unfold in_grid in *. destruct p as [x y]. simpl in *.
  destruct Hcard as [-> | [-> | [-> | ->]]]; simpl; lia.
Qed.

Lemma grid_states_within s c :
  reach maze reindeer direction_default s c →
  s ∈ states_within (Point.mk 0 0) (Maze.width maze + Maze.height maze).
Proof.
  intros Hr. pose proof (reach_in_grid _ _ Hr) as [Hx Hy]. destruct s as [d p].
  apply elem_of_states_within.
  - apply (reach_cardinal _ _ _ _ _ Hcardinal Hr).
  - simpl in *. lia.
Qed.

Lemma find_djikstra_finishes_walled (Q : PriorityQueue NodeDjikstra.t NodeDjikstra.lt) :
  ∃ fuel, find_djikstra Q fuel maze reindeer direction_default ≠ OutOfFuel.
Proof.
  apply (find_djikstra_finishes Q maze reindeer direction_default
           (states_within (Point.mk 0 0) (Maze.width maze + Maze.height maze))).
  intros st current open [Hinv _] Hget.
  apply (grid_states_within _ (NodeDjikstra.cost current)).
  apply (inv_open_reach Hinv).
  destruct (pq_get_Some Q _ _ _ Hget) as [-> _]. by left.
Qed.

Lemma find_astar_finishes_walled (Q : PriorityQueue NodeAStar.t NodeAStar.lt) :
  ∃ fuel, find_astar Q fuel maze reindeer direction_default ≠ OutOfFuel.
Proof.
  apply (find_astar_finishes Q maze reindeer direction_default Hcardinal
           (states_within (Point.mk 0 0) (Maze.width maze + Maze.height maze))).
  intros st current open Hinv Hget.
  apply (grid_states_within _ (NodeAStar.g current)).
  apply (ainv_open_reach Hinv).
  destruct (pq_get_Some Q _ _ _ Hget) as [-> _]. by left.
Qed.
End walled_around.

Lemma fork_walled_around : walled_around fork.
Proof.
  intros [x y] [Hx Hy] Hrim. simpl in *.
  assert (x = 0 ∨ x = 1 ∨ x = 2 ∨ x = 3 ∨ x = 4) as Hxs by lia.
  assert (y = 0 ∨ y = 1 ∨ y = 2 ∨ y = 3 ∨ y = 4) as Hys by lia.
  destruct Hxs as [-> | [-> | [-> | [-> | ->]]]];
    destruct Hys as [-> | [-> | [-> | [-> | ->]]]];
    first [ reflexivity | lia ].
Qed.

(** X24: the searches never read [width] and [height]; walls are what
    keeps them in.  When every cell on the rim of the grid is a wall and
    the search starts within the grid on a cardinal heading, both
    searches leave their loop on some fuel, whatever the queue. *)
Theorem searches_finish_when_walled_around
    (QA : PriorityQueue NodeAStar.t NodeAStar.lt)
    (QD : PriorityQueue NodeDjikstra.t NodeDjikstra.lt)
    (maze : Maze.t) (reindeer : Point.t) (direction_default : Direction.t) :
  cardinal direction_default →
  walled_around maze →
  in_grid maze reindeer →
  (∃ fuel, find_astar QA fuel maze reindeer direction_default ≠ OutOfFuel)
  ∧ (∃ fuel, find_djikstra QD fuel maze reindeer direction_default ≠ OutOfFuel).
Proof.
  intros Hd Hwalled Hstart. split.
  - by apply find_astar_finishes_walled.
  - by apply find_djikstra_finishes_walled.
Qed.

Lemma searches_finish_when_walled_around_witness :
  (∃ fuel, find_astar astar_queue fuel fork (Point.mk 2 3) East ≠ OutOfFuel)
  ∧ (∃ fuel, find_djikstra djikstra_queue fuel fork (Point.mk 2 3) East ≠ OutOfFuel).
Proof.
  apply (searches_finish_when_walled_around astar_queue djikstra_queue fork
           (Point.mk 2 3) East cardinal_East fork_walled_around).
  unfold in_grid. simpl. lia.
Defined.
